(** * CLEAR AQA dataset generator: the scene composition search

    A shallow embedding of [scene_generation/scene_generator.py]:
    the sound catalog ([Primary_sounds]), the two validators, the
    depth-first tree instantiation ([_generate_scenes_idx]) and the
    train/val/test split ([generate]).

    Conventions.
    - Python [int]s are [Z]; Python lists are [list]s in Python order
      ([append] adds at the end, [pop] removes the last element).
    - A Python [dict] is an association list in insertion order with
      unique keys ([pydict]); that is the order [values()] and
      [items()] iterate in.
    - Code that can raise, or loop, returns a [result]: [Ok v],
      [Raise e] for a Python exception, [Timeout] when the fuel given
      to a [while] loop runs out before the loop exits.
    - [Node] objects live in a heap and are referred to by handle, so
      that the [parent] back-reference and the [childs] list of a node
      alias the same objects as in the source.
    - The diagnostic counters ([generated_count_by_index],
      [generated_count_by_families], [self.stats]) and the [print]
      calls influence no control flow and are left out. [self.stats]
      is set when [_generate_scenes_idx] starts: [validate_intermediate],
      which updates it, is modelled as the search calls it. *)

From Stdlib Require Import ZArith QArith Qround Lia Lqa.
From stdpp Require Import base numbers strings option list.

#[local] Open Scope Z_scope.

(** ** Results of partial, fallible computations *)

Inductive exn : Type :=
  | IndexError      (* list index out of range, pop from empty list *)
  | ValueError      (* empty range for randint *)
  | AttributeError  (* attribute access on None *)
  | NoSuchObject.   (* a handle outside the heap; cannot happen in Python *)

Inductive result (A : Type) : Type :=
  | Ok (a : A)
  | Raise (e : exn)
  | Timeout.

Arguments Ok {A} a.
Arguments Raise {A} e.
Arguments Timeout {A}.

#[global] Instance result_ret : MRet result := fun A a => Ok a.
#[global] Instance result_bind : MBind result := fun A B f m =>
  match m with
  | Ok a => f a
  | Raise e => Raise e
  | Timeout => Timeout
  end.

#[global] Instance result_fmap : FMap result := fun A B f m =>
  match m with
  | Ok a => Ok (f a)
  | Raise e => Raise e
  | Timeout => Timeout
  end.

(** ** Python containers *)

(** [l[i]] on a Python list: negative indices count from the end. *)
Definition py_index {A} (l : list A) (i : Z) : result A :=
  let n := Z.of_nat (length l) in
  let j := if i <? 0 then i + n else i in
  if (0 <=? j) && (j <? n) then
    match l !! Z.to_nat j with
    | Some x => Ok x
    | None => Raise IndexError
    end
  else Raise IndexError.

(** [l.pop()]: the list without its last element. *)
Definition py_pop {A} (l : list A) : result (list A) :=
  match l with
  | [] => Raise IndexError
  | _ => Ok (removelast l)
  end.

(** [l.remove(x)]: the list without the first element equal to [x]. *)
Fixpoint py_remove (x : Z) (l : list Z) : result (list Z) :=
  match l with
  | [] => Raise ValueError
  | y :: l' => if bool_decide (y = x) then Ok l' else l'' ← py_remove x l'; Ok (y :: l'')
  end.

Abbreviation pydict V := (list (string * V)) (only parsing).

Fixpoint dict_get {V} (k : string) (d : pydict V) : option V :=
  match d with
  | [] => None
  | (k', v) :: d' => if String.eqb k' k then Some v else dict_get k d'
  end.

(** [d[k] = v]: overwrite in place, or insert at the end. *)
Fixpoint dict_set {V} (k : string) (v : V) (d : pydict V) : pydict V :=
  match d with
  | [] => [(k, v)]
  | (k', v') :: d' =>
      if String.eqb k' k then (k', v) :: d' else (k', v') :: dict_set k v d'
  end.

Definition dict_keys {V} (d : pydict V) : list string := d.*1.
Definition dict_values {V} (d : pydict V) : list V := d.*2.

(** ** Python numbers *)

(** [round(x)] of Python 3 on a float: the nearest integer, ties to the
    even one. The float is given by its (rational) value. *)
Definition py_round (x : Q) : Z :=
  let f := Qfloor x in
  match (x - inject_Z f ?= 1 # 2)%Q with
  | Lt => f
  | Gt => f + 1
  | Eq => if Z.even f then f else f + 1
  end.

(** The unit roundoff of binary64 and half its smallest subnormal. *)
Definition float_eps : Q := 1 # (2 ^ 53).
Definition float_eta : Q := 1 # (2 ^ 1075).

(** ** The catalog *)

(** A primary sound after [_preprocess_sounds]; only the family takes
    part in the scene search. *)
Record sound : Type := {
  instrument_family : string;
  note : string;
  duration : Z;
  rms : Z
}.

(** The loop of the two histograms:
    [if family in count: count[family] += 1 else: count[family] = 1]. *)
Definition count_family (count : pydict Z) (family : string) : pydict Z :=
  match dict_get family count with
  | Some c => dict_set family (c + 1) count
  | None => dict_set family 1 count
  end.

(** ** Loading the catalog

    [Primary_sounds._preprocess_sounds] works on the records of
    [primary_sounds.json] as they are loaded, dictionaries from
    attribute names to JSON values. *)

#[local] Unset Elimination Schemes.
Inductive json : Type :=
  | JNull
  | JBool (b : bool)
  | JInt (z : Z)
  | JFloat (q : Q)
  | JStr (s : string)
  | JList (l : list json).
#[local] Set Elimination Schemes.

(** The exceptions of the loading code. *)
Inductive load_error : Type :=
  | KeyError (key : string)   (* d[key], del d[key] without the key *)
  | TypeError                 (* a path made from a value that is no string *)
  | FileNotFoundError.        (* no such wav file *)

Inductive outcome (A : Type) : Type :=
  | Done (a : A)
  | Fails (e : load_error).

Arguments Done {A} a.
Arguments Fails {A} e.

#[global] Instance outcome_ret : MRet outcome := fun A a => Done a.
#[global] Instance outcome_bind : MBind outcome := fun A B f m =>
  match m with
  | Done a => f a
  | Fails e => Fails e
  end.

(** [s.endswith(suffix)] *)
Definition endswith (s suffix : string) : bool :=
  bool_decide (String.list_ascii_of_string suffix `suffix_of` String.list_ascii_of_string s).

(** [s[:-n]] for [n > 0]: [s] without its last [n] characters, the
    empty string when [s] has no more than [n]. *)
Definition drop_last (n : nat) (s : string) : string :=
  let l := String.list_ascii_of_string s in
  String.string_of_list_ascii (take (length l - n) l).

(** [d[k]] *)
Definition dict_item {V} (k : string) (d : pydict V) : outcome V :=
  match dict_get k d with
  | Some v => Done v
  | None => Fails (KeyError k)
  end.

Fixpoint dict_remove {V} (k : string) (d : pydict V) : pydict V :=
  match d with
  | [] => []
  | (k', v) :: d' => if String.eqb k' k then d' else (k', v) :: dict_remove k d'
  end.

(** [del d[k]] *)
Definition dict_del {V} (k : string) (d : pydict V) : outcome (pydict V) :=
  match dict_get k d with
  | Some _ => Done (dict_remove k d)
  | None => Fails (KeyError k)
  end.

(** The [for key in list(primary_sound.keys())] loop: the keys are those
    the record had when the loop started. *)
Fixpoint rename_str_keys (keys : list string) (primary_sound : pydict json)
    : outcome (pydict json) :=
  match keys with
  | [] => Done primary_sound
  | key :: keys' =>
      if endswith key "_str" then
        v ← dict_item key primary_sound;
        let primary_sound := dict_set (drop_last 4 key) v primary_sound in
        primary_sound ← dict_del key primary_sound;
        rename_str_keys keys' primary_sound
      else rename_str_keys keys' primary_sound
  end.

(** The body of the loop of [_preprocess_sounds], for one record.
    [audio name] stands for the wav file of the sound [name] in the
    folder of the catalog: [int(duration_seconds * 1000)] and [rms] of
    its audio segment, or [None] when there is no such file. *)
Definition _preprocess_sound (audio : string -> option (Z * Z))
    (primary_sound : pydict json) : outcome (pydict json) :=
  note_str ← dict_item "note_str" primary_sound;
  match note_str with
  | JStr name =>
      match audio name with
      | None => Fails FileNotFoundError
      | Some (duration_ms, rms_value) =>
          primary_sound ← rename_str_keys (dict_keys primary_sound) primary_sound;
          primary_sound ←
            (if bool_decide ("sample_rate" ∈ dict_keys primary_sound)
             then dict_del "sample_rate" primary_sound
             else Done primary_sound);
          let primary_sound := dict_set "duration" (JInt duration_ms) primary_sound in
          Done (dict_set "rms" (JInt rms_value) primary_sound)
      end
  | _ => Fails TypeError
  end.

Fixpoint _preprocess_sounds (audio : string -> option (Z * Z))
    (definition : list (pydict json)) : outcome (list (pydict json)) :=
  match definition with
  | [] => Done []
  | primary_sound :: rest =>
      primary_sound ← _preprocess_sound audio primary_sound;
      rest ← _preprocess_sounds audio rest;
      Done (primary_sound :: rest)
  end.

(** ** Concrete data for the examples *)

Module Example.

Definition mk_sound (family : string) : sound :=
  {| instrument_family := family; note := EmptyString; duration := 0; rms := 0 |}.

(** Six sounds in three families. *)
Definition catalog : list sound :=
  [ mk_sound "flute"; mk_sound "violin"; mk_sound "flute";
    mk_sound "cello"; mk_sound "violin"; mk_sound "flute" ].

(** Two flutes and two violins. *)
Definition small_catalog : list sound :=
  [ mk_sound "flute"; mk_sound "flute"; mk_sound "violin"; mk_sound "violin" ].

Definition single_catalog : list sound := [ mk_sound "flute" ].

(** A linear congruential generator standing for the Mersenne Twister. *)
Definition lcg (n : Z) (g : Z) : Z * Z :=
  let g' := (g * 1103515245 + 12345) mod 2147483648 in
  ((g' / 65536) mod n, g').

Definition seed_lcg (seed : Z) : Z := seed mod 2147483648.

(** Two iteration orders for sets of strings. *)
Definition in_order (l : list string) : list string := l.
Definition backwards (l : list string) : list string := reverse l.

(** A generator that goes round the ids. *)
Definition counter (n : Z) (g : Z) : Z * Z := (g mod n, g + 1).

(** Floating-point arithmetic without rounding error. *)
Definition exact (x : Q) : Q := x.

(** Two records as [primary_sounds.json] has them, and their wav files. *)
Definition raw_definition : list (pydict json) :=
  [ [ ("instrument", JInt 417); ("instrument_family", JInt 2);
      ("instrument_family_str", JStr "flute"); ("instrument_str", JStr "flute_acoustic_002");
      ("note", JInt 201034); ("note_str", JStr "flute_acoustic_002-060-050");
      ("pitch", JInt 60); ("sample_rate", JInt 16000) ];
    [ ("note_str", JStr "cello_acoustic_000-048-100");
      ("instrument_family_str", JStr "cello"); ("pitch", JInt 48) ] ].

Definition wav_files (name : string) : option (Z * Z) :=
  if String.eqb name "flute_acoustic_002-060-050" then Some (4000, 1518)
  else if String.eqb name "cello_acoustic_000-048-100" then Some (3250, 2207)
  else None.

End Example.

Section Generator.

(** [self.definition], the catalog in file order. *)
Variable definition : list sound.

(** The iteration order of a Python [set] of strings is not fixed by
    the language (it varies with the hash seed): [set_iter] is the
    order in which the elements of a duplicate-free list come out. *)
Variable set_iter : list string -> list string.
Hypothesis set_iter_perm : forall l, set_iter l ≡ₚ l.

Definition nb_sounds : Z := Z.of_nat (length definition).

Definition families_count : pydict Z :=
  foldl count_family [] (instrument_family <$> definition).

Definition families : list string := dict_keys families_count.
Definition nb_families : Z := Z.of_nat (length families).

(** [self.definition[id]['instrument_family']] *)
Definition family_of (id : Z) : result string :=
  s ← py_index definition id; Ok (instrument_family s).

Fixpoint count_ids (id_list : list Z) (count : pydict Z) : result (pydict Z) :=
  match id_list with
  | [] => Ok count
  | id :: rest => family ← family_of id; count_ids rest (count_family count family)
  end.

Definition ids_to_families_count (id_list : list Z) : result (pydict Z * Z) :=
  count ← count_ids id_list [];
  let non_empty_families := dict_keys count in
  let non_empty_families_count := Z.of_nat (length non_empty_families) in
  let empty_families :=
    set_iter (list_difference (remove_dups families) (remove_dups non_empty_families)) in
  let count := foldl (fun c family => dict_set family 0 c) count empty_families in
  Ok (count, non_empty_families_count).

Definition get (index : Z) : result sound := py_index definition index.

(** ** Constraints and validation *)

(** [self.nb_objects_per_scene], [self.nb_tree_branch], [self.constraints] *)
Variable nb_objects_per_scene : Z.
Variable nb_tree_branch : Z.
Variable min_nb_families : Z.
Variable min_objects_per_family : Z.
Variable min_nb_families_subject_to_min_objects_per_family : Z.

(** The [for count in families_count.values()] loop of [validate_final],
    with its early [break]. *)
Fixpoint meet_requirements_loop (counts : list Z) (nb_families_meet_requirements : Z) : Z :=
  match counts with
  | [] => nb_families_meet_requirements
  | count :: rest =>
      let nb :=
        if min_objects_per_family <=? count
        then nb_families_meet_requirements + 1
        else nb_families_meet_requirements in
      if min_nb_families_subject_to_min_objects_per_family <=? nb
      then nb
      else meet_requirements_loop rest nb
  end.

Definition validate_final (state : list Z) : result bool :=
  '(families_count, nb_families) ← ids_to_families_count state;
  if nb_families <? min_nb_families then Ok false
  else
    let nb_families_meet_requirements :=
      meet_requirements_loop (dict_values families_count) 0 in
    if nb_families_meet_requirements <? min_nb_families_subject_to_min_objects_per_family
    then Ok false
    else Ok true.

(** [validate_intermediate] as the search calls it: the counters of
    [self.stats] that its rejecting paths update are set by
    [_generate_scenes_idx] before its loop, and are left out. *)
Definition validate_intermediate (state : list Z) (current_level : Z) : result bool :=
  let nb_level_to_go := nb_objects_per_scene - current_level - 1 in
  '(families_count, current_nb_families) ← ids_to_families_count state;
  if (current_nb_families <? min_nb_families)
     && (nb_level_to_go <? min_nb_families - current_nb_families)
  then Ok false
  else
    let valid :=
      filter (fun fc : string * Z => min_objects_per_family <= fc.2) families_count in
    let nb_valid_families := Z.of_nat (length valid) in
    let nb_missing_families :=
      min_nb_families_subject_to_min_objects_per_family - nb_valid_families in
    if nb_level_to_go <? nb_missing_families then Ok false
    else if nb_level_to_go <? nb_missing_families * min_objects_per_family then Ok false
    else Ok true.

(** ** The random number generator

    Python's [random] module is a deterministic generator with a hidden
    global state. The state is passed explicitly; [randbelow n g] is
    CPython's [_randbelow(n)]: a value below [n] and the next state. *)
Variable rng : Type.
Variable randbelow : Z -> rng -> Z * rng.
Hypothesis randbelow_range : forall n g, 0 < n -> 0 <= (randbelow n g).1 < n.

(** [random.randint(a, b)] is [a + _randbelow(b - a + 1)]; an empty
    range raises [ValueError]. *)
Definition randint (a b : Z) (g : rng) : result (Z * rng) :=
  if b <? a then Raise ValueError
  else let '(k, g') := randbelow (b - a + 1) g in Ok (a + k, g').

(** [random.shuffle(x)]:
    [for i in reversed(range(1, len(x))): j = randbelow(i + 1); x[i], x[j] = x[j], x[i]] *)
Definition swap {A} (x : list A) (i j : nat) : list A :=
  match x !! i, x !! j with
  | Some xi, Some xj => <[j := xi]> (<[i := xj]> x)
  | _, _ => x
  end.

Fixpoint shuffle_loop {A} (i : nat) (x : list A) (g : rng) : list A * rng :=
  match i with
  | O => (x, g)
  | S i' =>
      let '(j, g') := randbelow (Z.of_nat i + 1) g in
      shuffle_loop i' (swap x i (Z.to_nat j)) g'
  end.

Definition shuffle {A} (x : list A) (g : rng) : list A * rng :=
  shuffle_loop (length x - 1)%nat x g.

(** ** Drawing the next sound *)

(** The [while self.gen_index in state_and_siblings] loop. [fuel]
    bounds the number of times its body runs. *)
Fixpoint next_id_loop (fuel : nat) (state_and_siblings : list Z)
    (gen_index : Z) (g : rng) : result (Z * rng) :=
  if bool_decide (gen_index ∈ state_and_siblings) then
    match fuel with
    | O => Timeout
    | S fuel' =>
        '(gen_index, g) ← randint 0 (nb_sounds - 1) g;
        next_id_loop fuel' state_and_siblings gen_index g
    end
  else Ok (gen_index, g).

(** [list(set(state + siblings))] is only tested for membership, so the
    order of the set does not matter. *)
Definition next_id (fuel : nat) (state siblings : list Z) (g : rng) : result (Z * rng) :=
  '(gen_index, g) ← randint 0 (nb_sounds - 1) g;
  let state_and_siblings := remove_dups (state ++ siblings) in
  next_id_loop fuel state_and_siblings gen_index g.

(** ** The generation tree *)

(** A reference to a [Node]: its index in the heap. *)
Abbreviation handle := nat (only parsing).

Record Node : Type := {
  childs : list handle;
  level : Z;
  sound_id : Z;
  overlapping_last : bool;
  parent : option handle
}.

(** The store of the [Node] objects allocated so far. *)
Abbreviation heap := (list Node) (only parsing).

Definition deref (hp : heap) (h : handle) : result Node :=
  match hp !! h with
  | Some n => Ok n
  | None => Raise NoSuchObject
  end.

Definition with_childs (n : Node) (cs : list handle) : Node :=
  {| childs := cs; level := level n; sound_id := sound_id n;
     overlapping_last := overlapping_last n; parent := parent n |}.

(** [Node.add_child]: allocate the child, append it to [self.childs]. *)
Definition add_child (hp : heap) (self : handle) (new_sound_id : Z) : result (heap * handle) :=
  n ← deref hp self;
  let new_child := length hp in
  let hp := hp ++ [ {| childs := []; level := level n + 1; sound_id := new_sound_id;
                       overlapping_last := false; parent := Some self |} ] in
  Ok (<[self := with_childs n (childs n ++ [new_child])]> hp, new_child).

(** [[c.sound_id for c in node.childs]] *)
Fixpoint childs_sound_ids (hp : heap) (cs : list handle) : result (list Z) :=
  match cs with
  | [] => Ok []
  | c :: cs' => n ← deref hp c; ids ← childs_sound_ids hp cs'; Ok (sound_id n :: ids)
  end.

(** ** The search *)

(** The local variables of [_generate_scenes_idx] that live across
    iterations of its [while continue_work] loop, the heap of nodes and
    the generator. *)
Record machine : Type := {
  nodes : heap;
  next_node : option handle;
  state : list Z;
  generated_scenes : list (list Z);
  start_index : Z;
  gen : rng;
  continue_work : bool
}.

(** [nb_to_generate and scene_index >= nb_to_generate]: [None] and [0]
    are both falsy. *)
Definition limit_reached (nb_to_generate : option Z) (scene_index : Z) : bool :=
  match nb_to_generate with
  | None => false
  | Some n => negb (n =? 0) && (n <=? scene_index)
  end.

(** [if len(state) > 0: state.pop()] *)
Definition pop_if_nonempty (st : list Z) : result (list Z) :=
  if (0 <? length st)%nat then py_pop st else Ok st.

(** The [while len(next_node.childs) >= self.nb_tree_branch] loop that
    climbs back after a leaf; it returns [next_node], [state] and
    [continue_work]. *)
Fixpoint go_up (fuel : nat) (hp : heap) (next_node : option handle) (st : list Z)
    : result (option handle * list Z * bool) :=
  match next_node with
  | None => Raise AttributeError
  | Some h =>
      n ← deref hp h;
      if nb_tree_branch <=? Z.of_nat (length (childs n)) then
        match fuel with
        | O => Timeout
        | S fuel' =>
            match parent n with
            | None => Ok (None, st, false)
            | Some p => st ← py_pop st; go_up fuel' hp (Some p) st
            end
        end
      else Ok (Some h, st, true)
  end.

Variable nb_to_generate : option Z.

(** One iteration of [while continue_work]. *)
Definition loop_body (fuel : nat) (m : machine) : result machine :=
  match next_node m with
  | None => Raise AttributeError
  | Some current_node =>
      cur ← deref (nodes m) current_node;
      if level cur <? nb_objects_per_scene - 1 then
        if Z.of_nat (length (childs cur)) <? nb_tree_branch then
          siblings ← childs_sound_ids (nodes m) (childs cur);
          '(new_sound_id, g) ← next_id fuel (state m) siblings (gen m);
          let st := state m ++ [new_sound_id] in
          '(hp, child) ← add_child (nodes m) current_node new_sound_id;
          c ← deref hp child;
          ok ← validate_intermediate st (level c);
          if ok : bool then
            Ok {| nodes := hp; next_node := Some child; state := st;
                  generated_scenes := generated_scenes m; start_index := start_index m;
                  gen := g; continue_work := true |}
          else
            st ← pop_if_nonempty st;
            Ok {| nodes := hp; next_node := Some current_node; state := st;
                  generated_scenes := generated_scenes m; start_index := start_index m;
                  gen := g; continue_work := true |}
        else
          match parent cur with
          | None =>
              Ok {| nodes := nodes m; next_node := None; state := state m;
                    generated_scenes := generated_scenes m; start_index := start_index m;
                    gen := gen m; continue_work := false |}
          | Some p =>
              st ← pop_if_nonempty (state m);
              Ok {| nodes := nodes m; next_node := Some p; state := st;
                    generated_scenes := generated_scenes m; start_index := start_index m;
                    gen := gen m; continue_work := true |}
          end
      else
        valid ← validate_final (state m);
        if (valid : bool) && limit_reached nb_to_generate (start_index m) then
          Ok {| nodes := nodes m; next_node := next_node m; state := state m;
                generated_scenes := generated_scenes m; start_index := start_index m;
                gen := gen m; continue_work := false |}
        else
          let idx := if valid then start_index m + 1 else start_index m in
          let scenes :=
            if valid then generated_scenes m ++ [state m] else generated_scenes m in
          st ← py_pop (state m);
          '(nn, st, cw) ← go_up fuel (nodes m) (parent cur) st;
          Ok {| nodes := nodes m; next_node := nn; state := st;
                generated_scenes := scenes; start_index := idx;
                gen := gen m; continue_work := cw |}
  end.

Fixpoint while_continue_work (iterations fuel : nat) (m : machine) : result machine :=
  if continue_work m then
    match iterations with
    | O => Timeout
    | S iterations' => m' ← loop_body fuel m; while_continue_work iterations' fuel m'
    end
  else Ok m.

(** The machine on entry of the loop: [root_node = Node(None, -1, -1)]
    (the function is only ever called with [root_node=None]). *)
Definition root_node : Node :=
  {| childs := []; level := -1; sound_id := -1; overlapping_last := false; parent := None |}.

Definition init_machine (start_index : Z) (g : rng) : machine :=
  {| nodes := [root_node]; next_node := Some 0%nat; state := [];
     generated_scenes := []; start_index := start_index; gen := g;
     continue_work := true |}.

(** [fuel] bounds every loop of the run: the iterations of
    [while continue_work] and of each loop inside one iteration. *)
Definition run_search (fuel : nat) (start_index : Z) (g : rng) : result machine :=
  while_continue_work fuel fuel (init_machine start_index g).

Definition _generate_scenes_idx (fuel : nat) (start_index : Z) (g : rng)
    : result (list (list Z) * rng) :=
  m ← run_search fuel start_index g; Ok (generated_scenes m, gen m).

(** ** The splits *)

(** Floats are binary64 numbers, given by their rational value; [fl] is
    rounding to the nearest float, applied after every operation. The
    hypotheses are the standard model of floating-point arithmetic inside
    the range of the numbers at hand: rounding is monotone, exact on the
    integers up to [2^53], and off by at most a relative [float_eps] plus
    an absolute [float_eta]. Overflow to infinity is not part of the
    model: what is stated of the split takes a ratio between 0 and 1,
    where no product of [generate] leaves the range of the floats. *)
Variable fl : Q -> Q.
Hypothesis fl_mono : forall x y : Q, (x <= y)%Q -> (fl x <= fl y)%Q.
Hypothesis fl_int : forall z : Z, Z.abs z <= 2 ^ 53 -> (fl (inject_Z z) == inject_Z z)%Q.
Hypothesis fl_err : forall x : Q, (0 <= x)%Q -> (x <= inject_Z (2 ^ 60))%Q ->
  (fl x <= x * (1 + float_eps) + float_eta)%Q.
Hypothesis fl_err_lo : forall x : Q, (0 <= x)%Q -> (x <= inject_Z (2 ^ 60))%Q ->
  (x * (1 - float_eps) - float_eta <= fl x)%Q.

Definition float_of_int (n : Z) : Q := fl (inject_Z n).
Definition float_mul (x y : Q) : Q := fl (x * y).
Definition float_sub (x y : Q) : Q := fl (x - y).
Definition float_div (x y : Q) : Q := fl (x / y).

Inductive split_name : Type := train | val | test.

(** A scene of the output; the [relationships] table and the
    [image_filename] are functions of the scene length and of
    [split] and [image_index], and are left out. *)
Record scene : Type := {
  objects : list sound;
  split : split_name;
  image_index : Z
}.

Record scene_sets : Type := {
  training_scenes : list scene;
  valid_scenes : list scene;
  test_scenes : list scene
}.

(** [[self.primary_sounds.get(sound_idx) for sound_idx in sounds_idx]] *)
Fixpoint scene_composition (sounds_idx : list Z) : result (list sound) :=
  match sounds_idx with
  | [] => Ok []
  | sound_idx :: rest =>
      s ← get sound_idx; l ← scene_composition rest; Ok (s :: l)
  end.

(** The [for sounds_idx in scenes_sounds_idx] loop of [generate]. *)
Fixpoint label_scenes (scenes_sounds_idx : list (list Z)) (nb_training nb_valid : Z)
    (scene_count training_index valid_index test_index : Z) (out : scene_sets)
    : result scene_sets :=
  match scenes_sounds_idx with
  | [] => Ok out
  | sounds_idx :: rest =>
      composition ← scene_composition sounds_idx;
      if scene_count <? nb_training then
        label_scenes rest nb_training nb_valid
          (scene_count + 1) (training_index + 1) valid_index test_index
          {| training_scenes := training_scenes out ++
               [ {| objects := composition; split := train; image_index := training_index |} ];
             valid_scenes := valid_scenes out;
             test_scenes := test_scenes out |}
      else if scene_count <? nb_training + nb_valid then
        label_scenes rest nb_training nb_valid
          (scene_count + 1) training_index (valid_index + 1) test_index
          {| training_scenes := training_scenes out;
             valid_scenes := valid_scenes out ++
               [ {| objects := composition; split := val; image_index := valid_index |} ];
             test_scenes := test_scenes out |}
      else
        label_scenes rest nb_training nb_valid
          (scene_count + 1) training_index valid_index (test_index + 1)
          {| training_scenes := training_scenes out;
             valid_scenes := valid_scenes out;
             test_scenes := test_scenes out ++
               [ {| objects := composition; split := test; image_index := test_index |} ] |}
  end.

Definition nb_training_of (nb_scene : Z) (training_set_ratio : Q) : Z :=
  py_round (float_mul (float_of_int nb_scene) training_set_ratio).

Definition nb_valid_of (nb_scene : Z) (training_set_ratio : Q) : Z :=
  let valid_and_test_ratio := float_div (float_sub 1 training_set_ratio) 2 in
  py_round (float_mul (float_of_int nb_scene) valid_and_test_ratio).

(** The body of [generate] from [nb_scene = len(scenes_sounds_idx)] on. *)
Definition split_scenes (scenes_sounds_idx : list (list Z)) (training_set_ratio : Q)
    : result scene_sets :=
  let nb_scene := Z.of_nat (length scenes_sounds_idx) in
  let nb_training := nb_training_of nb_scene training_set_ratio in
  let nb_valid := nb_valid_of nb_scene training_set_ratio in
  label_scenes scenes_sounds_idx nb_training nb_valid 0 0 0 0
    {| training_scenes := []; valid_scenes := []; test_scenes := [] |}.

Definition generate (fuel : nat) (start_index : Z) (training_set_ratio : Q)
    (shuffle_scenes : bool) (g : rng) : result (scene_sets * rng) :=
  '(scenes_sounds_idx, g) ← _generate_scenes_idx fuel start_index g;
  let '(scenes_sounds_idx, g) :=
    if shuffle_scenes then shuffle scenes_sounds_idx g else (scenes_sounds_idx, g) in
  sets ← split_scenes scenes_sounds_idx training_set_ratio;
  Ok (sets, g).

(** [__main__]: [random.seed] when a seed is given, else the generator
    stays as the interpreter initialised it ([g0]); then [generate] with
    its default [start_index] and [shuffle_scenes]. Writing the three
    files is left out. *)
Variable seed_rng : Z -> rng.

Definition main (fuel : nat) (random_nb_generator_seed : option Z) (g0 : rng)
    (training_set_ratio : Q) : result (scene_sets * rng) :=
  let g :=
    match random_nb_generator_seed with
    | Some s => seed_rng s
    | None => g0
    end in
  generate fuel 0 training_set_ratio true g.

(** ** The relationships of a scene *)

(** The value of [_generate_relationships]: for each position of the
    scene, the positions before it and those after it. *)
Record relationships : Type := {
  before : list (list Z);
  after : list (list Z)
}.

(** The [for i in range(0, self.nb_objects_per_scene)] loop. *)
Fixpoint relationships_loop (range : list Z) (before after : list (list Z))
    (scene_indexes : list Z) : result relationships :=
  match range with
  | [] => Ok {| before := before; after := after |}
  | i :: range' =>
      before ←
        (if 0 <=? i - 1
         then prev ← py_index before (i - 1); Ok (before ++ [prev ++ [i - 1]])
         else Ok before);
      scene_indexes ← py_remove i scene_indexes;
      relationships_loop range' before (after ++ [scene_indexes]) scene_indexes
  end.

(** The argument is not read: the positions are those of a scene of
    [self.nb_objects_per_scene] sounds. *)
Definition _generate_relationships (scene_composition : list sound)
    : result relationships :=
  relationships_loop (seqZ 0 nb_objects_per_scene) [[]] []
    (seqZ 0 nb_objects_per_scene).

(** ** The properties in the words of the specification *)

Definition in_catalog (id : Z) : Prop := 0 <= id < nb_sounds.

(** Rounding to the nearest integer, to the even one of the two when
    [x] lies half-way between them. *)
Definition round_half_even (x : Q) (n : Z) : Prop :=
  (x - (1 # 2) <= inject_Z n <= x + (1 # 2))%Q ∧
  ((inject_Z n == x - (1 # 2))%Q ∨ (inject_Z n == x + (1 # 2))%Q → Z.even n = true).

(** The family of a catalog id. *)
Definition family_at (id : Z) : string :=
  default EmptyString (instrument_family <$> definition !! Z.to_nat id).

Definition state_families (st : list Z) : list string := family_at <$> st.

(** How many times a family occurs in a list of families. *)
Definition tally (k : string) (fams : list string) : Z :=
  Z.of_nat (length (filter (fun f => k = f) fams)).

(** The histogram of a state before the empty families are added. *)
Definition histogram (st : list Z) : pydict Z :=
  foldl count_family [] (state_families st).

(** How many sounds of the state belong to the family. *)
Definition occurrences (family : string) (st : list Z) : Z :=
  tally family (state_families st).

(** How many distinct families occur in the state. *)
Definition nb_distinct_families (st : list Z) : Z :=
  Z.of_nat (length (remove_dups (state_families st))).

(** The families of the catalog, each once. *)
Definition catalog_families : list string :=
  remove_dups (instrument_family <$> definition).

(** How many families of the catalog have at least
    [min_objects_per_family] sounds in the state. *)
Definition nb_families_meeting_quota (st : list Z) : Z :=
  Z.of_nat (length (filter (fun f => min_objects_per_family <= occurrences f st)
                           catalog_families)).

(** The [k]-th draw of [random.randint(0, self.nb_sounds - 1)] from the
    generator state [g] (counting from 0), with the state it leaves. *)
Fixpoint nth_draw (k : nat) (g : rng) : Z * rng :=
  match k with
  | O => randbelow nb_sounds g
  | S k' => nth_draw k' (randbelow nb_sounds g).2
  end.

(** The machines the loop of [_generate_scenes_idx] goes through. *)
Inductive reachable (m0 : machine) : machine -> Prop :=
  | reachable_init : reachable m0 m0
  | reachable_step (fuel : nat) (m m' : machine) :
      reachable m0 m -> continue_work m = true -> loop_body fuel m = Ok m' ->
      reachable m0 m'.

(** The machine after [k] iterations of the loop (or when the loop has
    exited, if it takes fewer). *)
Fixpoint loop_iterations (k fuel : nat) (m : machine) : result machine :=
  match k with
  | O => Ok m
  | S k' =>
      if continue_work m then m' ← loop_body fuel m; loop_iterations k' fuel m'
      else Ok m
  end.

(** The search is over because the root has no child slot left. *)
Definition halted_at_root (m : machine) : Prop :=
  next_node m = None ∧
  ∃ root : Node, nodes m !! 0%nat = Some root ∧ parent root = None ∧
    nb_tree_branch <= Z.of_nat (length (childs root)).

(** The search is over because it stands on a leaf that passes final
    validation while the limit is reached; that leaf is not emitted. *)
Definition halted_at_limit (m : machine) : Prop :=
  ∃ (limit : Z) (leaf : handle) (n : Node),
    nb_to_generate = Some limit ∧ limit ≠ 0 ∧ limit <= start_index m ∧
    next_node m = Some leaf ∧ nodes m !! leaf = Some n ∧
    nb_objects_per_scene - 1 <= level n ∧
    validate_final (state m) = Ok true.

(** The current node is above the leaves and has a child slot left: the
    next iteration draws a sound and adds a child. *)
Definition descends_next (m : machine) : Prop :=
  ∃ (c : handle) (n : Node), next_node m = Some c ∧ nodes m !! c = Some n ∧
    level n < nb_objects_per_scene - 1 ∧
    Z.of_nat (length (childs n)) < nb_tree_branch.

(** [continue_work = False; break] with nothing else changed. *)
Definition stop_work (m : machine) : machine :=
  {| nodes := nodes m; next_node := next_node m; state := state m;
     generated_scenes := generated_scenes m; start_index := start_index m;
     gen := gen m; continue_work := false |}.


(** ** Invariants of the search *)

(** The tree: levels follow the parent links, the root is node 0 and
    the only node without parent, and no node lies below the leaves. *)
Record tree_inv (hp : heap) : Prop := {
  tree_parent : ∀ (h : handle) (n : Node) (p : handle),
    hp !! h = Some n → parent n = Some p →
    ∃ pn : Node, hp !! p = Some pn ∧ level n = level pn + 1;
  tree_root : ∀ (h : handle) (n : Node),
    hp !! h = Some n → parent n = None → h = 0%nat ∧ level n = -1;
  tree_level_lo : ∀ (h : handle) (n : Node), hp !! h = Some n → -1 <= level n;
  tree_level_hi : ∀ (h : handle) (n : Node),
    hp !! h = Some n → level n <= Z.max (nb_objects_per_scene - 1) (-1)
}.

Definition scene_ok (s : list Z) : Prop :=
  Z.of_nat (length s) = nb_objects_per_scene ∧ NoDup s.

(** The machine at the head of the loop, for a search started with
    [start_index = start]. *)
Record search_inv (start : Z) (m : machine) : Prop := {
  inv_tree : tree_inv (nodes m);
  inv_current : continue_work m = true →
    ∃ (c : handle) (n : Node), next_node m = Some c ∧ nodes m !! c = Some n ∧
      level n = Z.of_nat (length (state m)) - 1;
  inv_state_NoDup : NoDup (state m);
  inv_state_catalog : Forall in_catalog (state m);
  inv_scenes : Forall scene_ok (generated_scenes m);
  inv_start_index : start_index m = start + Z.of_nat (length (generated_scenes m));
  inv_limit : ∀ limit : Z, nb_to_generate = Some limit → limit ≠ 0 →
    Z.of_nat (length (generated_scenes m)) <= Z.max 0 (limit - start)
}.


(** One iteration of the loop as a relation, a rule for each path
    through the body of [while continue_work]. *)
Inductive step (m : machine) : machine -> Prop :=
  | step_descend (c : handle) (cur : Node) (siblings : list Z) (fuel : nat)
      (id : Z) (g' : rng) (hp' : heap) (child : handle) :
      next_node m = Some c -> nodes m !! c = Some cur ->
      level cur < nb_objects_per_scene - 1 ->
      Z.of_nat (length (childs cur)) < nb_tree_branch ->
      childs_sound_ids (nodes m) (childs cur) = Ok siblings ->
      next_id fuel (state m) siblings (gen m) = Ok (id, g') ->
      add_child (nodes m) c id = Ok (hp', child) ->
      validate_intermediate (state m ++ [id]) (level cur + 1) = Ok true ->
      step m {| nodes := hp'; next_node := Some child; state := state m ++ [id];
                generated_scenes := generated_scenes m; start_index := start_index m;
                gen := g'; continue_work := true |}
  | step_reject (c : handle) (cur : Node) (siblings : list Z) (fuel : nat)
      (id : Z) (g' : rng) (hp' : heap) (child : handle) :
      next_node m = Some c -> nodes m !! c = Some cur ->
      level cur < nb_objects_per_scene - 1 ->
      Z.of_nat (length (childs cur)) < nb_tree_branch ->
      childs_sound_ids (nodes m) (childs cur) = Ok siblings ->
      next_id fuel (state m) siblings (gen m) = Ok (id, g') ->
      add_child (nodes m) c id = Ok (hp', child) ->
      validate_intermediate (state m ++ [id]) (level cur + 1) = Ok false ->
      step m {| nodes := hp'; next_node := Some c; state := state m;
                generated_scenes := generated_scenes m; start_index := start_index m;
                gen := g'; continue_work := true |}
  | step_root_exhausted (c : handle) (cur : Node) :
      next_node m = Some c -> nodes m !! c = Some cur ->
      level cur < nb_objects_per_scene - 1 ->
      nb_tree_branch <= Z.of_nat (length (childs cur)) ->
      parent cur = None ->
      step m {| nodes := nodes m; next_node := None; state := state m;
                generated_scenes := generated_scenes m; start_index := start_index m;
                gen := gen m; continue_work := false |}
  | step_parent (c : handle) (cur : Node) (p : handle) (st : list Z) (x : Z) :
      next_node m = Some c -> nodes m !! c = Some cur ->
      level cur < nb_objects_per_scene - 1 ->
      nb_tree_branch <= Z.of_nat (length (childs cur)) ->
      parent cur = Some p -> state m = st ++ [x] ->
      step m {| nodes := nodes m; next_node := Some p; state := st;
                generated_scenes := generated_scenes m; start_index := start_index m;
                gen := gen m; continue_work := true |}
  | step_limit (c : handle) (cur : Node) :
      next_node m = Some c -> nodes m !! c = Some cur ->
      nb_objects_per_scene - 1 <= level cur ->
      validate_final (state m) = Ok true ->
      limit_reached nb_to_generate (start_index m) = true ->
      step m {| nodes := nodes m; next_node := next_node m; state := state m;
                generated_scenes := generated_scenes m; start_index := start_index m;
                gen := gen m; continue_work := false |}
  | step_leaf (c : handle) (cur : Node) (valid : bool) (st : list Z) (x : Z)
      (fuel : nat) (nn : option handle) (st' : list Z) (cw : bool) :
      next_node m = Some c -> nodes m !! c = Some cur ->
      nb_objects_per_scene - 1 <= level cur ->
      validate_final (state m) = Ok valid ->
      valid && limit_reached nb_to_generate (start_index m) = false ->
      state m = st ++ [x] ->
      go_up fuel (nodes m) (parent cur) st = Ok (nn, st', cw) ->
      step m {| nodes := nodes m; next_node := nn; state := st';
                generated_scenes :=
                  if valid then generated_scenes m ++ [state m] else generated_scenes m;
                start_index := if valid then start_index m + 1 else start_index m;
                gen := gen m; continue_work := cw |}.


(** ** A measure for the search *)

(** The number of nodes of a full tree of [d + 1] levels. *)
Fixpoint full_tree (d : nat) : Z :=
  match d with
  | O => 1
  | S d' => 1 + nb_tree_branch * full_tree d'
  end.

(** What a free child slot of a node at level [lvl] may still grow into:
    a full tree down to the leaves, nothing below them. *)
Definition slot_weight (lvl : Z) : Z :=
  if lvl <? nb_objects_per_scene - 1
  then full_tree (Z.to_nat (nb_objects_per_scene - 2 - lvl))
  else 0.

Definition node_capacity (n : Node) : Z :=
  (nb_tree_branch - Z.of_nat (length (childs n))) * slot_weight (level n).

(** The number of nodes that the tree may still get. *)
Definition free_capacity (hp : heap) : Z := foldr Z.add 0 (node_capacity <$> hp).

Definition search_measure (m : machine) : Z :=
  2 * free_capacity (nodes m) + Z.of_nat (length (state m)).

(** Every draw returns within [fuel] draws, as long as the state and the
    siblings leave a sound of the catalog free. *)
Definition draws_return (fuel : nat) : Prop :=
  ∀ (st siblings : list Z) (g : rng),
    Z.of_nat (length st) + Z.of_nat (length siblings) < nb_sounds →
    ∃ r, next_id fuel st siblings g = Ok r.

(** The children of a node are nodes of the heap, at most
    [nb_tree_branch] of them. *)
Record heap_inv (hp : heap) : Prop := {
  heap_childs_valid : ∀ (h : handle) (n : Node),
    hp !! h = Some n → Forall (fun c => (c < length hp)%nat) (childs n);
  heap_childs_width :
    Forall (fun n => Z.of_nat (length (childs n)) <= nb_tree_branch) hp
}.


(** ** Paths and leaves of the tree *)

(** [Node.get_childs_ids] *)
Fixpoint get_childs_ids_loop (hp : heap) (cs : list handle) (ids : list Z)
    : result (list Z) :=
  match cs with
  | [] => Ok ids
  | child :: cs' => n ← deref hp child; get_childs_ids_loop hp cs' (ids ++ [sound_id n])
  end.

Definition get_childs_ids (hp : heap) (self : handle) : result (list Z) :=
  n ← deref hp self; get_childs_ids_loop hp (childs n) [].

(** The sound ids met on the way from the root down to a node. *)
Inductive at_path (hp : heap) : list Z -> handle -> Prop :=
  | at_path_root (root : Node) :
      hp !! 0%nat = Some root -> parent root = None -> at_path hp [] 0%nat
  | at_path_child (p : list Z) (a c : handle) (n : Node) :
      at_path hp p a -> hp !! c = Some n -> parent n = Some a ->
      at_path hp (p ++ [sound_id n]) c.

(** The [childs] lists and the [parent] links tell the same tree, and
    two children of a node never carry the same sound. *)
Record path_inv (hp : heap) : Prop := {
  path_child_of : ∀ (h : handle) (n : Node) (a : handle),
    hp !! h = Some n → parent n = Some a →
    ∃ an : Node, hp !! a = Some an ∧ h ∈ childs an;
  path_childs_parent : ∀ (a : handle) (an : Node) (c : handle),
    hp !! a = Some an → c ∈ childs an →
    ∃ cn : Node, hp !! c = Some cn ∧ parent cn = Some a;
  path_childs_NoDup : ∀ (a : handle) (an : Node), hp !! a = Some an → NoDup (childs an);
  path_siblings : ∀ (a c1 c2 : handle) (n1 n2 : Node),
    hp !! c1 = Some n1 → hp !! c2 = Some n2 →
    parent n1 = Some a → parent n2 = Some a → sound_id n1 = sound_id n2 → c1 = c2
}.

(** The state is the path of the current node. *)
Definition cur_path (m : machine) : Prop :=
  continue_work m = true →
  ∃ c : handle, next_node m = Some c ∧ at_path (nodes m) (state m) c.

(** The scenes emitted so far are the paths of the leaves [leaves], each
    visited once; the current node is not one of them. *)
Record emitted_inv (m : machine) (leaves : list handle) : Prop := {
  emitted_paths : Forall2 (at_path (nodes m)) (generated_scenes m) leaves;
  emitted_NoDup : NoDup leaves;
  emitted_levels : Forall (fun l => ∃ n : Node, nodes m !! l = Some n ∧
                                      nb_objects_per_scene - 1 <= level n) leaves;
  emitted_current : ∀ c : handle,
    continue_work m = true → next_node m = Some c → c ∉ leaves
}.

(** The node is the current node or one of its ancestors. *)
Definition on_path (m : machine) (h : handle) : Prop :=
  next_node m ≠ None ∧
  ∃ p : list Z, p `prefix_of` state m ∧ at_path (nodes m) p h.

(** The nodes that the search has left for good have all their
    children; the leaves have none. *)
Record explored_inv (m : machine) : Prop := {
  explored_full : ∀ (h : handle) (n : Node),
    nodes m !! h = Some n → childs n ≠ [] →
    nb_tree_branch <= Z.of_nat (length (childs n)) ∨ on_path m h;
  explored_leaves : ∀ (h : handle) (n : Node),
    nodes m !! h = Some n → nb_objects_per_scene - 1 <= level n → childs n = []
}.

(** The number of nodes at the level of the leaves. *)
Definition leaf_count (n : Node) : Z :=
  if nb_objects_per_scene - 1 <=? level n then 1 else 0.

Definition nb_leaves (hp : heap) : Z := foldr Z.add 0 (leaf_count <$> hp).

(** The number of leaves a free child slot of a node at level [lvl] may
    still grow into. *)
Definition leaf_slot_weight (lvl : Z) : Z :=
  if lvl <? nb_objects_per_scene - 1
  then nb_tree_branch ^ (nb_objects_per_scene - 2 - lvl)
  else 0.

Definition leaf_capacity (hp : heap) : Z :=
  foldr Z.add 0
    ((fun n => (nb_tree_branch - Z.of_nat (length (childs n))) * leaf_slot_weight (level n))
       <$> hp).

(** The current node is a leaf that the loop has still to handle. *)
Definition on_leaf (m : machine) : bool :=
  continue_work m &&
  match next_node m with
  | Some c =>
      match nodes m !! c with
      | Some n => nb_objects_per_scene - 1 <=? level n
      | None => false
      end
  | None => false
  end.

(** * Proofs *)

#[local] Set Default Proof Using "Type".

(** ** Dictionaries *)

Lemma dict_get_set_eq {V} (k : string) (v : V) (d : pydict V) :
  dict_get k (dict_set k v d) = Some v.
Proof.
  induction d as [|[k' v'] d IH]; simpl.
  - by rewrite String.eqb_refl.
  - destruct (String.eqb k' k) eqn:E; simpl; rewrite E; done.
Qed.

Lemma dict_get_set_ne {V} (k k' : string) (v : V) (d : pydict V) :
  k ≠ k' → dict_get k' (dict_set k v d) = dict_get k' d.
Proof.
  intros Hne. induction d as [|[k0 v0] d IH]; simpl.
  - destruct (String.eqb k k') eqn:E; [|done].
    apply String.eqb_eq in E. done.
  - destruct (String.eqb k0 k) eqn:E; simpl.
    + apply String.eqb_eq in E. subst k0.
      destruct (String.eqb k k') eqn:E'; [|done].
      apply String.eqb_eq in E'. done.
    + by rewrite IH.
Qed.

Lemma dict_get_None {V} (k : string) (d : pydict V) :
  dict_get k d = None ↔ k ∉ dict_keys d.
Proof.
  unfold dict_keys. induction d as [|[k' v'] d IH]; csimpl.
  - split; [intros _; apply not_elem_of_nil | done].
  - rewrite not_elem_of_cons. destruct (String.eqb k' k) eqn:E.
    + apply String.eqb_eq in E. subst. split; [done | intros [? _]; done].
    + apply String.eqb_neq in E. rewrite IH. split; [intros ?; split; [congruence | done] | by intros [_ ?]].
Qed.

Lemma dict_get_elem_of {V} (k : string) (v : V) (d : pydict V) :
  NoDup (dict_keys d) → (k, v) ∈ d ↔ dict_get k d = Some v.
Proof.
  unfold dict_keys. induction d as [|[k' v'] d IH]; csimpl; intros Hnd.
  - split; [intros H; by apply elem_of_nil in H | done].
  - apply NoDup_cons in Hnd as [Hk Hnd]. rewrite elem_of_cons, (IH Hnd).
    destruct (String.eqb k' k) eqn:E.
    + apply String.eqb_eq in E. subst k'. split.
      * intros [[= ->] | Hg]; [done|].
        exfalso. apply Hk. apply dec_stable. intros Hn.
        apply (dict_get_None k d) in Hn. congruence.
      * intros [= ->]. by left.
    + apply String.eqb_neq in E. split; [intros [[= ? ?] | ?]; congruence | by right].
Qed.

Lemma dict_keys_set {V} (k : string) (v : V) (d : pydict V) :
  dict_keys (dict_set k v d) =
  if bool_decide (k ∈ dict_keys d) then dict_keys d else dict_keys d ++ [k].
Proof.
  unfold dict_keys. induction d as [|[k' v'] d IH]; csimpl.
  - done.
  - destruct (String.eqb k' k) eqn:E; csimpl.
    + apply String.eqb_eq in E. subst.
      rewrite bool_decide_eq_true_2; [done | by left].
    + apply String.eqb_neq in E. rewrite IH.
      destruct (bool_decide (k ∈ d.*1)) eqn:B.
      * apply bool_decide_eq_true in B.
        rewrite bool_decide_eq_true_2; [done | by right].
      * apply bool_decide_eq_false in B.
        rewrite bool_decide_eq_false_2; [done|].
        rewrite not_elem_of_cons. split; congruence.
Qed.

Lemma dict_set_NoDup {V} (k : string) (v : V) (d : pydict V) :
  NoDup (dict_keys d) → NoDup (dict_keys (dict_set k v d)).
Proof.
  intros Hnd. rewrite dict_keys_set. case_bool_decide; [done|].
  apply NoDup_app. split_and!; [done | | apply NoDup_singleton].
  intros x Hx Hx'. apply list_elem_of_singleton in Hx'. by subst.
Qed.


Lemma dict_set_fresh {V} (k : string) (v : V) (d : pydict V) :
  k ∉ dict_keys d → dict_set k v d = d ++ [(k, v)].
Proof.
  unfold dict_keys. induction d as [|[k' v'] d IH]; csimpl; [done|].
  rewrite not_elem_of_cons. intros [Hne Hk].
  destruct (String.eqb k' k) eqn:E.
  - apply String.eqb_eq in E. congruence.
  - by rewrite IH.
Qed.

Lemma foldl_dict_set_fresh (empty : list string) (count : pydict Z) :
  NoDup empty → (∀ k, k ∈ empty → k ∉ dict_keys count) →
  foldl (fun c family => dict_set family 0 c) count empty =
  count ++ ((fun f => (f, 0)) <$> empty).
Proof.
  intros Hnd. revert count. induction Hnd as [|f empty Hf Hnd IH]; intros count Hfresh.
  - simpl. by rewrite app_nil_r.
  - simpl. rewrite dict_set_fresh by (apply Hfresh; by left).
    rewrite IH.
    + by rewrite <- app_assoc.
    + intros k Hk. unfold dict_keys. rewrite fmap_app, elem_of_app. simpl.
      intros [Hc | ->%list_elem_of_singleton]; [|done].
      apply (Hfresh k); [by right | done].
Qed.


(** ** The family histogram *)

Lemma count_family_get (count : pydict Z) (family k : string) :
  dict_get k (count_family count family) =
  if bool_decide (k = family) then Some (default 0 (dict_get k count) + 1)
  else dict_get k count.
Proof.
  unfold count_family. case_bool_decide as Hk.
  - subst k. destruct (dict_get family count) eqn:E; simpl; apply dict_get_set_eq.
  - destruct (dict_get family count); by rewrite dict_get_set_ne.
Qed.

Lemma count_family_NoDup (count : pydict Z) (family : string) :
  NoDup (dict_keys count) → NoDup (dict_keys (count_family count family)).
Proof. unfold count_family. destruct (dict_get family count); apply dict_set_NoDup. Qed.

Lemma tally_cons (k f : string) (fams : list string) :
  tally k (f :: fams) = (if bool_decide (k = f) then 1 else 0) + tally k fams.
Proof.
  unfold tally. rewrite filter_cons. case_decide.
  - rewrite bool_decide_eq_true_2 by done. simpl. lia.
  - rewrite bool_decide_eq_false_2 by done. lia.
Qed.

Lemma tally_nonneg (k : string) (fams : list string) : 0 <= tally k fams.
Proof. unfold tally. lia. Qed.

Lemma tally_pos (k : string) (fams : list string) : 0 < tally k fams ↔ k ∈ fams.
Proof.
  induction fams as [|f fams IH].
  - unfold tally. simpl. split; [lia | intros H; by apply elem_of_nil in H].
  - rewrite tally_cons, elem_of_cons. pose proof (tally_nonneg k fams).
    case_bool_decide; [split; [by left | lia] |].
    rewrite Z.add_0_l, IH. split; [by right | intros [?|?]; done].
Qed.

Lemma foldl_count_family_get (fams : list string) (count : pydict Z) (k : string) :
  dict_get k (foldl count_family count fams) =
  match dict_get k count with
  | Some c => Some (c + tally k fams)
  | None => if bool_decide (k ∈ fams) then Some (tally k fams) else None
  end.
Proof.
  revert count. induction fams as [|f fams IH]; intros count; simpl.
  - unfold tally. simpl. destruct (dict_get k count); [f_equal; lia | done].
  - rewrite IH, count_family_get, tally_cons.
    destruct (decide (k = f)) as [->|Hk].
    + rewrite !bool_decide_eq_true_2 by (done || by left).
      destruct (dict_get f count); simpl; f_equal; lia.
    + rewrite (bool_decide_eq_false_2 (k = f)) by done.
      destruct (dict_get k count); [f_equal; lia|].
      rewrite Z.add_0_l. rewrite (bool_decide_ext (k ∈ f :: fams) (k ∈ fams)); [done|].
      rewrite elem_of_cons. split; [intros [?|?]; done | by right].
Qed.

Lemma foldl_count_family_NoDup (fams : list string) (count : pydict Z) :
  NoDup (dict_keys count) → NoDup (dict_keys (foldl count_family count fams)).
Proof.
  revert count. induction fams as [|f fams IH]; intros count Hnd; simpl; [done|].
  by apply IH, count_family_NoDup.
Qed.

Lemma histogram_keys (fams : list string) (k : string) :
  k ∈ dict_keys (foldl count_family [] fams) ↔ k ∈ fams.
Proof.
  pose proof (foldl_count_family_get fams [] k) as Hg. simpl in Hg.
  pose proof (dict_get_None k (foldl count_family [] fams)) as Hn.
  case_bool_decide as Hk.
  - split; [done | intros _]. apply dec_stable. intros Hc. apply Hn in Hc. congruence.
  - split; [intros Hc | done]. exfalso. apply Hn in Hg. done.
Qed.


Lemma foldl_dict_set_zero_get (empty : list string) (count : pydict Z) (k : string) :
  dict_get k (foldl (fun c family => dict_set family 0 c) count empty) =
  if bool_decide (k ∈ empty) then Some 0 else dict_get k count.
Proof.
  revert count. induction empty as [|f empty IH]; intros count; simpl; [done|].
  rewrite IH. destruct (decide (k ∈ empty)) as [Hin|Hin].
  - rewrite !bool_decide_eq_true_2; [done | by right | done].
  - rewrite (bool_decide_eq_false_2 (k ∈ empty)) by done.
    destruct (decide (k = f)) as [->|Hk].
    + rewrite dict_get_set_eq, bool_decide_eq_true_2; [done | by left].
    + rewrite dict_get_set_ne by done.
      rewrite bool_decide_eq_false_2; [done|].
      rewrite not_elem_of_cons. done.
Qed.

Lemma foldl_dict_set_zero_NoDup (empty : list string) (count : pydict Z) :
  NoDup (dict_keys count) →
  NoDup (dict_keys (foldl (fun c family => dict_set family 0 c) count empty)).
Proof.
  revert count. induction empty as [|f empty IH]; intros count Hnd; simpl; [done|].
  by apply IH, dict_set_NoDup.
Qed.

Lemma family_of_in_catalog (id : Z) :
  in_catalog id → family_of id = Ok (family_at id).
Proof.
  unfold in_catalog, nb_sounds, family_of, family_at, py_index. intros Hid.
  assert ((id <? 0) = false) as -> by lia.
  assert ((0 <=? id) && (id <? Z.of_nat (length definition)) = true) as ->
    by (apply andb_true_iff; lia).
  destruct (lookup_lt_is_Some_2 definition (Z.to_nat id)) as [s Hs]; [lia|].
  by rewrite Hs.
Qed.

Lemma family_at_in_catalog (id : Z) :
  in_catalog id → family_at id ∈ instrument_family <$> definition.
Proof.
  unfold in_catalog, nb_sounds, family_at. intros Hid.
  destruct (lookup_lt_is_Some_2 definition (Z.to_nat id)) as [s Hs]; [lia|].
  rewrite Hs. simpl. apply list_elem_of_fmap_2. by eapply list_elem_of_lookup_2.
Qed.

Lemma count_ids_in_catalog (st : list Z) (count : pydict Z) :
  Forall in_catalog st →
  count_ids st count = Ok (foldl count_family count (state_families st)).
Proof.
  intros Hst. revert count. induction Hst as [|id st Hid Hst IH]; intros count; [done|].
  simpl. rewrite family_of_in_catalog by done. simpl. apply IH.
Qed.

Lemma occurrences_tally (f : string) (st : list Z) :
  occurrences f st = tally f (state_families st).
Proof. done. Qed.

Lemma histogram_nb_keys (st : list Z) :
  Z.of_nat (length (dict_keys (histogram st))) = nb_distinct_families st.
Proof.
  unfold nb_distinct_families. f_equal. apply Permutation_length.
  apply NoDup_Permutation.
  - apply foldl_count_family_NoDup. constructor.
  - apply NoDup_remove_dups.
  - intros k. unfold histogram. by rewrite histogram_keys, elem_of_remove_dups.
Qed.

Lemma families_elem_of (k : string) :
  k ∈ families ↔ k ∈ catalog_families.
Proof.
  unfold families, families_count, catalog_families.
  by rewrite histogram_keys, elem_of_remove_dups.
Qed.

Lemma families_NoDup : NoDup families.
Proof. apply foldl_count_family_NoDup. constructor. Qed.

Lemma catalog_families_NoDup : NoDup catalog_families.
Proof. apply NoDup_remove_dups. Qed.


(** What [ids_to_families_count] returns on catalog ids: one entry per
    family of the catalog holding the number of its sounds in the state,
    and the number of distinct families of the state. *)
Lemma ids_to_families_count_spec (st : list Z) :
  Forall in_catalog st →
  ∃ count : pydict Z,
    ids_to_families_count st = Ok (count, nb_distinct_families st) ∧
    NoDup (dict_keys count) ∧
    count ≡ₚ (fun f => (f, occurrences f st)) <$> catalog_families.
Proof using set_iter_perm.
  intros Hst. unfold ids_to_families_count.
  rewrite count_ids_in_catalog by done. simpl.
  fold (histogram st). rewrite histogram_nb_keys.
  set (empty := set_iter _).
  set (count := foldl _ (histogram st) empty).
  assert (NoDup (dict_keys count)) as Hnd.
  { apply foldl_dict_set_zero_NoDup, foldl_count_family_NoDup. constructor. }
  exists count. split_and!; [done | done |].
  assert (∀ k, k ∈ empty ↔ k ∈ catalog_families ∧ k ∉ state_families st) as Hempty.
  { intros k. unfold empty. rewrite set_iter_perm, list_elem_of_difference.
    rewrite !elem_of_remove_dups, families_elem_of.
    unfold histogram. by rewrite histogram_keys. }
  apply NoDup_Permutation.
  - by apply NoDup_fmap_1 with (f := fst).
  - apply NoDup_fmap_2_strong; [|apply catalog_families_NoDup].
    by intros f1 f2 _ _ [= ->].
  - intros [k v]. rewrite dict_get_elem_of by done.
    unfold count. rewrite foldl_dict_set_zero_get.
    rewrite list_elem_of_fmap.
    unfold histogram at 1. rewrite foldl_count_family_get. simpl.
    destruct (decide (k ∈ empty)) as [He|He].
    + rewrite bool_decide_eq_true_2 by done.
      apply Hempty in He as [Hc Hs].
      assert (tally k (state_families st) = 0) as Ht.
      { pose proof (tally_pos k (state_families st)).
        pose proof (tally_nonneg k (state_families st)). 
        destruct (decide (0 < tally k (state_families st))) as [Hp|Hp]; [by apply H in Hp | lia]. }
      split.
      * intros [= <-]. exists k. rewrite occurrences_tally, Ht. done.
      * intros (f & [= -> ->] & _). by rewrite occurrences_tally, Ht.
    + rewrite bool_decide_eq_false_2 by done.
      destruct (decide (k ∈ state_families st)) as [Hs|Hs].
      * rewrite bool_decide_eq_true_2 by done. split.
        -- intros [= <-]. exists k. split; [done|].
           apply list_elem_of_fmap in Hs as (id & -> & Hid).
           apply elem_of_remove_dups, family_at_in_catalog.
           by eapply Forall_forall in Hst.
        -- intros (f & [= -> ->] & _). done.
      * rewrite bool_decide_eq_false_2 by done. split; [done|].
        intros (f & [= -> ->] & Hc). exfalso. apply He, Hempty. done.
Qed.


(** ** Final validation *)

Lemma length_filter_fmap {A B} (f : A → B) (P : B → Prop) `{!∀ x, Decision (P x)}
    (l : list A) :
  length (filter P (f <$> l)) = length (filter (fun x => P (f x)) l).
Proof.
  induction l as [|x l IH]; [done|]. csimpl.
  rewrite !filter_cons. destruct (decide (P (f x))); simpl; by rewrite IH.
Qed.

(** The early [break] does not change the outcome of the test that
    follows the loop. *)
Lemma meet_requirements_loop_ltb (counts : list Z) (acc : Z) :
  (meet_requirements_loop counts acc
     <? min_nb_families_subject_to_min_objects_per_family) =
  (acc + Z.of_nat (length (filter (fun c => min_objects_per_family <= c) counts))
     <? min_nb_families_subject_to_min_objects_per_family).
Proof.
  revert acc. induction counts as [|c counts IH]; intros acc; simpl.
  - f_equal. lia.
  - rewrite filter_cons.
    pose proof (length_filter (fun c => min_objects_per_family <= c) counts).
    destruct (decide (min_objects_per_family <= c)) as [Hc|Hc].
    + assert ((min_objects_per_family <=? c) = true) as -> by lia. simpl length.
      destruct (min_nb_families_subject_to_min_objects_per_family <=? acc + 1) eqn:E.
      * transitivity false; [|symmetry]; apply Z.ltb_ge; lia.
      * rewrite IH. f_equal. lia.
    + assert ((min_objects_per_family <=? c) = false) as -> by lia.
      destruct (min_nb_families_subject_to_min_objects_per_family <=? acc) eqn:E.
      * transitivity false; [|symmetry]; apply Z.ltb_ge; lia.
      * apply IH.
Qed.

Lemma count_values_meeting_quota (count : pydict Z) (st : list Z) :
  count ≡ₚ (fun f => (f, occurrences f st)) <$> catalog_families →
  Z.of_nat (length (filter (fun c => min_objects_per_family <= c) (dict_values count))) =
  nb_families_meeting_quota st.
Proof.
  intros Hperm. unfold dict_values, nb_families_meeting_quota.
  rewrite Hperm, <- list_fmap_compose, length_filter_fmap. done.
Qed.

Lemma validate_final_eq (st : list Z) :
  Forall in_catalog st →
  validate_final st =
  Ok (bool_decide (min_nb_families <= nb_distinct_families st) &&
      bool_decide (min_nb_families_subject_to_min_objects_per_family
                   <= nb_families_meeting_quota st)).
Proof using set_iter_perm.
  intros Hst. unfold validate_final.
  destruct (ids_to_families_count_spec st Hst) as (count & -> & _ & Hperm). simpl.
  rewrite meet_requirements_loop_ltb, Z.add_0_l, (count_values_meeting_quota _ st Hperm).
  destruct (nb_distinct_families st <? min_nb_families) eqn:Ea.
  - rewrite (bool_decide_eq_false_2 (min_nb_families <= _)); [done | lia].
  - rewrite (bool_decide_eq_true_2 (min_nb_families <= _)) by lia. simpl.
    destruct (nb_families_meeting_quota st <? _) eqn:Eb.
    + rewrite bool_decide_eq_false_2; [done | lia].
    + rewrite bool_decide_eq_true_2; [done | lia].
Qed.

(** C2. On a state of catalog ids, [validate_final] returns [True] if
    and only if (a) at least [min_nb_families] distinct families occur
    in the state and (b) at least
    [min_nb_families_subject_to_min_objects_per_family] families have
    at least [min_objects_per_family] sounds in the state. *)
Theorem validate_final_iff (st : list Z) :
  Forall in_catalog st →
  ∃ b : bool,
    validate_final st = Ok b ∧
    (b = true ↔
       min_nb_families <= nb_distinct_families st ∧
       min_nb_families_subject_to_min_objects_per_family
         <= nb_families_meeting_quota st).
Proof using set_iter_perm.
  intros Hst. eexists. split; [by apply validate_final_eq|].
  rewrite andb_true_iff, !bool_decide_eq_true. done.
Qed.

(** C10. The histogram that [ids_to_families_count] returns has an
    entry for every family that a sound of the catalog belongs to, and
    for nothing else; the entry holds the number of sounds of the state
    in that family, 0 for a family that does not occur in the state.
    So, when [min_objects_per_family] is 0 and the catalog has at least
    [min_nb_families_subject_to_min_objects_per_family] families, the
    quota test of [validate_final] passes whatever the state holds, and
    the verdict is that of the test on the number of families. *)
Theorem histogram_covers_catalog (st : list Z) :
  Forall in_catalog st →
  ∃ (count : pydict Z) (n : Z),
    ids_to_families_count st = Ok (count, n) ∧
    n = nb_distinct_families st ∧
    NoDup (dict_keys count) ∧
    (∀ f, f ∈ dict_keys count ↔ ∃ s : sound, s ∈ definition ∧ instrument_family s = f) ∧
    (∀ (s : sound), s ∈ definition →
       dict_get (instrument_family s) count = Some (occurrences (instrument_family s) st)) ∧
    (∀ (s : sound), s ∈ definition → instrument_family s ∉ state_families st →
       dict_get (instrument_family s) count = Some 0) ∧
    (min_objects_per_family = 0 →
     min_nb_families_subject_to_min_objects_per_family
       <= Z.of_nat (length catalog_families) →
       min_nb_families_subject_to_min_objects_per_family
         <= meet_requirements_loop (dict_values count) 0 ∧
       validate_final st = Ok (bool_decide (min_nb_families <= nb_distinct_families st))).
Proof using set_iter_perm.
  intros Hst.
  destruct (ids_to_families_count_spec st Hst) as (count & Hcount & Hnd & Hperm).
  exists count, (nb_distinct_families st).
  assert (∀ f v, (f, v) ∈ count ↔ f ∈ catalog_families ∧ v = occurrences f st) as Hin.
  { intros f v. rewrite Hperm, list_elem_of_fmap. split.
    - by intros (f' & [= -> ->] & ?).
    - intros [? ->]. by exists f. }
  assert (∀ f, f ∈ catalog_families ↔ ∃ s : sound, s ∈ definition ∧ instrument_family s = f)
    as Hcat.
  { intros f. unfold catalog_families. rewrite elem_of_remove_dups, list_elem_of_fmap.
    split; intros (s & ? & ?); by exists s. }
  assert (∀ s : sound, s ∈ definition →
            dict_get (instrument_family s) count
            = Some (occurrences (instrument_family s) st)) as Hget.
  { intros s Hs. apply dict_get_elem_of; [done|]. apply Hin. split; [|done].
    apply Hcat. by exists s. }
  split_and!; [done | done | done | | done | |].
  - intros f. rewrite <- Hcat. unfold dict_keys. rewrite list_elem_of_fmap. split.
    + intros ([f' v] & -> & Hfv). by apply Hin in Hfv as [? _].
    + intros Hf. exists (f, occurrences f st). split; [done | by apply Hin].
  - intros s Hs Habsent. rewrite (Hget s Hs). f_equal.
    rewrite occurrences_tally.
    pose proof (tally_pos (instrument_family s) (state_families st)) as Hp.
    pose proof (tally_nonneg (instrument_family s) (state_families st)).
    destruct (decide (0 < tally (instrument_family s) (state_families st))) as [H0|H0];
      [by apply Hp in H0 | lia].
  - intros Hobj Hsubj.
    assert (nb_families_meeting_quota st = Z.of_nat (length catalog_families)) as Hall.
    { unfold nb_families_meeting_quota. do 2 f_equal.
      rewrite Hobj. clear. induction catalog_families as [|f l IH]; [done|].
      rewrite filter_cons_True, IH; [done|]. unfold occurrences, tally. lia. }
    pose proof (meet_requirements_loop_ltb (dict_values count) 0) as Hloop.
    rewrite Z.add_0_l, (count_values_meeting_quota _ st Hperm), Hall in Hloop.
    assert ((Z.of_nat (length catalog_families)
             <? min_nb_families_subject_to_min_objects_per_family) = false)
      as Hf by lia.
    rewrite Hf in Hloop. split; [lia|].
    unfold validate_final. rewrite Hcount. simpl. rewrite Hloop.
    case_bool_decide; destruct (nb_distinct_families st <? min_nb_families) eqn:E;
      try done; lia.
Qed.


(** ** Intermediate validation

    The three tests of [validate_intermediate], on the numbers of the
    specification; [remaining] is [nb_level_to_go]. *)

Lemma validate_intermediate_eq (st : list Z) (current_level : Z) :
  Forall in_catalog st →
  validate_intermediate st current_level =
  Ok (negb
        (((nb_distinct_families st <? min_nb_families) &&
          (nb_objects_per_scene - current_level - 1
             <? min_nb_families - nb_distinct_families st)) ||
         (nb_objects_per_scene - current_level - 1
            <? min_nb_families_subject_to_min_objects_per_family
               - nb_families_meeting_quota st) ||
         (nb_objects_per_scene - current_level - 1
            <? (min_nb_families_subject_to_min_objects_per_family
                - nb_families_meeting_quota st) * min_objects_per_family))).
Proof using set_iter_perm.
  intros Hst. unfold validate_intermediate.
  destruct (ids_to_families_count_spec st Hst) as (count & -> & _ & Hperm). simpl.
  assert (Z.of_nat (length (filter (fun fc : string * Z => min_objects_per_family <= fc.2)
                                   count)) = nb_families_meeting_quota st) as ->.
  { rewrite <- (count_values_meeting_quota count st Hperm). unfold dict_values.
    by rewrite length_filter_fmap. }
  destruct (_ && _); [done|]. simpl.
  destruct (_ <? _ - nb_families_meeting_quota st); [done|]. simpl.
  by destruct (_ <? _ * _).
Qed.

Lemma nb_distinct_families_app (st ext : list Z) :
  nb_distinct_families (st ++ ext) <= nb_distinct_families st + Z.of_nat (length ext).
Proof.
  unfold nb_distinct_families, state_families. rewrite fmap_app.
  rewrite <- (length_fmap family_at ext), <- Nat2Z.inj_add, <- length_app.
  apply inj_le, submseteq_length, NoDup_submseteq; [apply NoDup_remove_dups|].
  intros f. rewrite elem_of_remove_dups, !elem_of_app, elem_of_remove_dups. done.
Qed.

Lemma nb_families_meeting_quota_snoc (st : list Z) (id : Z) :
  nb_families_meeting_quota (st ++ [id]) <= nb_families_meeting_quota st + 1.
Proof.
  unfold nb_families_meeting_quota.
  change 1 with (Z.of_nat (length [family_at id])).
  rewrite <- Nat2Z.inj_add, <- length_app.
  apply inj_le, submseteq_length, NoDup_submseteq.
  - apply NoDup_filter, catalog_families_NoDup.
  - intros f [Hf Hc]%list_elem_of_filter. rewrite elem_of_app, list_elem_of_filter.
    destruct (decide (f = family_at id)) as [->|Hne]; [right; by left|]. left.
    split; [|done]. revert Hf. unfold occurrences, tally, state_families.
    rewrite fmap_app, filter_app. simpl. rewrite filter_cons_False by done.
    by rewrite filter_nil, app_nil_r.
Qed.

Lemma nb_families_meeting_quota_app (st ext : list Z) :
  nb_families_meeting_quota (st ++ ext)
  <= nb_families_meeting_quota st + Z.of_nat (length ext).
Proof.
  revert st. induction ext as [|id ext IH]; intros st.
  - rewrite app_nil_r. simpl. lia.
  - replace (st ++ id :: ext) with ((st ++ [id]) ++ ext) by (by rewrite <- app_assoc).
    specialize (IH (st ++ [id])). pose proof (nb_families_meeting_quota_snoc st id).
    simpl length. lia.
Qed.

(** The first two tests are lower bounds: a state that one of them
    rejects has no completion that passes final validation. The third
    test is no lower bound: it counts [min_objects_per_family] sounds
    for each family still missing, also for one that holds some of its
    sounds already. *)
Lemma family_tests_sound (st ext : list Z) (current_level : Z) :
  Forall in_catalog (st ++ ext) →
  Z.of_nat (length ext) = nb_objects_per_scene - current_level - 1 →
  (nb_distinct_families st < min_nb_families ∧
   nb_objects_per_scene - current_level - 1 < min_nb_families - nb_distinct_families st) ∨
  nb_objects_per_scene - current_level - 1
    < min_nb_families_subject_to_min_objects_per_family - nb_families_meeting_quota st →
  validate_final (st ++ ext) = Ok false.
Proof using set_iter_perm.
  intros Hcat Hlen Htest. rewrite validate_final_eq by done.
  pose proof (nb_distinct_families_app st ext).
  pose proof (nb_families_meeting_quota_app st ext).
  destruct Htest as [[H1 H2] | H3].
  - rewrite (bool_decide_eq_false_2 (min_nb_families <= _)); [done | lia].
  - rewrite (bool_decide_eq_false_2
               (min_nb_families_subject_to_min_objects_per_family <= _)); [|lia].
    by rewrite andb_false_r.
Qed.

(** ** Drawing the next sound *)

Lemma randint_Ok (g g' : rng) (i : Z) :
  randint 0 (nb_sounds - 1) g = Ok (i, g') →
  0 < nb_sounds ∧ (i, g') = randbelow nb_sounds g ∧ in_catalog i.
Proof using randbelow_range.
  unfold randint, in_catalog. destruct (nb_sounds - 1 <? 0) eqn:E; [done|].
  replace (nb_sounds - 1 - 0 + 1) with nb_sounds by lia.
  pose proof (randbelow_range nb_sounds g) as Hr.
  destruct (randbelow nb_sounds g) as [k g0]. simpl in Hr.
  intros [= <- <-]. split; [lia | split; [done | lia]].
Qed.

Lemma randint_draw (g : rng) :
  0 < nb_sounds → randint 0 (nb_sounds - 1) g = Ok (randbelow nb_sounds g).
Proof.
  intros HN. unfold randint.
  assert ((nb_sounds - 1 <? 0) = false) as -> by lia.
  replace (nb_sounds - 1 - 0 + 1) with nb_sounds by lia.
  by destruct (randbelow nb_sounds g).
Qed.

Lemma next_id_loop_Ok (fuel : nat) (excluded : list Z) (i0 i : Z) (g0 g : rng) :
  in_catalog i0 →
  next_id_loop fuel excluded i0 g0 = Ok (i, g) → in_catalog i ∧ i ∉ excluded.
Proof using randbelow_range.
  revert i0 g0. induction fuel as [|fuel IH]; intros i0 g0 Hi0; simpl;
    case_bool_decide as Hin; try done; try (by intros [= <- <-]).
  destruct (randint 0 (nb_sounds - 1) g0) as [[i1 g1]| |] eqn:Hr; try done.
  simpl. apply IH. by apply randint_Ok in Hr as (_ & _ & ?).
Qed.

Lemma next_id_Ok (fuel : nat) (st siblings : list Z) (g g' : rng) (i : Z) :
  next_id fuel st siblings g = Ok (i, g') →
  in_catalog i ∧ (i ∉ st) ∧ (i ∉ siblings).
Proof using randbelow_range.
  unfold next_id. destruct (randint 0 (nb_sounds - 1) g) as [[i0 g0]| |] eqn:Hr; try done.
  simpl. intros Hl. apply next_id_loop_Ok in Hl as [Hi Hn].
  - rewrite elem_of_remove_dups, elem_of_app in Hn.
    split_and!; [done | |]; intros ?; apply Hn; [by left | by right].
  - by apply randint_Ok in Hr as (_ & _ & ?).
Qed.

(** When every draw is excluded the loop never exits. *)
Lemma next_id_loop_covered (fuel : nat) (excluded : list Z) (i0 : Z) (g0 : rng) :
  (∀ i, in_catalog i → i ∈ excluded) → in_catalog i0 →
  next_id_loop fuel excluded i0 g0 = Timeout.
Proof using randbelow_range.
  intros Hcov. revert i0 g0. induction fuel as [|fuel IH]; intros i0 g0 Hi0; simpl;
    rewrite bool_decide_eq_true_2 by (by apply Hcov); [done|].
  destruct (randint 0 (nb_sounds - 1) g0) as [[i1 g1]| |] eqn:Hr.
  - simpl. apply IH. by apply randint_Ok in Hr as (_ & _ & ?).
  - unfold in_catalog in Hi0. rewrite randint_draw in Hr by lia. done.
  - unfold in_catalog in Hi0. rewrite randint_draw in Hr by lia. done.
Qed.

Lemma next_id_covered (fuel : nat) (st siblings : list Z) (g : rng) :
  0 < nb_sounds →
  (∀ i, in_catalog i → i ∈ st ++ siblings) →
  next_id fuel st siblings g = Timeout.
Proof using randbelow_range.
  intros HN Hcov. unfold next_id. rewrite randint_draw by done.
  pose proof (randbelow_range nb_sounds g HN) as Hr.
  destruct (randbelow nb_sounds g) as [i0 g0]. simpl in *.
  apply next_id_loop_covered; [|done].
  intros i Hi. by apply elem_of_remove_dups, Hcov.
Qed.

(** The loop exits with the first draw that is not excluded. *)
Lemma next_id_loop_first (excluded : list Z) (k fuel : nat) (g : rng) :
  0 < nb_sounds →
  (∀ j, (j < k)%nat → (nth_draw j g).1 ∈ excluded) →
  (nth_draw k g).1 ∉ excluded →
  (k <= fuel)%nat →
  next_id_loop fuel excluded (randbelow nb_sounds g).1 (randbelow nb_sounds g).2
  = Ok (nth_draw k g).
Proof.
  intros HN. revert fuel g. induction k as [|k IH]; intros fuel g Hbefore Hk Hfuel.
  - simpl in Hk. destruct fuel; simpl; rewrite bool_decide_eq_false_2 by done;
      by destruct (randbelow nb_sounds g).
  - destruct fuel as [|fuel]; [lia|]. simpl.
    rewrite bool_decide_eq_true_2 by (apply (Hbefore 0%nat); lia).
    rewrite randint_draw by done.
    destruct (randbelow nb_sounds (randbelow nb_sounds g).2) as [i1 g1] eqn:E. simpl.
    replace i1 with (randbelow nb_sounds (randbelow nb_sounds g).2).1 by (by rewrite E).
    replace g1 with (randbelow nb_sounds (randbelow nb_sounds g).2).2 by (by rewrite E).
    apply IH; [|done|lia].
    intros j Hj. apply (Hbefore (S j)). lia.
Qed.

Lemma next_id_first (st siblings : list Z) (k fuel : nat) (g : rng) :
  0 < nb_sounds →
  (∀ j, (j < k)%nat → (nth_draw j g).1 ∈ st ++ siblings) →
  (nth_draw k g).1 ∉ st ++ siblings →
  (k <= fuel)%nat →
  next_id fuel st siblings g = Ok (nth_draw k g).
Proof.
  intros HN Hbefore Hk Hfuel. unfold next_id. rewrite randint_draw by done.
  destruct (randbelow nb_sounds g) as [i0 g0] eqn:E. simpl.
  replace i0 with (randbelow nb_sounds g).1 by (by rewrite E).
  replace g0 with (randbelow nb_sounds g).2 by (by rewrite E).
  apply next_id_loop_first; [done | | | done].
  - intros j Hj. apply elem_of_remove_dups. by apply Hbefore.
  - by rewrite elem_of_remove_dups.
Qed.

Lemma next_id_empty_catalog (fuel : nat) (st siblings : list Z) (g : rng) :
  nb_sounds = 0 → next_id fuel st siblings g = Raise ValueError.
Proof.
  intros HN. unfold next_id, randint. rewrite HN.
  assert ((0 - 1 <? 0) = true) as -> by lia. done.
Qed.

(** C4, as the code has it. [next_id] has no failure of its own for an
    exhausted catalog. With an empty catalog [random.randint] raises
    [ValueError]. Otherwise, when the state and the siblings cover
    every id, it draws again for ever; it never returns an id outside
    the catalog, in the state or among the siblings; and it returns the
    first draw of the generator that is none of these, as soon as there
    is one. *)
Theorem next_id_retries_until_eligible (st siblings : list Z) (g : rng) :
  (nb_sounds = 0 → ∀ fuel, next_id fuel st siblings g = Raise ValueError) ∧
  (0 < nb_sounds → (∀ i, in_catalog i → i ∈ st ++ siblings) →
     ∀ fuel, next_id fuel st siblings g = Timeout) ∧
  (∀ fuel i g', next_id fuel st siblings g = Ok (i, g') →
     in_catalog i ∧ i ∉ st ++ siblings) ∧
  (0 < nb_sounds →
   ∀ k : nat,
     (∀ j, (j < k)%nat → (nth_draw j g).1 ∈ st ++ siblings) →
     (nth_draw k g).1 ∉ st ++ siblings →
     ∀ fuel, (k <= fuel)%nat → next_id fuel st siblings g = Ok (nth_draw k g)).
Proof using randbelow_range.
  split_and!.
  - intros HN fuel. by apply next_id_empty_catalog.
  - intros HN Hcov fuel. by apply next_id_covered.
  - intros fuel i g' Hid. apply next_id_Ok in Hid as (? & ? & ?).
    split; [done|]. rewrite elem_of_app. by intros [?|?].
  - intros HN k Hbefore Hk fuel Hfuel. by apply next_id_first.
Qed.


(** ** The search loop *)

Lemma bind_Ok {A B} (f : A → result B) (m : result A) (b : B) :
  m ≫= f = Ok b → ∃ a, m = Ok a ∧ f a = Ok b.
Proof. destruct m; simpl; [eauto | done | done]. Qed.

Lemma bind_ret {A B} (f : A → result B) (a : A) : Ok a ≫= f = f a.
Proof. done. Qed.

Lemma deref_Ok (hp : heap) (h : handle) (n : Node) :
  deref hp h = Ok n ↔ hp !! h = Some n.
Proof. unfold deref. destruct (hp !! h); split; congruence. Qed.

Lemma py_pop_snoc {A} (l : list A) (x : A) : py_pop (l ++ [x]) = Ok l.
Proof. unfold py_pop. rewrite removelast_last. by destruct l. Qed.

Lemma py_pop_Ok {A} (l l' : list A) :
  py_pop l = Ok l' → ∃ x, l = l' ++ [x].
Proof.
  destruct l as [|a l] using rev_ind; [done|].
  rewrite py_pop_snoc. intros [= <-]. eauto.
Qed.

Lemma pop_if_nonempty_snoc (l : list Z) (x : Z) : pop_if_nonempty (l ++ [x]) = Ok l.
Proof.
  unfold pop_if_nonempty. rewrite length_app. simpl.
  assert ((0 <? length l + 1)%nat = true) as -> by (apply Nat.ltb_lt; lia).
  apply py_pop_snoc.
Qed.

Lemma pop_if_nonempty_Ok (l l' : list Z) :
  pop_if_nonempty l = Ok l' → (l = [] ∧ l' = []) ∨ ∃ x, l = l' ++ [x].
Proof.
  unfold pop_if_nonempty. destruct l as [|a l]; simpl.
  - intros [= <-]. by left.
  - intros H. right. by apply (py_pop_Ok (a :: l)).
Qed.

(** The heap after [add_child]. *)
Lemma add_child_Ok (hp hp' : heap) (self child : handle) (id : Z) :
  add_child hp self id = Ok (hp', child) →
  ∃ n : Node,
    hp !! self = Some n ∧ child = length hp ∧
    hp' !! self = Some (with_childs n (childs n ++ [child])) ∧
    hp' !! child = Some {| childs := []; level := level n + 1; sound_id := id;
                           overlapping_last := false; parent := Some self |} ∧
    (∀ h, h ≠ self → h ≠ child → hp' !! h = hp !! h).
Proof.
  unfold add_child. intros H. apply bind_Ok in H as (n & Hn%deref_Ok & [= <- <-]).
  assert (self < length hp)%nat as Hlt by (by eapply lookup_lt_Some).
  exists n. split_and!; [done | done | | |].
  - apply list_lookup_insert_eq. rewrite length_app. simpl. lia.
  - rewrite list_lookup_insert_ne by lia. by rewrite lookup_app_r, Nat.sub_diag.
  - intros h Hs Hc. rewrite list_lookup_insert_ne by done.
    destruct (decide (h < length hp)%nat) as [Hh|Hh].
    + by rewrite lookup_app_l.
    + rewrite !lookup_ge_None_2; [done | lia |]. rewrite length_app. simpl. lia.
Qed.

Lemma add_child_tree_inv (hp hp' : heap) (self child : handle) (id : Z) (n : Node) :
  tree_inv hp → hp !! self = Some n → level n < nb_objects_per_scene - 1 →
  add_child hp self id = Ok (hp', child) → tree_inv hp'.
Proof.
  intros [Hpar Hroot Hlo Hhi] Hn Hlev Hadd.
  apply add_child_Ok in Hadd as (n' & Hn' & -> & Hself & Hchild & Hother).
  assert (n' = n) as -> by congruence.
  assert (self < length hp)%nat as Hlt by (by eapply lookup_lt_Some).
  assert (∀ h x, hp' !! h = Some x →
            (h = length hp ∧ x = {| childs := []; level := level n + 1; sound_id := id;
                                    overlapping_last := false; parent := Some self |}) ∨
            (∃ y, hp !! h = Some y ∧ level x = level y ∧ parent x = parent y)) as Hcases.
  { intros h x Hx. destruct (decide (h = length hp)) as [->|Hne].
    - left. split; [done | congruence].
    - right. destruct (decide (h = self)) as [->|Hne'].
      + exists n. split; [done|]. rewrite Hself in Hx. by injection Hx as <-.
      + exists x. by rewrite <- Hother. }
  assert (∀ h y, hp !! h = Some y → ∃ x, hp' !! h = Some x ∧ level x = level y) as Hkeep.
  { intros h y Hy. destruct (decide (h = self)) as [->|Hne].
    - eexists. split; [done|]. simpl. congruence.
    - exists y. split; [|done]. rewrite Hother; [done | done |].
      apply lookup_lt_Some in Hy. lia. }
  split.
  - intros h x p Hx Hp. apply Hcases in Hx as [[-> ->] | (y & Hy & Hl & Hpy)].
    + simpl in Hp. injection Hp as <-. eexists. split; [done|]. done.
    + rewrite Hpy in Hp. destruct (Hpar h y p Hy Hp) as (pn & Hpn & Hlpn).
      destruct (Hkeep p pn Hpn) as (pn' & Hpn' & Hl').
      exists pn'. split; [done | lia].
  - intros h x Hx Hp. apply Hcases in Hx as [[-> ->] | (y & Hy & Hl & Hpy)]; [done|].
    rewrite Hpy in Hp. rewrite Hl. by apply Hroot.
  - intros h x Hx. apply Hcases in Hx as [[-> ->] | (y & Hy & Hl & Hpy)].
    + simpl. specialize (Hlo _ _ Hn). lia.
    + rewrite Hl. by eapply Hlo.
  - intros h x Hx. apply Hcases in Hx as [[-> ->] | (y & Hy & Hl & Hpy)].
    + simpl. lia.
    + rewrite Hl. by eapply Hhi.
Qed.

(** The climb after a leaf stops on a node with a free slot, or at the
    exhausted root; the state it leaves is a prefix of the one it got,
    as long as the level of the node it stops on. *)
Lemma go_up_Ok (fuel : nat) (hp : heap) (h : handle) (n : Node) (st st' : list Z)
    (nn : option handle) (cw : bool) :
  tree_inv hp → hp !! h = Some n → level n = Z.of_nat (length st) - 1 →
  go_up fuel hp (Some h) st = Ok (nn, st', cw) →
  (∃ rest, st = st' ++ rest) ∧
  (cw = true → ∃ c n', nn = Some c ∧ hp !! c = Some n' ∧
     level n' = Z.of_nat (length st') - 1) ∧
  (cw = false → nn = None ∧
     ∃ root, hp !! 0%nat = Some root ∧ parent root = None ∧
       nb_tree_branch <= Z.of_nat (length (childs root))).
Proof.
  intros Htree. revert h n st.
  induction fuel as [|fuel IH]; intros h n st Hn Hlev; simpl;
    unfold deref; rewrite Hn; simpl;
    destruct (nb_tree_branch <=? Z.of_nat (length (childs n))) eqn:Ew; try done.
  - intros [= <- <- <-]. split; [by exists []; rewrite app_nil_r|].
    split; [intros _; eauto | done].
  - destruct (parent n) as [p|] eqn:Hp.
    + intros H. apply bind_Ok in H as (st1 & Hpop & H).
      apply py_pop_Ok in Hpop as [x ->].
      destruct (tree_parent hp Htree h n p Hn Hp) as (pn & Hpn & Hl).
      rewrite length_app in Hlev. simpl in Hlev.
      apply IH with (n := pn) in H as ([rest ->] & Hcw & Hncw); [|done|lia].
      split; [|done]. exists (rest ++ [x]). by rewrite app_assoc.
    + intros [= <- <- <-].
      destruct (tree_root hp Htree h n Hn Hp) as [-> _].
      split; [by exists []; rewrite app_nil_r|].
      split; [done | intros _]. split; [done|]. exists n. split_and!; [done | done | lia].
  - intros [= <- <- <-]. split; [by exists []; rewrite app_nil_r|].
    split; [intros _; eauto | done].
Qed.


(** Every iteration of the loop follows one of the rules of [step]. *)
Lemma loop_body_step (start : Z) (fuel : nat) (m m' : machine) :
  search_inv start m → continue_work m = true →
  loop_body fuel m = Ok m' → step m m'.
Proof.
  intros Hinv Hcw Hbody.
  destruct (inv_current start m Hinv Hcw) as (c & cur & Hnn & Hc & Hlev).
  unfold loop_body in Hbody. rewrite Hnn in Hbody.
  apply bind_Ok in Hbody as (cur' & Hcur'%deref_Ok & Hbody).
  assert (cur' = cur) as -> by congruence.
  destruct (level cur <? nb_objects_per_scene - 1) eqn:Elev.
  - destruct (Z.of_nat (length (childs cur)) <? nb_tree_branch) eqn:Ew.
    + apply bind_Ok in Hbody as (siblings & Hsib & Hbody).
      apply bind_Ok in Hbody as ([id g'] & Hid & Hbody).
      apply bind_Ok in Hbody as ([hp' child] & Hadd & Hbody).
      apply bind_Ok in Hbody as (cn & Hcn%deref_Ok & Hbody).
      apply bind_Ok in Hbody as (ok & Hok & Hbody).
      destruct (add_child_Ok _ _ _ _ _ Hadd) as (n & Hn & _ & _ & Hchild & _).
      assert (n = cur) as -> by congruence.
      rewrite Hchild in Hcn. injection Hcn as <-. simpl in Hok.
      destruct ok.
      * injection Hbody as <-. eapply step_descend; eauto; lia.
      * rewrite pop_if_nonempty_snoc in Hbody. simpl in Hbody. injection Hbody as <-.
        eapply step_reject; eauto; lia.
    + destruct (parent cur) as [p|] eqn:Hp.
      * apply bind_Ok in Hbody as (st & Hpop & [= <-]).
        apply pop_if_nonempty_Ok in Hpop as [[Hst ->] | [x Hst]].
        -- exfalso. rewrite Hst in Hlev. simpl in Hlev.
           destruct (tree_parent _ (inv_tree _ _ Hinv) c cur p Hc Hp) as (pn & Hpn & Hl).
           pose proof (tree_level_lo _ (inv_tree _ _ Hinv) p pn Hpn). lia.
        -- eapply step_parent; eauto; lia.
      * injection Hbody as <-. eapply step_root_exhausted; eauto; lia.
  - apply bind_Ok in Hbody as (valid & Hvalid & Hbody).
    destruct (valid && limit_reached nb_to_generate (start_index m)) eqn:Elim.
    + injection Hbody as <-. apply andb_true_iff in Elim as [-> Hlim].
      rewrite <- Hnn. eapply step_limit; eauto; lia.
    + apply bind_Ok in Hbody as (st & [x Hst]%py_pop_Ok & Hbody).
      apply bind_Ok in Hbody as ([[nn st'] cw] & Hup & [= <-]).
      eapply step_leaf; eauto; lia.
Qed.


Lemma go_up_None (fuel : nat) (hp : heap) (st : list Z) :
  go_up fuel hp None st = Raise AttributeError.
Proof. by destruct fuel. Qed.

Lemma init_machine_inv (start : Z) (g : rng) : search_inv start (init_machine start g).
Proof.
  assert (∀ h n, [root_node] !! h = Some n → h = 0%nat ∧ n = root_node) as Hone.
  { intros [|h] n; simpl; [by intros [= <-] | by rewrite lookup_nil]. }
  split; simpl.
  - split; intros h n; [intros p|..]; intros [-> ->]%Hone; simpl; try done; lia.
  - intros _. exists 0%nat, root_node. done.
  - constructor.
  - constructor.
  - constructor.
  - lia.
  - intros. lia.
Qed.

Lemma step_inv (start : Z) (m m' : machine) :
  search_inv start m → continue_work m = true → step m m' → search_inv start m'.
Proof using randbelow_range.
  intros [Htree Hcur Hnd Hcat Hsc Hidx Hlim] Hcw Hstep.
  destruct (Hcur Hcw) as (c0 & cur0 & Hnn0 & Hc0 & Hlev).
  destruct Hstep as
    [ c cur siblings fuel id g' hp' child Hnn Hc Hl Hw Hsib Hid Hadd Hval
    | c cur siblings fuel id g' hp' child Hnn Hc Hl Hw Hsib Hid Hadd Hval
    | c cur Hnn Hc Hl Hw Hp
    | c cur p st x Hnn Hc Hl Hw Hp Hst
    | c cur Hnn Hc Hl Hval Hlimit
    | c cur valid st x fuel nn st' cw Hnn Hc Hl Hval Hlimit Hst Hup ];
    (assert (c0 = c) as -> by congruence); (assert (cur0 = cur) as -> by congruence).
  - pose proof (add_child_tree_inv _ _ _ _ _ _ Htree Hc Hl Hadd) as Htree'.
    apply add_child_Ok in Hadd as (n & Hn & -> & Hself & Hchild & _).
    assert (n = cur) as -> by congruence.
    apply next_id_Ok in Hid as (Hin & Hnst & _).
    split; simpl; try done.
    + intros _. eexists _, _. split_and!; [done | done |]. simpl.
      rewrite length_app. simpl. lia.
    + apply NoDup_app. split_and!; [done | | apply NoDup_singleton].
      intros y Hy ->%list_elem_of_singleton. done.
    + apply Forall_app. split; [done|]. by constructor.
  - pose proof (add_child_tree_inv _ _ _ _ _ _ Htree Hc Hl Hadd) as Htree'.
    apply add_child_Ok in Hadd as (n & Hn & -> & Hself & Hchild & _).
    assert (n = cur) as -> by congruence.
    split; simpl; try done.
    intros _. eexists _, _. split_and!; [done | done |]. done.
  - split; simpl; done.
  - rewrite Hst in *. apply NoDup_app in Hnd as (Hnd & _ & _).
    apply Forall_app in Hcat as [Hcat _].
    split; simpl; try done.
    intros _. destruct (tree_parent _ Htree c cur p Hc Hp) as (pn & Hpn & Hlp).
    exists p, pn. split_and!; [done | done |].
    rewrite length_app in Hlev. simpl in Hlev. lia.
  - split; simpl; done.
  - destruct (parent cur) as [p|] eqn:Hp; [|by rewrite go_up_None in Hup].
    destruct (tree_parent _ Htree c cur p Hc Hp) as (pn & Hpn & Hlp).
    assert (Z.of_nat (length (state m)) = Z.of_nat (length st) + 1) as Hlen.
    { rewrite Hst, length_app. simpl. lia. }
    eapply go_up_Ok in Hup as ([rest Hrest] & Hcw' & _); [|done|done|lia].
    assert (NoDup st' ∧ Forall in_catalog st') as [Hnd' Hcat'].
    { rewrite Hst, Hrest in Hnd, Hcat. rewrite <- app_assoc in Hnd, Hcat.
      apply NoDup_app in Hnd as (? & _ & _). apply Forall_app in Hcat as [? _]. done. }
    split; simpl; try done.
    + destruct valid; [|done]. apply Forall_app. split; [done|].
      constructor; [|constructor]. split; [|done].
      pose proof (tree_level_hi _ Htree c cur Hc). lia.
    + destruct valid; [|done]. rewrite length_app. simpl. lia.
    + intros limit Hlimit' Hne. specialize (Hlim limit Hlimit' Hne).
      destruct valid; [|done]. rewrite length_app. simpl.
      simpl in Hlimit. unfold limit_reached in Hlimit. rewrite Hlimit' in Hlimit.
      assert ((limit =? 0) = false) as Hz by lia. rewrite Hz in Hlimit. simpl in Hlimit.
      lia.
Qed.

Lemma reachable_inv (start : Z) (g : rng) (m : machine) :
  reachable (init_machine start g) m → search_inv start m.
Proof using randbelow_range.
  induction 1 as [|fuel m m' Hreach IH Hcw Hbody]; [apply init_machine_inv|].
  eapply step_inv; [done | done |]. by eapply loop_body_step.
Qed.

Lemma while_continue_work_Ok (iterations fuel : nat) (m0 m m' : machine) :
  reachable m0 m → while_continue_work iterations fuel m = Ok m' →
  reachable m0 m' ∧ continue_work m' = false.
Proof.
  revert m. induction iterations as [|iterations IH]; intros m Hreach; simpl;
    destruct (continue_work m) eqn:Hcw; try done; try (by intros [= <-]).
  intros H. apply bind_Ok in H as (m1 & Hbody & H).
  eapply IH; [|done]. by eapply reachable_step.
Qed.

Lemma while_continue_work_S (iterations fuel : nat) (m : machine) :
  continue_work m = true →
  while_continue_work (S iterations) fuel m =
  loop_body fuel m ≫= while_continue_work iterations fuel.
Proof. intros Hcw. simpl. by rewrite Hcw. Qed.

Lemma run_search_Ok (fuel : nat) (start : Z) (g : rng) (m : machine) :
  run_search fuel start g = Ok m →
  reachable (init_machine start g) m ∧ continue_work m = false.
Proof. apply while_continue_work_Ok. constructor. Qed.

(** C1. Every scene that the search emits, and so every scene that
    [_generate_scenes_idx] returns, has exactly [nb_objects_per_scene]
    sound ids, and no id twice. *)
Theorem generated_scenes_length_NoDup (start : Z) (g : rng) :
  (∀ m : machine, reachable (init_machine start g) m →
     Forall (fun s => Z.of_nat (length s) = nb_objects_per_scene ∧ NoDup s)
       (generated_scenes m)) ∧
  (∀ (fuel : nat) (scenes : list (list Z)) (g' : rng),
     _generate_scenes_idx fuel start g = Ok (scenes, g') →
     Forall (fun s => Z.of_nat (length s) = nb_objects_per_scene ∧ NoDup s) scenes).
Proof using randbelow_range.
  split.
  - intros m Hreach. apply (inv_scenes start). by eapply reachable_inv.
  - unfold _generate_scenes_idx. intros fuel scenes g' H.
    apply bind_Ok in H as (m & [Hreach _]%run_search_Ok & [= <- _]).
    apply (inv_scenes start). by eapply reachable_inv.
Qed.


(** ** The width of the tree *)

Lemma step_childs (m m' : machine) :
  0 <= nb_tree_branch → step m m' →
  Forall (fun n => Z.of_nat (length (childs n)) <= nb_tree_branch) (nodes m) →
  Forall (fun n => Z.of_nat (length (childs n)) <= nb_tree_branch) (nodes m').
Proof.
  intros HW Hstep Hall.
  destruct Hstep as
    [ c cur siblings fuel id g' hp' child Hnn Hc Hl Hw Hsib Hid Hadd Hval
    | c cur siblings fuel id g' hp' child Hnn Hc Hl Hw Hsib Hid Hadd Hval
    | | | | ]; simpl; try done.
  all: apply add_child_Ok in Hadd as (n & Hn & -> & Hself & Hchild & Hother);
    assert (n = cur) as -> by congruence;
    apply Forall_lookup_2; intros h x Hx;
    destruct (decide (h = c)) as [->|Hne];
      [ rewrite Hself in Hx; injection Hx as <-; simpl; rewrite length_app; simpl; lia |];
    destruct (decide (h = length (nodes m))) as [->|Hne'];
      [ rewrite Hchild in Hx; injection Hx as <-; simpl; lia |];
    rewrite Hother in Hx by done; by eapply (Forall_lookup_1 _ _ _ _ Hall).
Qed.

(** A draw that intermediate validation rejects stays among the
    children of the node. *)
Lemma loop_body_rejected (fuel : nat) (m m' : machine) (c : handle) (cur : Node)
    (siblings : list Z) (id : Z) (g' : rng) :
  next_node m = Some c → nodes m !! c = Some cur →
  level cur < nb_objects_per_scene - 1 →
  Z.of_nat (length (childs cur)) < nb_tree_branch →
  childs_sound_ids (nodes m) (childs cur) = Ok siblings →
  next_id fuel (state m) siblings (gen m) = Ok (id, g') →
  validate_intermediate (state m ++ [id]) (level cur + 1) = Ok false →
  loop_body fuel m = Ok m' →
  next_node m' = Some c ∧ state m' = state m ∧
  ∃ cur', nodes m' !! c = Some cur' ∧
    childs cur' = childs cur ++ [length (nodes m)] ∧
    ∃ rejected, nodes m' !! length (nodes m) = Some rejected ∧ sound_id rejected = id.
Proof.
  intros Hnn Hc Hl Hw Hsib Hid Hval. unfold loop_body.
  rewrite Hnn, (proj2 (deref_Ok _ _ _) Hc). simpl.
  assert ((level cur <? nb_objects_per_scene - 1) = true) as -> by lia.
  assert ((Z.of_nat (length (childs cur)) <? nb_tree_branch) = true) as -> by lia.
  rewrite Hsib. simpl. rewrite Hid. simpl.
  destruct (add_child (nodes m) c id) as [[hp' child]| |] eqn:Hadd; try done. simpl.
  apply add_child_Ok in Hadd as (n & Hn & -> & Hself & Hchild & _).
  assert (n = cur) as -> by congruence.
  rewrite (proj2 (deref_Ok _ _ _) Hchild). simpl. rewrite Hval. simpl.
  rewrite pop_if_nonempty_snoc. simpl. intros [= <-]. simpl.
  split_and!; [done | done |]. eexists. split_and!; [done | done |]. eauto.
Qed.

(** C7. All along the search every node has at most [nb_tree_branch]
    children, and a child whose draw fails intermediate validation is
    kept in the list of its parent, where it takes one of the slots. *)
Theorem childs_at_most_nb_tree_branch (start : Z) (g : rng) (m : machine) :
  0 <= nb_tree_branch →
  reachable (init_machine start g) m →
  Forall (fun n => Z.of_nat (length (childs n)) <= nb_tree_branch) (nodes m) ∧
  (∀ (fuel : nat) (m' : machine) (c : handle) (cur : Node) (siblings : list Z)
      (id : Z) (g' : rng),
     next_node m = Some c → nodes m !! c = Some cur →
     level cur < nb_objects_per_scene - 1 →
     Z.of_nat (length (childs cur)) < nb_tree_branch →
     childs_sound_ids (nodes m) (childs cur) = Ok siblings →
     next_id fuel (state m) siblings (gen m) = Ok (id, g') →
     validate_intermediate (state m ++ [id]) (level cur + 1) = Ok false →
     loop_body fuel m = Ok m' →
     next_node m' = Some c ∧
     ∃ cur', nodes m' !! c = Some cur' ∧
       Z.of_nat (length (childs cur')) = Z.of_nat (length (childs cur)) + 1 ∧
       Z.of_nat (length (childs cur')) <= nb_tree_branch).
Proof using randbelow_range.
  intros HW Hreach. split.
  - induction Hreach as [|fuel m m' Hreach IH Hcw Hbody].
    + repeat constructor. simpl. lia.
    + eapply step_childs; [done | | done].
      eapply loop_body_step; [by eapply reachable_inv | done | done].
  - intros fuel m' c cur siblings id g' Hnn Hc Hl Hw Hsib Hid Hval Hbody.
    destruct (loop_body_rejected _ _ _ _ _ _ _ _ Hnn Hc Hl Hw Hsib Hid Hval Hbody)
      as (Hnn' & _ & cur' & Hc' & Hch & _).
    split; [done|]. exists cur'. rewrite Hch, length_app. simpl.
    split_and!; [done | lia | lia].
Qed.

(** ** How the search ends *)

Lemma step_halt (start : Z) (m m' : machine) :
  search_inv start m → continue_work m = true → step m m' →
  continue_work m' = false → halted_at_root m' ∨ halted_at_limit m'.
Proof.
  intros Hinv Hcw Hstep Hcw'.
  pose proof (inv_tree _ _ Hinv) as Htree.
  destruct (inv_current _ _ Hinv Hcw) as (c0 & cur0 & Hnn0 & Hc0 & Hlev).
  destruct Hstep as
    [ | | c cur Hnn Hc Hl Hw Hp | | c cur Hnn Hc Hl Hval Hlimit
    | c cur valid st x fuel nn st' cw Hnn Hc Hl Hval Hlimit Hst Hup ]; simpl in *;
    try done.
  - left. split; [done|]. simpl.
    destruct (tree_root _ Htree c cur Hc Hp) as [-> _]. eauto.
  - right. unfold limit_reached in Hlimit.
    destruct nb_to_generate as [limit|] eqn:Hcap; [|done].
    apply andb_true_iff in Hlimit as [Hz Hle].
    exists limit, c, cur. simpl. split_and!; try done; lia.
  - left. subst cw. assert (c0 = c) as -> by congruence.
    assert (cur0 = cur) as -> by congruence.
    destruct (parent cur) as [p|] eqn:Hp; [|by rewrite go_up_None in Hup].
    destruct (tree_parent _ Htree c cur p Hc Hp) as (pn & Hpn & Hlp).
    rewrite Hst, length_app in Hlev. simpl in Hlev.
    eapply go_up_Ok in Hup as (_ & _ & Hroot); [|done|done|lia].
    destruct (Hroot eq_refl) as [-> Hr]. by split.
Qed.




(** ** More families asked for than the catalog has *)






(** ** The sizes of the splits *)

Lemma py_round_bounds (x : Q) :
  (x - (1 # 2) <= inject_Z (py_round x) <= x + (1 # 2))%Q.
Proof.
  unfold py_round.
  pose proof (Qfloor_le x) as Hlo. pose proof (Qlt_floor x) as Hhi.
  rewrite inject_Z_plus in Hhi. change (inject_Z 1) with 1%Q in Hhi.
  destruct (x - inject_Z (Qfloor x) ?= 1 # 2)%Q eqn:E.
  - apply Qeq_alt in E. destruct (Z.even (Qfloor x)).
    + split; lra.
    + rewrite inject_Z_plus. change (inject_Z 1) with 1%Q. split; lra.
  - apply Qlt_alt in E. split; lra.
  - apply Qgt_alt in E. rewrite inject_Z_plus. change (inject_Z 1) with 1%Q. split; lra.
Qed.

Lemma inject_Z_lt_succ (a b : Z) : (inject_Z a < inject_Z b + 1)%Q → a <= b.
Proof.
  intros H. replace 1%Q with (inject_Z 1) in H by done.
  rewrite <- inject_Z_plus, <- Zlt_Qlt in H. lia.
Qed.

Lemma fl_zero : (fl 0 == 0)%Q.
Proof using fl_int. apply (fl_int 0). done. Qed.

Lemma fl_nonneg (x : Q) : (0 <= x)%Q → (0 <= fl x)%Q.
Proof using fl_int fl_mono. intros Hx. rewrite <- fl_zero. by apply fl_mono. Qed.

#[local] Open Scope Q_scope.

Lemma Qmult_bounds (a b A B : Q) :
  (0 <= a <= A → 0 <= b <= B → 0 <= a * b <= A * B)%Q.
Proof.
  intros [Ha0 Ha1] [Hb0 Hb1]. split.
  - by apply Qmult_le_0_compat.
  - apply Qle_trans with (A * b).
    + by apply Qmult_le_compat_r.
    + rewrite !(Qmult_comm A). apply Qmult_le_compat_r; [done|]. lra.
Qed.

(** With at most [2^48] scenes the rounding errors of the two products
    stay far below the half that [round] can add. *)
Lemma split_arith (N r e t x0 X w v Y : Q) :
  (0 < e → e <= 1 # 9007199254740992 →
   0 < t → t <= 1 # 1606938044258990275541962092341162602522202993782792835301376 →
   0 <= r <= 1 → 0 <= N <= 281474976710656 → x0 == N →
   X <= x0 * r * (1 + e) + t →
   0 <= w → w <= (1 - r) * (1 + e) + t →
   0 <= v → v <= w * (1 # 2) * (1 + e) + t →
   Y <= x0 * v * (1 + e) + t →
   (1 # 2) <= Y →
   X + Y < N)%Q.
Proof.
  intros He0 He Ht0 Ht Hr HN Hx0 HX Hw0 Hw Hv0 Hv HY HY2.
  assert (0 <= x0 <= 281474976710656) as Hx by lra.
  assert (0 <= e <= 1 # 9007199254740992) as He' by lra.
  assert (0 <= 1 - r <= 1) as Hr' by lra.
  (* w and v, with absolute errors *)
  pose proof (Qmult_bounds (1 - r) e _ _ Hr' He') as Hre.
  assert (w <= (1 - r) + (1 # 4503599627370496)) as Hw1 by lra.
  assert (0 <= w * (1 # 2) <= 1) as Hw2 by lra.
  pose proof (Qmult_bounds (w * (1 # 2)) e _ _ Hw2 He') as Hwe.
  assert (v <= (1 - r) * (1 # 2) + (1 # 2251799813685248)) as Hv1 by lra.
  assert (0 <= v <= 1) as Hv2 by lra.
  (* the products with the number of scenes *)
  pose proof (Qmult_bounds x0 r _ _ Hx Hr) as HP.
  assert (x0 * r <= x0) as HP1.
  { rewrite <- (Qmult_1_r x0) at 2. rewrite !(Qmult_comm x0).
    apply Qmult_le_compat_r; lra. }
  assert (x0 * v <= x0 * ((1 - r) * (1 # 2) + (1 # 2251799813685248))) as HNV.
  { rewrite !(Qmult_comm x0). apply Qmult_le_compat_r; lra. }
  assert (x0 * ((1 - r) * (1 # 2) + (1 # 2251799813685248)) ==
          x0 * (1 # 2) - x0 * r * (1 # 2) + x0 * (1 # 2251799813685248)) as Hring by ring.
  rewrite Hring in HNV. clear Hring.
  pose proof (Qmult_bounds x0 v _ _ Hx Hv2) as HNV2.
  set (P := x0 * r) in *. set (NV := x0 * v) in *.
  assert (0 <= P <= 281474976710656) as HP2 by lra.
  assert (0 <= NV <= 281474976710656) as HNV3 by lra.
  pose proof (Qmult_bounds P e _ _ HP2 He') as HPe.
  pose proof (Qmult_bounds NV e _ _ HNV3 He') as HNVe.
  assert (P * (1 + e) == P + P * e) as HX' by ring.
  assert (NV * (1 + e) == NV + NV * e) as HY' by ring.
  rewrite HX' in HX. rewrite HY' in HY.
  set (Pe := P * e) in *. set (NVe := NV * e) in *.
  assert (281474976710656 * (1 # 9007199254740992) == 1 # 32) as Hc by reflexivity.
  rewrite Hc in HPe, HNVe.
  lra.
Qed.

#[local] Close Scope Q_scope.

Lemma float_eps_eta_small :
  (0 < float_eps)%Q ∧ (float_eps <= 1 # 9007199254740992)%Q ∧
  (0 < float_eta)%Q ∧
  (float_eta <= 1 # 1606938044258990275541962092341162602522202993782792835301376)%Q.
Proof. unfold float_eps, float_eta. repeat split; by vm_compute. Qed.

(** The two rounded sizes are not negative and leave room for the test
    split. *)
Lemma split_sizes (n : Z) (r : Q) :
  0 <= n <= 2 ^ 48 → (0 <= r <= 1)%Q →
  0 <= nb_training_of n r ∧ 0 <= nb_valid_of n r ∧
  nb_training_of n r + nb_valid_of n r <= n.
Proof using fl_mono fl_int fl_err.
  intros Hn Hr. unfold nb_training_of, nb_valid_of, float_mul, float_div, float_sub,
    float_of_int.
  destruct float_eps_eta_small as (He0 & He & Ht0 & Ht).
  assert (Z.abs n <= 2 ^ 53) as Habs by lia.
  pose proof (fl_int n Habs) as Hx0. set (x0 := fl (inject_Z n)) in *.
  assert (0 <= inject_Z n <= 281474976710656)%Q as HN.
  { split; [change 0%Q with (inject_Z 0) | change 281474976710656%Q with (inject_Z (2 ^ 48))];
      rewrite <- Zle_Qle; lia. }
  set (N := inject_Z n) in *.
  assert (∀ x : Q, 0 <= x → x <= 281474976710656 →
            fl x <= x * (1 + float_eps) + float_eta)%Q as Hfl.
  { intros x Hx0' Hx1. apply fl_err; [done|].
    apply Qle_trans with 281474976710656%Q; [done|]. by vm_compute. }
  assert (0 <= x0 <= 281474976710656)%Q as Hx by lra.
  (* the training size *)
  pose proof (Qmult_bounds x0 r _ _ Hx Hr) as HP.
  assert (x0 * r <= x0)%Q as HP1.
  { rewrite <- (Qmult_1_r x0) at 2. rewrite !(Qmult_comm x0).
    apply Qmult_le_compat_r; lra. }
  assert (0 <= fl (x0 * r))%Q as HX0 by (apply fl_nonneg; lra).
  assert (fl (x0 * r) <= N)%Q as HX1.
  { rewrite <- Hx0. unfold x0 at 2. apply fl_mono. lra. }
  assert (fl (x0 * r) <= x0 * r * (1 + float_eps) + float_eta)%Q as HXe
    by (apply Hfl; lra).
  (* the validation size *)
  assert (0 <= fl (1 - r))%Q as Hw0 by (apply fl_nonneg; lra).
  assert (fl (1 - r) <= (1 - r) * (1 + float_eps) + float_eta)%Q as Hwe
    by (apply Hfl; lra).
  set (w := fl (1 - r)) in *.
  assert (0 <= 1 - r <= 1)%Q as Hr' by lra.
  assert (0 <= float_eps <= 1 # 9007199254740992)%Q as He' by lra.
  pose proof (Qmult_bounds (1 - r) float_eps _ _ Hr' He') as Hre.
  assert (w / 2 == w * (1 # 2))%Q as Hdiv by reflexivity.
  assert (0 <= fl (w / 2))%Q as Hv0 by (apply fl_nonneg; lra).
  assert (fl (w / 2) <= w * (1 # 2) * (1 + float_eps) + float_eta)%Q as Hve.
  { rewrite <- Hdiv. apply Hfl; lra. }
  set (v := fl (w / 2)) in *.
  assert (0 <= w * (1 # 2) <= 1)%Q as Hw2 by lra.
  pose proof (Qmult_bounds (w * (1 # 2)) float_eps _ _ Hw2 He') as Hwe2.
  assert (0 <= v <= 1)%Q as Hv2 by lra.
  pose proof (Qmult_bounds x0 v _ _ Hx Hv2) as HNV.
  assert (0 <= fl (x0 * v))%Q as HY0 by (apply fl_nonneg; lra).
  assert (fl (x0 * v) <= x0 * v * (1 + float_eps) + float_eta)%Q as HYe
    by (apply Hfl; lra).
  set (X := fl (x0 * r)) in *. set (Y := fl (x0 * v)) in *.
  pose proof (py_round_bounds X) as [HT0 HT1].
  pose proof (py_round_bounds Y) as [HV0 HV1].
  set (T := py_round X) in *. set (V := py_round Y) in *.
  assert (0 <= T) as HTnn.
  { apply inject_Z_lt_succ. change (inject_Z 0) with 0%Q. lra. }
  assert (0 <= V) as HVnn.
  { apply inject_Z_lt_succ. change (inject_Z 0) with 0%Q. lra. }
  split_and!; [done | done |].
  apply inject_Z_lt_succ. rewrite inject_Z_plus. fold N.
  destruct (Qlt_le_dec Y (1 # 2)) as [HY|HY].
  - assert (V <= 0) as HV.
    { apply inject_Z_lt_succ. change (inject_Z 0) with 0%Q. lra. }
    assert (inject_Z V <= 0)%Q by (change 0%Q with (inject_Z 0); rewrite <- Zle_Qle; lia).
    lra.
  - assert (X + Y < N)%Q; [|lra].
    by apply (split_arith N r float_eps float_eta x0 X w v Y).
Qed.


(** ** Labelling the scenes *)

Lemma get_in_catalog (id : Z) : in_catalog id → ∃ s, get id = Ok s.
Proof.
  unfold in_catalog, nb_sounds, get, py_index. intros Hid.
  assert ((id <? 0) = false) as -> by lia.
  assert ((0 <=? id) && (id <? Z.of_nat (length definition)) = true) as ->
    by (apply andb_true_iff; lia).
  destruct (lookup_lt_is_Some_2 definition (Z.to_nat id)) as [s Hs]; [lia|].
  rewrite Hs. eauto.
Qed.

Lemma scene_composition_in_catalog (ids : list Z) :
  Forall in_catalog ids → ∃ l, scene_composition ids = Ok l.
Proof.
  induction 1 as [|id ids Hid _ [l IH]]; simpl; [eauto|].
  destruct (get_in_catalog id Hid) as [s ->]. simpl. rewrite IH. simpl. eauto.
Qed.

Lemma label_scenes_spec (l : list (list Z)) (T V k ti vi tei : Z) (out : scene_sets) :
  Forall (Forall in_catalog) l →
  ∃ tr va te : list scene,
    label_scenes l T V k ti vi tei out =
      Ok {| training_scenes := training_scenes out ++ tr;
            valid_scenes := valid_scenes out ++ va;
            test_scenes := test_scenes out ++ te |} ∧
    Forall (fun s => split s = train) tr ∧
    Forall (fun s => split s = val) va ∧
    Forall (fun s => split s = test) te ∧
    Z.of_nat (length tr) = Z.min (Z.max 0 (T - k)) (Z.of_nat (length l)) ∧
    Z.of_nat (length va) =
      Z.min (Z.max 0 (Z.max T (T + V) - k)) (Z.of_nat (length l))
      - Z.min (Z.max 0 (T - k)) (Z.of_nat (length l)) ∧
    Forall2 (fun ids s => scene_composition ids = Ok (objects s)) l (tr ++ va ++ te).
Proof.
  intros Hl. revert k ti vi tei out.
  induction Hl as [|ids l Hids Hl IH]; intros k ti vi tei out.
  - exists [], [], []. simpl. rewrite !app_nil_r. destruct out.
    split_and!; try done; try constructor; lia.
  - destruct (scene_composition_in_catalog ids Hids) as [comp Hcomp].
    simpl label_scenes. rewrite Hcomp. simpl mbind.
    destruct (k <? T) eqn:E1; [|destruct (k <? T + V) eqn:E2].
    + edestruct IH as (tr & va & te & -> & Htr & Hva & Hte & Hltr & Hlva & Hall).
      simpl. eexists (_ :: tr), va, te. rewrite <- app_assoc.
      split_and!; [done | by constructor | done | done | | | by constructor].
      * simpl length. lia.
      * simpl length. lia.
    + edestruct IH as (tr & va & te & -> & Htr & Hva & Hte & Hltr & Hlva & Hall).
      simpl. assert (tr = []) as -> by (apply length_zero_iff_nil; lia).
      eexists [], (_ :: va), te. rewrite <- app_assoc.
      split_and!; [done | done | by constructor | done | | | by constructor].
      * simpl length. lia.
      * simpl length in *. lia.
    + edestruct IH as (tr & va & te & -> & Htr & Hva & Hte & Hltr & Hlva & Hall).
      simpl. assert (tr = []) as -> by (apply length_zero_iff_nil; lia).
      assert (va = []) as -> by (apply length_zero_iff_nil; simpl length in *; lia).
      eexists [], [], (_ :: te). rewrite <- app_assoc.
      split_and!; [done | done | done | by constructor | | | by constructor].
      * simpl length. lia.
      * simpl length in *. lia.
Qed.

(** ** The sizes of the splits *)

Lemma py_round_half_even (x : Q) : round_half_even x (py_round x).
Proof.
  unfold round_half_even, py_round.
  pose proof (Qfloor_le x) as Hlo. pose proof (Qlt_floor x) as Hhi.
  rewrite inject_Z_plus in Hhi. change (inject_Z 1) with 1%Q in Hhi.
  destruct (x - inject_Z (Qfloor x) ?= 1 # 2)%Q eqn:E.
  - apply Qeq_alt in E. destruct (Z.even (Qfloor x)) eqn:Ev.
    + split; [split; lra | done].
    + rewrite inject_Z_plus. change (inject_Z 1) with 1%Q.
      split; [split; lra|]. intros _.
      change (Qfloor x + 1) with (Z.succ (Qfloor x)).
      by rewrite Z.even_succ, <- Z.negb_even, Ev.
  - apply Qlt_alt in E. split; [split; lra|]. intros [H|H]; lra.
  - apply Qgt_alt in E. rewrite inject_Z_plus. change (inject_Z 1) with 1%Q.
    split; [split; lra|]. intros [H|H]; lra.
Qed.

(** A number has one rounding. *)
Lemma round_half_even_unique (x : Q) (n n' : Z) :
  round_half_even x n → round_half_even x n' → n = n'.
Proof.
  assert (∀ a b : Z, round_half_even x a → round_half_even x b → a < b → False) as Hlt.
  { intros a b [[Ha0 Ha1] Hae] [[Hb0 Hb1] Hbe] Hab.
    assert (a + 1 <= b) as Hab' by lia.
    rewrite Zle_Qle, inject_Z_plus in Hab'. change (inject_Z 1) with 1%Q in Hab'.
    assert (Z.even a = true) as Ea by (apply Hae; left; lra).
    assert (Z.even b = true) as Eb by (apply Hbe; right; lra).
    assert (b <= a + 1) as Hba.
    { rewrite Zle_Qle, inject_Z_plus. change (inject_Z 1) with 1%Q. lra. }
    assert (b = Z.succ a) as -> by lia.
    rewrite Z.even_succ, <- Z.negb_even, Ea in Eb. done. }
  intros Hn Hn'. destruct (Z.lt_trichotomy n n') as [H | [H | H]]; [|done|].
  - destruct (Hlt n n' Hn Hn' H).
  - destruct (Hlt n' n Hn' Hn H).
Qed.

Lemma round_half_even_Qeq (x y : Q) (n : Z) :
  (x == y)%Q → round_half_even x n → round_half_even y n.
Proof.
  intros Heq [[H0 H1] He]. split; [split; lra|].
  intros [H|H]; apply He; [left | right]; lra.
Qed.

Lemma fl_Qeq (x y : Q) : (x == y)%Q → (fl x == fl y)%Q.
Proof using fl_mono. intros Heq. apply Qle_antisym; apply fl_mono; lra. Qed.

#[local] Open Scope Q_scope.

(** With at most [2^48] scenes the two float products are within a
    sixteenth of the exact products. *)
Lemma split_exact (N r t X w v Y : Q) :
  0 < t → t <= 1 # 1606938044258990275541962092341162602522202993782792835301376 →
  0 <= r <= 1 → 0 <= N <= 281474976710656 →
  N * r * (1 - (1 # 9007199254740992)) - t <= X →
  X <= N * r * (1 + (1 # 9007199254740992)) + t →
  0 <= w →
  (1 - r) * (1 - (1 # 9007199254740992)) - t <= w →
  w <= (1 - r) * (1 + (1 # 9007199254740992)) + t →
  0 <= v →
  w * (1 # 2) * (1 - (1 # 9007199254740992)) - t <= v →
  v <= w * (1 # 2) * (1 + (1 # 9007199254740992)) + t →
  N * v * (1 - (1 # 9007199254740992)) - t <= Y →
  Y <= N * v * (1 + (1 # 9007199254740992)) + t →
  (N * r - (1 # 16) <= X <= N * r + (1 # 16)) ∧
  (N * (1 - r) / 2 - (1 # 16) <= Y <= N * (1 - r) / 2 + (1 # 16)).
Proof.
  intros Ht0 Ht Hr HN HX0 HX1 Hw0 Hw1 Hw2 Hv0 Hv1 Hv2 HY0 HY1.
  pose proof (Qmult_bounds N r _ _ HN Hr) as HP.
  assert (N * (1 - r) / 2 == N * (1 # 2) - N * r * (1 # 2)) as Hhalf by field.
  rewrite Hhalf. clear Hhalf.
  assert ((1 - r) * (1 # 2) - (9 # 72057594037927936) <= v) as Hvlo by lra.
  assert (v <= (1 - r) * (1 # 2) + (9 # 72057594037927936)) as Hvhi by lra.
  assert (0 <= v <= 1) as Hv by lra.
  assert (N * v <= N * ((1 - r) * (1 # 2) + (9 # 72057594037927936))) as HNVhi.
  { rewrite !(Qmult_comm N). apply Qmult_le_compat_r; lra. }
  assert (N * ((1 - r) * (1 # 2) - (9 # 72057594037927936)) <= N * v) as HNVlo.
  { rewrite !(Qmult_comm N). apply Qmult_le_compat_r; lra. }
  assert (N * ((1 - r) * (1 # 2) + (9 # 72057594037927936)) ==
          N * (1 # 2) - N * r * (1 # 2) + N * (9 # 72057594037927936)) as Hring1 by ring.
  assert (N * ((1 - r) * (1 # 2) - (9 # 72057594037927936)) ==
          N * (1 # 2) - N * r * (1 # 2) - N * (9 # 72057594037927936)) as Hring2 by ring.
  rewrite Hring1 in HNVhi. rewrite Hring2 in HNVlo. clear Hring1 Hring2.
  pose proof (Qmult_bounds N v _ _ HN Hv) as HNV.
  assert (N * r * (1 - (1 # 9007199254740992)) == N * r - N * r * (1 # 9007199254740992))
    as E1 by ring.
  assert (N * r * (1 + (1 # 9007199254740992)) == N * r + N * r * (1 # 9007199254740992))
    as E2 by ring.
  assert (N * v * (1 - (1 # 9007199254740992)) == N * v - N * v * (1 # 9007199254740992))
    as E3 by ring.
  assert (N * v * (1 + (1 # 9007199254740992)) == N * v + N * v * (1 # 9007199254740992))
    as E4 by ring.
  rewrite E1 in HX0. rewrite E2 in HX1. rewrite E3 in HY0. rewrite E4 in HY1.
  clear E1 E2 E3 E4.
  set (P := N * r) in *. set (NV := N * v) in *.
  assert (281474976710656 * 1 == 281474976710656) as Hc by reflexivity.
  rewrite Hc in HP, HNV. clear Hc. clearbody P NV.
  split; split; lra.
Qed.

#[local] Close Scope Q_scope.

(** The two sizes that [generate] computes are the roundings of the
    float products, and within a half and a sixteenth of the exact
    ones. *)
Lemma split_sizes_exact (n : Z) (r : Q) :
  0 <= n <= 2 ^ 48 → (0 <= r <= 1)%Q →
  round_half_even (fl (inject_Z n * r)) (nb_training_of n r) ∧
  round_half_even (fl (inject_Z n * fl (fl (1 - r) / 2))) (nb_valid_of n r) ∧
  (inject_Z n * r - (9 # 16) <= inject_Z (nb_training_of n r)
     <= inject_Z n * r + (9 # 16))%Q ∧
  (inject_Z n * (1 - r) / 2 - (9 # 16) <= inject_Z (nb_valid_of n r)
     <= inject_Z n * (1 - r) / 2 + (9 # 16))%Q.
Proof using fl_mono fl_int fl_err fl_err_lo.
  intros Hn Hr. unfold nb_training_of, nb_valid_of, float_mul, float_div, float_sub,
    float_of_int.
  destruct float_eps_eta_small as (_ & _ & Ht0 & Ht).
  assert (Z.abs n <= 2 ^ 53) as Habs by lia.
  pose proof (fl_int n Habs) as Hx0.
  assert (0 <= inject_Z n <= 281474976710656)%Q as HN.
  { split; [change 0%Q with (inject_Z 0) | change 281474976710656%Q with (inject_Z (2 ^ 48))];
      rewrite <- Zle_Qle; lia. }
  set (N := inject_Z n) in *.
  assert (∀ x : Q, 0 <= x → x <= 281474976710656 →
            x * (1 - (1 # 9007199254740992)) - float_eta <= fl x ∧
            fl x <= x * (1 + (1 # 9007199254740992)) + float_eta)%Q as Hfl.
  { intros x Hx0' Hx1.
    assert (x <= inject_Z (2 ^ 60))%Q as Hx2.
    { apply Qle_trans with 281474976710656%Q; [done|]. by vm_compute. }
    split; [apply (fl_err_lo x Hx0' Hx2) | apply (fl_err x Hx0' Hx2)]. }
  set (w := fl (1 - r)).
  set (v := fl (w / 2)).
  assert (fl (fl N * r) == fl (N * r))%Q as HXeq.
  { apply fl_Qeq. by rewrite Hx0. }
  assert (fl (fl N * v) == fl (N * v))%Q as HYeq.
  { apply fl_Qeq. by rewrite Hx0. }
  pose proof (Qmult_bounds N r _ _ HN Hr) as HP.
  destruct (Hfl (N * r)%Q) as [HX0 HX1]; [lra | lra |].
  assert (0 <= w)%Q as Hw0 by (apply fl_nonneg; lra).
  destruct (Hfl (1 - r)%Q) as [Hw1 Hw2]; [lra | lra |]. fold w in Hw1, Hw2.
  assert (w / 2 == w * (1 # 2))%Q as Hdiv by reflexivity.
  assert (0 <= v)%Q as Hv0 by (apply fl_nonneg; lra).
  destruct (Hfl (w / 2)%Q) as [Hv1 Hv2]; [lra | lra |]. fold v in Hv1, Hv2.
  rewrite Hdiv in Hv1, Hv2.
  assert (0 <= v <= 1)%Q as Hv by lra.
  pose proof (Qmult_bounds N v _ _ HN Hv) as HNV.
  destruct (Hfl (N * v)%Q) as [HY0 HY1]; [lra | lra |].
  destruct (split_exact N r float_eta (fl (N * r)) w v (fl (N * v)))
    as [HX HY]; try done.
  pose proof (py_round_half_even (fl (fl N * r))) as HT.
  pose proof (py_round_half_even (fl (fl N * v))) as HV.
  apply (round_half_even_Qeq _ _ _ HXeq) in HT.
  apply (round_half_even_Qeq _ _ _ HYeq) in HV.
  split; [done|]. split; [done|]. split.
  - destruct HT as [[HT0 HT1] _]. split; lra.
  - destruct HV as [[HV0 HV1] _]. split; lra.
Qed.

(** C8. The scenes are split in order: the first [round(total * r)] are
    labelled [train], the next [round(total * (1 - r) / 2)] are labelled
    [val] and the rest, [total] minus these two, [test]; every scene is
    in exactly one of the three lists. The ratio is a float between 0
    and 1 and the products are float products; [round] takes the
    nearest integer, the even one of two that are as near. The two sizes
    are within a half and a sixteenth of the exact products. *)
Theorem split_scenes_sizes (scenes_sounds_idx : list (list Z)) (training_set_ratio : Q) :
  (0 <= training_set_ratio <= 1)%Q →
  Forall (Forall in_catalog) scenes_sounds_idx →
  Z.of_nat (length scenes_sounds_idx) <= 2 ^ 48 →
  ∃ (sets : scene_sets) (n_train n_val : Z),
    split_scenes scenes_sounds_idx training_set_ratio = Ok sets ∧
    round_half_even
      (fl (inject_Z (Z.of_nat (length scenes_sounds_idx)) * training_set_ratio)) n_train ∧
    round_half_even
      (fl (inject_Z (Z.of_nat (length scenes_sounds_idx))
           * fl (fl (1 - training_set_ratio) / 2))) n_val ∧
    (inject_Z (Z.of_nat (length scenes_sounds_idx)) * training_set_ratio - (9 # 16)
       <= inject_Z n_train
       <= inject_Z (Z.of_nat (length scenes_sounds_idx)) * training_set_ratio + (9 # 16))%Q ∧
    (inject_Z (Z.of_nat (length scenes_sounds_idx)) * (1 - training_set_ratio) / 2 - (9 # 16)
       <= inject_Z n_val
       <= inject_Z (Z.of_nat (length scenes_sounds_idx)) * (1 - training_set_ratio) / 2
          + (9 # 16))%Q ∧
    Z.of_nat (length (training_scenes sets)) = n_train ∧
    Z.of_nat (length (valid_scenes sets)) = n_val ∧
    Z.of_nat (length (test_scenes sets)) =
      Z.of_nat (length scenes_sounds_idx) - n_train - n_val ∧
    Z.of_nat (length (training_scenes sets)) + Z.of_nat (length (valid_scenes sets))
      + Z.of_nat (length (test_scenes sets)) = Z.of_nat (length scenes_sounds_idx) ∧
    Forall (fun s => split s = train) (training_scenes sets) ∧
    Forall (fun s => split s = val) (valid_scenes sets) ∧
    Forall (fun s => split s = test) (test_scenes sets) ∧
    Forall2 (fun ids s => scene_composition ids = Ok (objects s)) scenes_sounds_idx
      (training_scenes sets ++ valid_scenes sets ++ test_scenes sets).
Proof using fl_mono fl_int fl_err fl_err_lo.
  intros Hr Hl Hlen. unfold split_scenes.
  set (total := Z.of_nat (length scenes_sounds_idx)) in *.
  assert (0 <= total <= 2 ^ 48) as Htotal by lia.
  destruct (split_sizes total training_set_ratio Htotal Hr) as (HT & HV & HTV).
  destruct (split_sizes_exact total training_set_ratio Htotal Hr)
    as (HrT & HrV & HeT & HeV).
  set (T := nb_training_of total training_set_ratio) in *.
  set (V := nb_valid_of total training_set_ratio) in *.
  edestruct (label_scenes_spec scenes_sounds_idx T V 0 0 0 0) as
    (tr & va & te & -> & Htr & Hva & Hte & Hltr & Hlva & Hall); [done|].
  exists {| training_scenes := tr; valid_scenes := va; test_scenes := te |}, T, V.
  simpl.
  pose proof (Forall2_length _ _ _ Hall) as Hlens. rewrite !length_app in Hlens.
  fold total in Hltr, Hlva.
  split; [done|]. split; [exact HrT|]. split; [exact HrV|].
  split; [exact HeT|]. split; [exact HeV|].
  split_and!; try done; lia.
Qed.


(** ** Fuel

    A loop that has exited within some fuel exits in the same way with
    more. *)

Lemma next_id_loop_mono (fuel fuel' : nat) (excluded : list Z) (i : Z) (g : rng)
    (r : Z * rng) :
  (fuel <= fuel')%nat →
  next_id_loop fuel excluded i g = Ok r → next_id_loop fuel' excluded i g = Ok r.
Proof.
  revert fuel' i g. induction fuel as [|fuel IH]; intros fuel' i g Hle; simpl.
  - case_bool_decide as Hin; [done|]. intros <-.
    destruct fuel'; simpl; by rewrite bool_decide_eq_false_2.
  - destruct fuel' as [|fuel']; [lia|]. simpl.
    case_bool_decide as Hin; [|done].
    destruct (randint 0 (nb_sounds - 1) g) as [[i1 g1]| |]; try done.
    simpl. apply IH. lia.
Qed.

Lemma next_id_mono (fuel fuel' : nat) (st siblings : list Z) (g : rng) (r : Z * rng) :
  (fuel <= fuel')%nat →
  next_id fuel st siblings g = Ok r → next_id fuel' st siblings g = Ok r.
Proof.
  intros Hle. unfold next_id.
  destruct (randint 0 (nb_sounds - 1) g) as [[i1 g1]| |]; try done.
  simpl. by apply next_id_loop_mono.
Qed.

Lemma go_up_mono (fuel fuel' : nat) (hp : heap) (nn : option handle) (st : list Z)
    (r : option handle * list Z * bool) :
  (fuel <= fuel')%nat →
  go_up fuel hp nn st = Ok r → go_up fuel' hp nn st = Ok r.
Proof.
  revert fuel' nn st. induction fuel as [|fuel IH]; intros fuel' nn st Hle.
  - destruct nn as [h|]; simpl; [|done].
    destruct (deref hp h) as [n| |] eqn:Hn; try done. simpl.
    destruct (nb_tree_branch <=? Z.of_nat (length (childs n))) eqn:Ew; [done|].
    intros <-. destruct fuel'; simpl; rewrite Hn; simpl; by rewrite Ew.
  - destruct fuel' as [|fuel']; [lia|].
    destruct nn as [h|]; simpl; [|done].
    destruct (deref hp h) as [n| |]; try done. simpl.
    destruct (nb_tree_branch <=? Z.of_nat (length (childs n))); [|done].
    destruct (parent n); [|done].
    destruct (py_pop st); try done. simpl. apply IH. lia.
Qed.

Lemma loop_body_mono (fuel fuel' : nat) (m m' : machine) :
  (fuel <= fuel')%nat →
  loop_body fuel m = Ok m' → loop_body fuel' m = Ok m'.
Proof.
  intros Hle. unfold loop_body.
  destruct (next_node m) as [c|]; [|done].
  destruct (deref (nodes m) c) as [cur| |]; try done. simpl.
  destruct (level cur <? nb_objects_per_scene - 1).
  - destruct (Z.of_nat (length (childs cur)) <? nb_tree_branch); [|done].
    destruct (childs_sound_ids (nodes m) (childs cur)) as [siblings| |]; try done. simpl.
    destruct (next_id fuel (state m) siblings (gen m)) as [r| |] eqn:Hid; try done.
    by rewrite (next_id_mono _ _ _ _ _ _ Hle Hid).
  - destruct (validate_final (state m)) as [valid| |]; try done. simpl.
    destruct (valid && limit_reached nb_to_generate (start_index m)); [done|].
    destruct (py_pop (state m)) as [st| |]; try done. simpl.
    destruct (go_up fuel (nodes m) (parent cur) st) as [r| |] eqn:Hup; try done.
    by rewrite (go_up_mono _ _ _ _ _ _ Hle Hup).
Qed.

Lemma while_continue_work_mono (iterations iterations' fuel fuel' : nat) (m m' : machine) :
  (iterations <= iterations')%nat → (fuel <= fuel')%nat →
  while_continue_work iterations fuel m = Ok m' →
  while_continue_work iterations' fuel' m = Ok m'.
Proof.
  intros Hit Hle. revert iterations' m Hit.
  induction iterations as [|iterations IH]; intros iterations' m Hit; simpl.
  - destruct (continue_work m) eqn:Hcw; [done|]. intros <-.
    destruct iterations'; simpl; by rewrite Hcw.
  - destruct iterations' as [|iterations']; [lia|]. simpl.
    destruct (continue_work m); [|done].
    destruct (loop_body fuel m) as [m1| |] eqn:Hbody; try done.
    rewrite (loop_body_mono _ _ _ _ Hle Hbody). simpl. apply IH. lia.
Qed.

Lemma _generate_scenes_idx_mono (fuel fuel' : nat) (start : Z) (g : rng)
    (r : list (list Z) * rng) :
  (fuel <= fuel')%nat →
  _generate_scenes_idx fuel start g = Ok r → _generate_scenes_idx fuel' start g = Ok r.
Proof.
  intros Hle. unfold _generate_scenes_idx, run_search.
  destruct (while_continue_work fuel fuel _) as [m| |] eqn:Hrun; try done.
  by rewrite (while_continue_work_mono _ _ _ _ _ _ Hle Hle Hrun).
Qed.


(** ** Termination

    The search returns when every draw does: each iteration that does
    not end the loop either allocates a node, and the tree has room for
    finitely many, or climbs. *)

Lemma full_tree_nonneg (d : nat) : 0 <= nb_tree_branch → 0 <= full_tree d.
Proof. intros HW. induction d as [|d IH]; simpl; [lia|]. apply Z.add_nonneg_nonneg; [lia|]. by apply Z.mul_nonneg_nonneg. Qed.

Lemma slot_weight_nonneg (lvl : Z) : 0 <= nb_tree_branch → 0 <= slot_weight lvl.
Proof.
  intros HW. unfold slot_weight. destruct (lvl <? _); [|done]. by apply full_tree_nonneg.
Qed.

Lemma slot_weight_step (lvl : Z) :
  lvl < nb_objects_per_scene - 1 →
  slot_weight lvl = 1 + nb_tree_branch * slot_weight (lvl + 1).
Proof.
  intros Hl. unfold slot_weight.
  assert ((lvl <? nb_objects_per_scene - 1) = true) as -> by lia.
  destruct (lvl + 1 <? nb_objects_per_scene - 1) eqn:E.
  - replace (Z.to_nat (nb_objects_per_scene - 2 - lvl))
      with (S (Z.to_nat (nb_objects_per_scene - 2 - (lvl + 1)))) by lia.
    done.
  - replace (Z.to_nat (nb_objects_per_scene - 2 - lvl)) with 0%nat by lia.
    simpl. lia.
Qed.

Lemma sum_app (l k : list Z) :
  foldr Z.add 0 (l ++ k) = foldr Z.add 0 l + foldr Z.add 0 k.
Proof. induction l as [|x l IH]; simpl; lia. Qed.

Lemma sum_insert (l : list Z) (i : nat) (x y : Z) :
  l !! i = Some x → foldr Z.add 0 (<[i := y]> l) = foldr Z.add 0 l - x + y.
Proof.
  revert i. induction l as [|a l IH]; intros [|i]; simpl; try done.
  - intros [= ->]. lia.
  - intros Hi. rewrite (IH i Hi). lia.
Qed.

Lemma free_capacity_nonneg (hp : heap) :
  0 <= nb_tree_branch → heap_inv hp → 0 <= free_capacity hp.
Proof.
  intros HW [_ Hwidth]. unfold free_capacity.
  induction Hwidth as [|n hp Hn _ IH]; simpl; [done|].
  apply Z.add_nonneg_nonneg; [|done]. unfold node_capacity.
  apply Z.mul_nonneg_nonneg; [lia | by apply slot_weight_nonneg].
Qed.

Lemma add_child_eq (hp hp' : heap) (self child : handle) (id : Z) :
  add_child hp self id = Ok (hp', child) →
  ∃ n : Node,
    hp !! self = Some n ∧ child = length hp ∧
    hp' = <[self := with_childs n (childs n ++ [child])]>
            (hp ++ [ {| childs := []; level := level n + 1; sound_id := id;
                        overlapping_last := false; parent := Some self |} ]).
Proof.
  unfold add_child. intros H. apply bind_Ok in H as (n & Hn%deref_Ok & [= <- <-]).
  by exists n.
Qed.

(** A new child takes one unit of the room left. *)
Lemma add_child_free_capacity (hp hp' : heap) (self child : handle) (id : Z) (n : Node) :
  hp !! self = Some n → level n < nb_objects_per_scene - 1 →
  add_child hp self id = Ok (hp', child) →
  free_capacity hp' = free_capacity hp - 1.
Proof.
  intros Hn Hl Hadd. apply add_child_eq in Hadd as (n' & Hn' & -> & ->).
  assert (n' = n) as -> by congruence.
  unfold free_capacity. rewrite list_fmap_insert, fmap_app.
  rewrite (sum_insert _ _ (node_capacity n)).
  - rewrite sum_app. simpl. unfold node_capacity. simpl.
    rewrite length_app. simpl. rewrite (slot_weight_step (level n)) by done.
    set (s1 := slot_weight (level n + 1)).
    set (k := Z.of_nat (length (childs n))).
    replace (Z.of_nat (length (childs n) + 1)) with (k + 1) by lia.
    generalize (foldr Z.add 0 (node_capacity <$> hp)). intros total.
    fold node_capacity. unfold node_capacity. fold k. ring.
  - rewrite lookup_app_l by (rewrite length_fmap; by eapply lookup_lt_Some).
    by rewrite list_lookup_fmap, Hn.
Qed.

Lemma add_child_heap_inv (hp hp' : heap) (self child : handle) (id : Z) (n : Node) :
  hp !! self = Some n → Z.of_nat (length (childs n)) < nb_tree_branch →
  0 <= nb_tree_branch →
  add_child hp self id = Ok (hp', child) → heap_inv hp → heap_inv hp'.
Proof.
  intros Hn Hw HW Hadd [Hvalid Hwidth].
  pose proof (add_child_eq _ _ _ _ _ Hadd) as (n0 & _ & _ & Hhp').
  apply add_child_Ok in Hadd as (n' & Hn' & -> & Hself & Hchild & Hother).
  assert (n' = n) as -> by congruence.
  assert (length hp' = S (length hp)) as Hlen.
  { rewrite Hhp', length_insert, length_app. simpl. lia. }
  split.
  - intros h x Hx. rewrite Hlen.
    destruct (decide (h = self)) as [->|Hne].
    + rewrite Hself in Hx. injection Hx as <-. simpl.
      apply Forall_app. split; [|repeat constructor; lia].
      eapply Forall_impl; [by eapply Hvalid|]. simpl. lia.
    + destruct (decide (h = length hp)) as [->|Hne'].
      * rewrite Hchild in Hx. injection Hx as <-. constructor.
      * rewrite Hother in Hx by done.
        eapply Forall_impl; [by eapply Hvalid|]. simpl. lia.
  - apply Forall_lookup_2. intros h x Hx.
    destruct (decide (h = self)) as [->|Hne].
    + rewrite Hself in Hx. injection Hx as <-. simpl. rewrite length_app. simpl. lia.
    + destruct (decide (h = length hp)) as [->|Hne'].
      * rewrite Hchild in Hx. injection Hx as <-. simpl. lia.
      * rewrite Hother in Hx by done. by eapply (Forall_lookup_1 _ _ _ _ Hwidth).
Qed.

Lemma step_heap_inv (m m' : machine) :
  0 <= nb_tree_branch → step m m' → heap_inv (nodes m) → heap_inv (nodes m').
Proof.
  intros HW Hstep Hinv.
  destruct Hstep as
    [ c cur siblings fuel id g' hp' child Hnn Hc Hl Hw Hsib Hid Hadd Hval
    | c cur siblings fuel id g' hp' child Hnn Hc Hl Hw Hsib Hid Hadd Hval
    | | | | ]; simpl; try done; by eapply add_child_heap_inv.
Qed.

(** An iteration after which the loop goes on makes the measure smaller. *)
Lemma step_measure (start : Z) (m m' : machine) :
  search_inv start m → continue_work m = true → step m m' →
  continue_work m' = true → search_measure m' < search_measure m.
Proof.
  intros Hinv Hcw Hstep Hcw'. unfold search_measure.
  destruct Hstep as
    [ c cur siblings fuel id g' hp' child Hnn Hc Hl Hw Hsib Hid Hadd Hval
    | c cur siblings fuel id g' hp' child Hnn Hc Hl Hw Hsib Hid Hadd Hval
    | c cur Hnn Hc Hl Hw Hp
    | c cur p st x Hnn Hc Hl Hw Hp Hst
    | c cur Hnn Hc Hl Hval Hlimit
    | c cur valid st x fuel nn st' cw Hnn Hc Hl Hval Hlimit Hst Hup ]; simpl in *;
    try done.
  - rewrite (add_child_free_capacity _ _ _ _ _ _ Hc Hl Hadd), length_app. simpl. lia.
  - rewrite (add_child_free_capacity _ _ _ _ _ _ Hc Hl Hadd). lia.
  - rewrite Hst, length_app. simpl. lia.
  - destruct (inv_current _ _ Hinv Hcw) as (c0 & cur0 & Hnn0 & Hc0 & Hlev).
    assert (c0 = c) as -> by congruence. assert (cur0 = cur) as -> by congruence.
    destruct (parent cur) as [p|] eqn:Hp; [|by rewrite go_up_None in Hup].
    destruct (tree_parent _ (inv_tree _ _ Hinv) c cur p Hc Hp) as (pn & Hpn & Hlp).
    rewrite Hst, length_app in Hlev. simpl in Hlev.
    eapply go_up_Ok in Hup as ([rest ->] & _ & _);
      [| apply (inv_tree _ _ Hinv) | done | lia].
    rewrite Hst, !length_app. simpl. lia.
Qed.


Lemma childs_sound_ids_Ok (hp : heap) (cs : list handle) :
  Forall (fun c => (c < length hp)%nat) cs →
  ∃ ids, childs_sound_ids hp cs = Ok ids ∧ length ids = length cs.
Proof.
  induction 1 as [|c cs Hc _ (ids & IH & Hlen)]; simpl; [by exists []|].
  destruct (lookup_lt_is_Some_2 hp c Hc) as [n Hn].
  rewrite (proj2 (deref_Ok _ _ _) Hn), bind_ret, IH, bind_ret.
  eexists. split; [done|]. simpl. by rewrite Hlen.
Qed.

Lemma pop_if_nonempty_total (st : list Z) : ∃ st', pop_if_nonempty st = Ok st'.
Proof.
  destruct st as [|x st] using rev_ind; [by exists []|].
  exists st. apply pop_if_nonempty_snoc.
Qed.

Lemma go_up_total (fuel : nat) (hp : heap) (h : handle) (n : Node) (st : list Z) :
  tree_inv hp → hp !! h = Some n → level n = Z.of_nat (length st) - 1 →
  (length st < fuel)%nat →
  ∃ r, go_up fuel hp (Some h) st = Ok r.
Proof.
  intros Htree. revert h n st.
  induction fuel as [|fuel IH]; intros h n st Hn Hlev Hfuel; [lia|].
  simpl. rewrite (proj2 (deref_Ok _ _ _) Hn), bind_ret.
  destruct (nb_tree_branch <=? Z.of_nat (length (childs n))); [|eauto].
  destruct (parent n) as [p|] eqn:Hp; [|eauto].
  destruct (tree_parent _ Htree h n p Hn Hp) as (pn & Hpn & Hlp).
  pose proof (tree_level_lo _ Htree p pn Hpn) as Hlo.
  destruct st as [|x st _] using rev_ind; [simpl in Hlev; lia|].
  rewrite py_pop_snoc, bind_ret. rewrite length_app in Hlev, Hfuel. simpl in *.
  apply (IH p pn st); [done | lia | lia].
Qed.

(** With room in the catalog and fuel enough, an iteration raises no
    exception and does not run out of fuel. *)
Lemma loop_body_progress (start : Z) (F fuel : nat) (m : machine) :
  1 <= nb_objects_per_scene →
  nb_objects_per_scene + nb_tree_branch - 2 < nb_sounds →
  draws_return F → (F <= fuel)%nat → nb_objects_per_scene <= Z.of_nat fuel →
  search_inv start m → heap_inv (nodes m) → continue_work m = true →
  ∃ m', loop_body fuel m = Ok m'.
Proof using set_iter_perm randbelow_range.
  intros HL HN Hdraws HF Hfuel Hinv Hheap Hcw.
  pose proof (inv_tree _ _ Hinv) as Htree.
  pose proof (inv_state_catalog _ _ Hinv) as Hcat.
  destruct (inv_current _ _ Hinv Hcw) as (c & cur & Hnn & Hc & Hlev).
  unfold loop_body. rewrite Hnn, (proj2 (deref_Ok _ _ _) Hc), bind_ret.
  destruct (level cur <? nb_objects_per_scene - 1) eqn:El.
  - destruct (Z.of_nat (length (childs cur)) <? nb_tree_branch) eqn:Ew.
    + destruct (childs_sound_ids_Ok (nodes m) (childs cur)) as (siblings & -> & Hlen);
        [by eapply (heap_childs_valid _ Hheap)|].
      rewrite bind_ret.
      destruct (Hdraws (state m) siblings (gen m)) as [[id g'] Hid]; [lia|].
      rewrite (next_id_mono _ _ _ _ _ _ HF Hid), bind_ret.
      destruct (add_child (nodes m) c id) as [[hp' child]| |] eqn:Hadd;
        [| unfold add_child in Hadd; by rewrite (proj2 (deref_Ok _ _ _) Hc) in Hadd ..].
      rewrite bind_ret.
      destruct (add_child_Ok _ _ _ _ _ Hadd) as (n & _ & _ & _ & Hchild & _).
      rewrite (proj2 (deref_Ok _ _ _) Hchild), bind_ret.
      rewrite validate_intermediate_eq, bind_ret.
      * destruct (negb _); [eauto|]. rewrite pop_if_nonempty_snoc, bind_ret. eauto.
      * apply Forall_app. split; [done|]. constructor; [|done].
        by apply next_id_Ok in Hid as (? & _).
    + destruct (parent cur); [|eauto].
      destruct (pop_if_nonempty_total (state m)) as [st ->]. rewrite bind_ret. eauto.
  - rewrite validate_final_eq, bind_ret by done.
    destruct (_ && limit_reached _ _); [eauto|].
    destruct (state m) as [|x st _] eqn:Hst using rev_ind; [simpl in Hlev; lia|].
    rewrite py_pop_snoc, bind_ret. rewrite length_app in Hlev. simpl in Hlev.
    destruct (parent cur) as [p|] eqn:Hp.
    + destruct (tree_parent _ Htree c cur p Hc Hp) as (pn & Hpn & Hlp).
      pose proof (tree_level_hi _ Htree c cur Hc) as Hhi.
      destruct (go_up_total fuel (nodes m) p pn st Htree Hpn) as [[[nn st'] cw] ->];
        [lia | lia |].
      rewrite bind_ret. eauto.
    + destruct (tree_root _ Htree c cur Hc Hp) as [_ Hroot]. lia.
Qed.

Lemma search_measure_nonneg (m : machine) :
  0 <= nb_tree_branch → heap_inv (nodes m) → 0 <= search_measure m.
Proof.
  intros HW Hheap. unfold search_measure.
  pose proof (free_capacity_nonneg _ HW Hheap). lia.
Qed.

Lemma while_continue_work_halted (iterations fuel : nat) (m : machine) :
  continue_work m = false → while_continue_work iterations fuel m = Ok m.
Proof. intros Hcw. destruct iterations; simpl; by rewrite Hcw. Qed.

Lemma while_continue_work_total (start : Z) (F fuel iterations : nat) (m : machine) :
  1 <= nb_objects_per_scene → 0 <= nb_tree_branch →
  nb_objects_per_scene + nb_tree_branch - 2 < nb_sounds →
  draws_return F → (F <= fuel)%nat → nb_objects_per_scene <= Z.of_nat fuel →
  search_inv start m → heap_inv (nodes m) →
  search_measure m < Z.of_nat iterations →
  ∃ m', while_continue_work iterations fuel m = Ok m'.
Proof using set_iter_perm randbelow_range.
  intros HL HW HN Hdraws HF Hfuel. revert m.
  induction iterations as [|iterations IH]; intros m Hinv Hheap Hmeasure.
  - pose proof (search_measure_nonneg m HW Hheap). lia.
  - destruct (continue_work m) eqn:Hcw; [|exists m; by apply while_continue_work_halted].
    destruct (loop_body_progress start F fuel m) as [m1 Hbody]; try done.
    rewrite while_continue_work_S, Hbody, bind_ret by done.
    pose proof (loop_body_step _ _ _ _ Hinv Hcw Hbody) as Hstep.
    destruct (continue_work m1) eqn:Hcw1;
      [|exists m1; by apply while_continue_work_halted].
    apply IH.
    + by eapply step_inv.
    + by eapply step_heap_inv.
    + pose proof (step_measure _ _ _ Hinv Hcw Hstep Hcw1). lia.
Qed.

(** With scenes of at least one sound, fewer than [nb_sounds] sounds
    ever excluded from a draw, and every draw returning, the search
    returns once the fuel exceeds twice the size of the full tree. *)
Lemma run_search_total (F fuel : nat) (start : Z) (g : rng) :
  1 <= nb_objects_per_scene → 0 <= nb_tree_branch →
  nb_objects_per_scene + nb_tree_branch - 2 < nb_sounds →
  draws_return F → (F <= fuel)%nat → nb_objects_per_scene <= Z.of_nat fuel →
  2 * nb_tree_branch * full_tree (Z.to_nat (nb_objects_per_scene - 1)) < Z.of_nat fuel →
  ∃ m, run_search fuel start g = Ok m.
Proof using set_iter_perm randbelow_range.
  intros HL HW HN Hdraws HF Hfuel Hsize. unfold run_search.
  apply (while_continue_work_total start F); try done.
  - apply init_machine_inv.
  - split.
    + intros [|h] n; simpl; [intros [= <-]; constructor | by rewrite lookup_nil].
    + repeat constructor. simpl. lia.
  - unfold search_measure, free_capacity, node_capacity, slot_weight. simpl.
    assert ((-1 <? nb_objects_per_scene - 1) = true) as -> by lia.
    replace (nb_objects_per_scene - 2 - -1) with (nb_objects_per_scene - 1) by lia.
    lia.
Qed.


Lemma next_id_loop_returns (excluded : list Z) (k fuel : nat) (g : rng) :
  0 < nb_sounds → (nth_draw k g).1 ∉ excluded → (k <= fuel)%nat →
  ∃ r, next_id_loop fuel excluded (randbelow nb_sounds g).1 (randbelow nb_sounds g).2
       = Ok r.
Proof.
  intros HN. revert fuel g. induction k as [|k IH]; intros fuel g Hk Hfuel.
  - simpl in Hk. destruct fuel; simpl; rewrite bool_decide_eq_false_2 by done; eauto.
  - destruct (decide ((randbelow nb_sounds g).1 ∈ excluded)) as [Hin|Hin].
    + destruct fuel as [|fuel]; [lia|]. simpl.
      rewrite bool_decide_eq_true_2, randint_draw by done.
      destruct (randbelow nb_sounds (randbelow nb_sounds g).2) as [i1 g1] eqn:E. simpl.
      replace i1 with (randbelow nb_sounds (randbelow nb_sounds g).2).1 by (by rewrite E).
      replace g1 with (randbelow nb_sounds (randbelow nb_sounds g).2).2 by (by rewrite E).
      apply IH; [done | lia].
    + destruct fuel; simpl; rewrite bool_decide_eq_false_2 by done; eauto.
Qed.

Lemma next_id_returns (st siblings : list Z) (k fuel : nat) (g : rng) :
  0 < nb_sounds → (nth_draw k g).1 ∉ st ++ siblings → (k <= fuel)%nat →
  ∃ r, next_id fuel st siblings g = Ok r.
Proof.
  intros HN Hk Hfuel. unfold next_id. rewrite randint_draw by done.
  destruct (randbelow nb_sounds g) as [i0 g0] eqn:E. simpl.
  replace i0 with (randbelow nb_sounds g).1 by (by rewrite E).
  replace g0 with (randbelow nb_sounds g).2 by (by rewrite E).
  apply (next_id_loop_returns _ k); [done | | done].
  by rewrite elem_of_remove_dups.
Qed.

(** Fewer ids than the catalog has sounds leave one out. *)
Lemma free_sound (l : list Z) :
  Z.of_nat (length l) < nb_sounds → ∃ i, in_catalog i ∧ i ∉ l.
Proof.
  intros Hlen.
  destruct (decide (Forall (fun i => i ∈ l) (seqZ 0 nb_sounds))) as [Hall|Hnot].
  - exfalso. rewrite Forall_forall in Hall.
    pose proof (submseteq_length _ _ (NoDup_submseteq _ _ (NoDup_seqZ 0 nb_sounds) Hall))
      as Hle.
    rewrite length_seqZ in Hle. lia.
  - apply not_Forall_Exists in Hnot; [|apply _].
    apply Exists_exists in Hnot as (i & Hi & Hout).
    exists i. split; [|done]. apply elem_of_seqZ in Hi. unfold in_catalog. lia.
Qed.



(** ** The scenes of a search: valid, and all different *)

(** What [add_child] keeps of a node, and what the new heap holds. *)
Lemma add_child_old (hp hp' : heap) (self child : handle) (id : Z) (h : handle) (y : Node) :
  add_child hp self id = Ok (hp', child) → hp !! h = Some y →
  ∃ x : Node, hp' !! h = Some x ∧ level x = level y ∧ parent x = parent y ∧
    sound_id x = sound_id y ∧
    (childs x = childs y ∨ (h = self ∧ childs x = childs y ++ [child])).
Proof.
  intros Hadd Hy.
  apply add_child_Ok in Hadd as (n & Hn & -> & Hself & Hchild & Hother).
  destruct (decide (h = self)) as [->|Hne].
  - assert (y = n) as -> by congruence.
    eexists. split; [done|]. simpl. split_and!; try done. by right.
  - exists y. rewrite Hother; [|done|apply lookup_lt_Some in Hy; lia].
    split_and!; try done. by left.
Qed.

Lemma add_child_cases (hp hp' : heap) (self child : handle) (id : Z) (h : handle) (x : Node) :
  add_child hp self id = Ok (hp', child) → hp' !! h = Some x →
  (h = child ∧ childs x = [] ∧ sound_id x = id ∧ parent x = Some self) ∨
  (h ≠ child ∧ ∃ y : Node, hp !! h = Some y ∧ level x = level y ∧ parent x = parent y ∧
     sound_id x = sound_id y ∧
     (childs x = childs y ∨ (h = self ∧ childs x = childs y ++ [child]))).
Proof.
  intros Hadd Hx.
  destruct (add_child_Ok _ _ _ _ _ Hadd) as (n & Hn & Hc & Hself & Hchild & Hother).
  destruct (decide (h = child)) as [->|Hne].
  - left. rewrite Hchild in Hx. injection Hx as <-. done.
  - right. split; [done|].
    destruct (decide (h = self)) as [->|Hne'].
    + exists n. rewrite Hself in Hx. injection Hx as <-. simpl.
      split_and!; try done. by right.
    + exists x. rewrite Hother in Hx by done. split_and!; try done. by left.
Qed.

Lemma childs_sound_ids_elem (hp : heap) (cs : list handle) (ids : list Z)
    (c : handle) (n : Node) :
  childs_sound_ids hp cs = Ok ids → c ∈ cs → hp !! c = Some n → sound_id n ∈ ids.
Proof.
  revert ids. induction cs as [|c0 cs IH]; intros ids; simpl.
  - intros _ Hc. by apply elem_of_nil in Hc.
  - intros H Hc Hn. apply bind_Ok in H as (n0 & Hn0%deref_Ok & H).
    apply bind_Ok in H as (ids0 & Hids0 & [= <-]).
    apply elem_of_cons in Hc as [->|Hc].
    + assert (n0 = n) as -> by congruence. by left.
    + right. by apply IH.
Qed.

Lemma at_path_lookup (hp : heap) (p : list Z) (c : handle) :
  at_path hp p c → ∃ n : Node, hp !! c = Some n.
Proof. destruct 1; eauto. Qed.

Lemma at_path_add_child (hp hp' : heap) (self child : handle) (id : Z)
    (p : list Z) (c : handle) :
  add_child hp self id = Ok (hp', child) → at_path hp p c → at_path hp' p c.
Proof.
  intros Hadd. induction 1 as [root Hroot Hp | p a c n Ha IH Hn Hp].
  - destruct (add_child_old _ _ _ _ _ _ _ Hadd Hroot) as (x & Hx & _ & Hpx & _).
    apply (at_path_root _ x); [done | congruence].
  - destruct (add_child_old _ _ _ _ _ _ _ Hadd Hn) as (x & Hx & _ & Hpx & Hsx & _).
    rewrite <- Hsx. apply (at_path_child _ _ a); [done | done | congruence].
Qed.

(** The path of a node ends with its sound; the rest is the path of its
    parent. *)
Lemma at_path_parent (hp : heap) (p : list Z) (x : Z) (c a : handle) (n : Node) :
  at_path hp (p ++ [x]) c → hp !! c = Some n → parent n = Some a →
  at_path hp p a ∧ x = sound_id n.
Proof.
  intros Hpath Hn Hp. remember (p ++ [x]) as q eqn:Hq.
  destruct Hpath as [root Hroot Hpr | p' a' c n' Ha Hn' Hp'].
  - by destruct p.
  - apply app_inj_tail in Hq as [-> <-].
    assert (n' = n) as -> by congruence.
    assert (a' = a) as -> by congruence. done.
Qed.

(** Two nodes with the same path are the same node. *)
Lemma at_path_inj (hp : heap) (p : list Z) (a b : handle) :
  path_inv hp → at_path hp p a → at_path hp p b → a = b.
Proof.
  intros Hinv Ha. revert b.
  induction Ha as [root Hroot Hp | p a c n Ha IH Hn Hp]; intros b Hb.
  - remember [] as q eqn:Hq. destruct Hb as [|p' a' c' n' _ _ _]; [done|].
    by destruct p'.
  - remember (p ++ [sound_id n]) as q eqn:Hq.
    destruct Hb as [|p' a' c' n' Ha' Hn' Hp']; [by destruct p|].
    apply app_inj_tail in Hq as [-> Hs].
    apply IH in Ha'. subst a'.
    by apply (path_siblings hp Hinv a c c' n n').
Qed.

Lemma add_child_path_inv (hp hp' : heap) (self child : handle) (id : Z) (n : Node)
    (siblings : list Z) :
  path_inv hp → hp !! self = Some n →
  childs_sound_ids hp (childs n) = Ok siblings → id ∉ siblings →
  add_child hp self id = Ok (hp', child) → path_inv hp'.
Proof.
  intros [Hof Hpar Hnd Hsib] Hn Hids Hid Hadd.
  pose proof (fun h y => add_child_old _ _ _ _ _ h y Hadd) as Hold.
  pose proof (fun h x => add_child_cases _ _ _ _ _ h x Hadd) as Hcases.
  destruct (add_child_Ok _ _ _ _ _ Hadd) as (n' & Hn' & Hc & Hself & Hchild & _).
  assert (n' = n) as -> by congruence.
  split.
  - intros h x a Hx Hp. apply Hcases in Hx as [(-> & _ & _ & Hpx) | (_ & y & Hy & _ & Hpy & _)].
    + assert (a = self) as -> by congruence.
      eexists. split; [done|]. simpl. apply elem_of_app. right. by left.
    + rewrite Hpy in Hp. destruct (Hof h y a Hy Hp) as (an & Han & Hin).
      destruct (Hold a an Han) as (an' & Han' & _ & _ & _ & [Hch | [_ Hch]]);
        exists an'; (split; [done|]); rewrite Hch; [done|].
      apply elem_of_app. by left.
  - intros a an c Han Hin.
    apply Hcases in Han as [(-> & Hch & _) | (_ & y & Hy & _ & _ & _ & Hch)].
    + rewrite Hch in Hin. by apply elem_of_nil in Hin.
    + assert (c ∈ childs y ∨ (a = self ∧ c = child)) as [Hcy | [-> ->]].
      { destruct Hch as [Hch | [-> Hch]]; rewrite Hch in Hin; [by left|].
        apply elem_of_app in Hin as [Hin | ->%list_elem_of_singleton]; [by left | by right]. }
      * destruct (Hpar a y c Hy Hcy) as (cn & Hcn & Hpcn).
        destruct (Hold c cn Hcn) as (cn' & Hcn' & _ & Hp' & _).
        exists cn'. split; [done | congruence].
      * eexists. split; [done|]. done.
  - intros a an Han.
    apply Hcases in Han as [(-> & Hch & _) | (_ & y & Hy & _ & _ & _ & Hch)].
    + rewrite Hch. constructor.
    + destruct Hch as [Hch | [-> Hch]]; rewrite Hch; [by eapply Hnd|].
      assert (y = n) as -> by congruence.
      apply NoDup_app. split_and!; [by eapply Hnd | | apply NoDup_singleton].
      intros c Hin ->%list_elem_of_singleton.
      destruct (Hpar self n _ Hn Hin) as (cn & Hcn%lookup_lt_Some & _). lia.
  - intros a c1 c2 n1 n2 H1 H2 Hp1 Hp2 Hs.
    apply Hcases in H1 as [(-> & _ & Hs1 & Hpx1) | (Hne1 & y1 & Hy1 & _ & Hpy1 & Hsy1 & _)];
    apply Hcases in H2 as [(-> & _ & Hs2 & Hpx2) | (Hne2 & y2 & Hy2 & _ & Hpy2 & Hsy2 & _)].
    + done.
    + exfalso. apply Hid. assert (a = self) as -> by congruence.
      rewrite Hpy2 in Hp2. destruct (Hof c2 y2 self Hy2 Hp2) as (an & Han & Hin).
      assert (an = n) as -> by congruence.
      rewrite <- Hs1, Hs, Hsy2. by eapply childs_sound_ids_elem.
    + exfalso. apply Hid. assert (a = self) as -> by congruence.
      rewrite Hpy1 in Hp1. destruct (Hof c1 y1 self Hy1 Hp1) as (an & Han & Hin).
      assert (an = n) as -> by congruence.
      rewrite <- Hs2, <- Hs, Hsy1. by eapply childs_sound_ids_elem.
    + apply (Hsib a c1 c2 y1 y2); congruence.
Qed.


Lemma go_up_path (fuel : nat) (hp : heap) (h : handle) (st st' : list Z)
    (nn : option handle) :
  at_path hp st h → go_up fuel hp (Some h) st = Ok (nn, st', true) →
  ∃ c : handle, nn = Some c ∧ at_path hp st' c.
Proof.
  revert h st. induction fuel as [|fuel IH]; intros h st Hpath;
    destruct (at_path_lookup _ _ _ Hpath) as [n Hn]; simpl;
    rewrite (proj2 (deref_Ok _ _ _) Hn), bind_ret;
    destruct (nb_tree_branch <=? Z.of_nat (length (childs n))); try done;
    try (intros [= <- <-]; by eauto).
  destruct (parent n) as [p|] eqn:Hp; [|done].
  intros H. apply bind_Ok in H as (st1 & [x ->]%py_pop_Ok & H).
  apply (IH p st1); [|done]. by eapply at_path_parent.
Qed.

Lemma init_machine_paths (start : Z) (g : rng) :
  path_inv (nodes (init_machine start g)) ∧ cur_path (init_machine start g) ∧
  emitted_inv (init_machine start g) [].
Proof.
  assert (∀ h n, [root_node] !! h = Some n → h = 0%nat ∧ n = root_node) as Hone.
  { intros [|h] n; simpl; [by intros [= <-] | by rewrite lookup_nil]. }
  split_and!.
  - split; simpl.
    + by intros h n a [-> ->]%Hone.
    + intros a an c [-> ->]%Hone Hc. by apply elem_of_nil in Hc.
    + intros a an [-> ->]%Hone. constructor.
    + by intros a c1 c2 n1 n2 [-> ->]%Hone [-> ->]%Hone.
  - intros _. exists 0%nat. split; [done|]. by apply (at_path_root _ root_node).
  - split; simpl; [constructor | constructor | constructor |].
    intros c _ _ Hc. by apply elem_of_nil in Hc.
Qed.

(** The leaves emitted lie at the bottom of the tree: a node above it is
    none of them. *)
Lemma emitted_above (m : machine) (leaves : list handle) (c : handle) (n : Node) :
  emitted_inv m leaves → nodes m !! c = Some n → level n < nb_objects_per_scene - 1 →
  c ∉ leaves.
Proof.
  intros Hem Hc Hl Hin.
  pose proof (emitted_levels _ _ Hem) as Hlev. rewrite Forall_forall in Hlev.
  destruct (Hlev c Hin) as (n' & Hn' & Hl'). assert (n' = n) as -> by congruence. lia.
Qed.

Lemma step_paths (start : Z) (m m' : machine) (leaves : list handle) :
  search_inv start m → continue_work m = true → step m m' →
  path_inv (nodes m) → cur_path m → emitted_inv m leaves →
  path_inv (nodes m') ∧ cur_path m' ∧ ∃ leaves' : list handle, emitted_inv m' leaves'.
Proof using randbelow_range.
  intros Hinv Hcw Hstep Hpinv Hcur Hem.
  pose proof (inv_tree _ _ Hinv) as Htree.
  destruct (inv_current _ _ Hinv Hcw) as (c0 & cur0 & Hnn0 & Hc0 & Hlev).
  destruct (Hcur Hcw) as (c1 & Hnn1 & Hpath).
  assert (c1 = c0) as -> by congruence.
  destruct Hem as [Hpaths Hnd Hlevels Hfresh].
  destruct Hstep as
    [ c cur siblings fuel id g' hp' child Hnn Hc Hl Hw Hsib Hid Hadd Hval
    | c cur siblings fuel id g' hp' child Hnn Hc Hl Hw Hsib Hid Hadd Hval
    | c cur Hnn Hc Hl Hw Hp
    | c cur p st x Hnn Hc Hl Hw Hp Hst
    | c cur Hnn Hc Hl Hval Hlimit
    | c cur valid st x fuel nn st' cw Hnn Hc Hl Hval Hlimit Hst Hup ];
    (assert (c0 = c) as -> by congruence); (assert (cur0 = cur) as -> by congruence);
    simpl.
  - apply next_id_Ok in Hid as (_ & _ & Hid).
    pose proof (add_child_path_inv _ _ _ _ _ _ _ Hpinv Hc Hsib Hid Hadd) as Hpinv'.
    destruct (add_child_Ok _ _ _ _ _ Hadd) as (n & Hn & Hch & _ & Hchild & _).
    split_and!; [done | |].
    + intros _. exists child. split; [done|]. simpl.
      apply (at_path_child _ _ c _ _ (at_path_add_child _ _ _ _ _ _ _ Hadd Hpath) Hchild).
      done.
    + exists leaves. split; simpl; [| done | |].
      * eapply Forall2_impl; [done|]. intros s l. by apply (at_path_add_child _ _ _ _ _ _ _ Hadd).
      * eapply Forall_impl; [done|]. simpl. intros l (y & Hy & Hly).
        destruct (add_child_old _ _ _ _ _ _ _ Hadd Hy) as (y' & Hy' & Hl' & _).
        exists y'. split; [done | lia].
      * intros h _ [= <-] Hin. rewrite Forall_forall in Hlevels.
        destruct (Hlevels _ Hin) as (y & Hy%lookup_lt_Some & _). lia.
  - apply next_id_Ok in Hid as (_ & _ & Hid).
    pose proof (add_child_path_inv _ _ _ _ _ _ _ Hpinv Hc Hsib Hid Hadd) as Hpinv'.
    split_and!; [done | |].
    + intros _. exists c. split; [done|]. simpl. by eapply at_path_add_child.
    + exists leaves. split; simpl; [| done | |].
      * eapply Forall2_impl; [done|]. intros s l. by apply (at_path_add_child _ _ _ _ _ _ _ Hadd).
      * eapply Forall_impl; [done|]. simpl. intros l (y & Hy & Hly).
        destruct (add_child_old _ _ _ _ _ _ _ Hadd Hy) as (y' & Hy' & Hl' & _).
        exists y'. split; [done | lia].
      * intros h _ [= <-]. by apply Hfresh.
  - split_and!; [done | done |]. exists leaves. by split.
  - rewrite Hst in Hpath. apply (at_path_parent _ _ _ _ p cur) in Hpath as [Hpath _]; [|done..].
    split_and!; [done | |].
    + intros _. by exists p.
    + exists leaves. split; simpl; [done | done | done |].
      intros h _ [= <-].
      destruct (tree_parent _ Htree c cur p Hc Hp) as (pn & Hpn & Hlp).
      apply (emitted_above m leaves p pn); [by split | done | lia].
  - split_and!; [done | done |]. exists leaves. by split.
  - destruct (parent cur) as [p|] eqn:Hp; [|by rewrite go_up_None in Hup].
    destruct (tree_parent _ Htree c cur p Hc Hp) as (pn & Hpn & Hlp).
    pose proof Hpath as Hpath0.
    rewrite Hst in Hpath. apply (at_path_parent _ _ _ _ p cur) in Hpath as [Hpath _]; [|done..].
    assert (Z.of_nat (length (state m)) = Z.of_nat (length st) + 1) as Hlen.
    { rewrite Hst, length_app. simpl. lia. }
    pose proof (tree_level_hi _ Htree c cur Hc) as Hhi.
    pose proof Hup as Hup0.
    eapply go_up_Ok in Hup0 as ([rest Hrest] & Hcw' & _); [|done|done|lia].
    assert (∀ h, cw = true → nn = Some h →
              ∃ y, nodes m !! h = Some y ∧ level y < nb_objects_per_scene - 1) as Habove.
    { intros h Hcw1 ->. destruct (Hcw' Hcw1) as (c' & n' & [= <-] & Hn' & Hln').
      exists n'. split; [done|]. rewrite Hrest, length_app in Hlen. lia. }
    split_and!; [done | |].
    + intros Hcw1. simpl in Hcw1. simpl. subst cw.
      exact (go_up_path _ _ _ _ _ _ Hpath Hup).
    + destruct valid.
      * exists (leaves ++ [c]). split; simpl.
        -- apply Forall2_app; [done|]. by constructor.
        -- apply NoDup_app. split_and!; [done | | apply NoDup_singleton].
           intros h Hin ->%list_elem_of_singleton. by apply (Hfresh c).
        -- apply Forall_app. split; [done|]. constructor; [|done]. eauto.
        -- intros h Hcw1 Hnn1'. destruct (Habove h Hcw1 Hnn1') as (y & Hy & Hly).
           intros [Hin | ->%list_elem_of_singleton]%elem_of_app.
           ++ by apply (emitted_above m leaves h y).
           ++ assert (y = cur) as -> by congruence. lia.
      * exists leaves. split; simpl; [done | done | done |].
        intros h Hcw1 Hnn1'. destruct (Habove h Hcw1 Hnn1') as (y & Hy & Hly).
        by apply (emitted_above m leaves h y).
Qed.

Lemma reachable_paths (start : Z) (g : rng) (m : machine) :
  reachable (init_machine start g) m →
  path_inv (nodes m) ∧ cur_path m ∧ ∃ leaves : list handle, emitted_inv m leaves.
Proof using randbelow_range.
  induction 1 as [|fuel m m' Hreach (Hp & Hc & leaves & Hem) Hcw Hbody].
  - destruct (init_machine_paths start g) as (? & ? & ?). eauto.
  - pose proof (reachable_inv _ _ _ Hreach) as Hinv.
    eapply step_paths; [done | done | | done | done | done]. by eapply loop_body_step.
Qed.

(** ** The limit on the number of scenes *)

Lemma go_up_slot (fuel : nat) (hp : heap) (nn0 nn : option handle) (st st' : list Z) :
  go_up fuel hp nn0 st = Ok (nn, st', true) →
  ∃ (c : handle) (n : Node), nn = Some c ∧ hp !! c = Some n ∧
    Z.of_nat (length (childs n)) < nb_tree_branch.
Proof.
  revert nn0 st. induction fuel as [|fuel IH]; intros [h|] st; simpl; try done.
  - unfold deref. destruct (hp !! h) as [n|] eqn:Hn; simpl; [|done].
    destruct (nb_tree_branch <=? Z.of_nat (length (childs n))) eqn:Ew; [done|].
    intros [= <- <-]. exists h, n. split_and!; [done | done | lia].
  - unfold deref. destruct (hp !! h) as [n|] eqn:Hn; simpl; [|done].
    destruct (nb_tree_branch <=? Z.of_nat (length (childs n))) eqn:Ew.
    + destruct (parent n) as [p|]; [|done].
      intros H. apply bind_Ok in H as (st1 & _ & H). by eapply IH.
    + intros [= <- <-]. exists h, n. split_and!; [done | done | lia].
Qed.

(** An iteration that emits a scene tests no limit after the emission:
    it climbs to a node with a child slot left, or to the exhausted
    root. *)
Lemma step_emit (start : Z) (m m' : machine) :
  search_inv start m → continue_work m = true → step m m' →
  generated_scenes m' ≠ generated_scenes m →
  generated_scenes m' = generated_scenes m ++ [state m] ∧
  start_index m' = start_index m + 1 ∧
  limit_reached nb_to_generate (start_index m) = false ∧
  (continue_work m' = true ∧ descends_next m' ∨
   continue_work m' = false ∧ halted_at_root m').
Proof.
  intros Hinv Hcw Hstep Hne.
  pose proof (inv_tree _ _ Hinv) as Htree.
  destruct (inv_current _ _ Hinv Hcw) as (c0 & cur0 & Hnn0 & Hc0 & Hlev).
  destruct Hstep as
    [ | | | | | c cur valid st x fuel nn st' cw Hnn Hc Hl Hval Hlimit Hst Hup ];
    simpl in *; try done.
  destruct valid; [|done]. simpl in Hlimit. split_and!; [done | done | done |].
  assert (c0 = c) as -> by congruence. assert (cur0 = cur) as -> by congruence.
  destruct (parent cur) as [p|] eqn:Hp; [|by rewrite go_up_None in Hup].
  destruct (tree_parent _ Htree c cur p Hc Hp) as (pn & Hpn & Hlp).
  rewrite Hst, length_app in Hlev. simpl in Hlev.
  pose proof (tree_level_hi _ Htree c cur Hc) as Hhi.
  destruct cw.
  - left. split; [done|].
    destruct (go_up_slot _ _ _ _ _ _ Hup) as (a & an & -> & Han & Hfree).
    eapply go_up_Ok in Hup as ([rest Hrest] & Hcont & _); [|done|done|lia].
    destruct (Hcont eq_refl) as (a' & an' & [= <-] & Han' & Hla).
    assert (an' = an) as -> by congruence.
    exists a, an. simpl. split_and!; [done | done | | done].
    rewrite Hrest, length_app in Hlev. lia.
  - right. split; [done|].
    eapply go_up_Ok in Hup as (_ & _ & Hroot); [|done|done|lia].
    destruct (Hroot eq_refl) as [-> Hr]. by split.
Qed.

(** An iteration that ends the loop has found the root exhausted, or
    stands on a leaf that passes final validation and is no emitted
    scene; it then changes nothing but [continue_work]. *)
Lemma step_stop (start : Z) (m m' : machine) (leaves : list handle) :
  search_inv start m → continue_work m = true → step m m' →
  path_inv (nodes m) → cur_path m → emitted_inv m leaves →
  continue_work m' = false →
  halted_at_root m' ∨
  (halted_at_limit m' ∧ (state m' ∉ generated_scenes m') ∧ m' = stop_work m).
Proof.
  intros Hinv Hcw Hstep Hpinv Hcur Hem Hcw'.
  destruct (step_halt _ _ _ Hinv Hcw Hstep Hcw') as [Hroot | Hlim]; [by left|].
  destruct (Hcur Hcw) as (c1 & Hnn1 & Hpath).
  destruct Hstep as
    [ | | c cur Hnn Hc Hl Hw Hp | | c cur Hnn Hc Hl Hval Hlimit
    | c cur valid st x fuel nn st' cw Hnn Hc Hl Hval Hlimit Hst Hup ]; simpl in *;
    try done.
  - left. destruct Hlim as (? & ? & ? & _ & _ & _ & ? & _). done.
  - right. split; [done|]. split; [|done]. simpl. intros Hin.
    apply list_elem_of_lookup in Hin as [i Hi].
    destruct (Forall2_lookup_l _ _ _ _ _ (emitted_paths _ _ Hem) Hi) as (l & Hl' & Hlp).
    assert (l = c1) as -> by (by eapply at_path_inj).
    apply (emitted_current _ _ Hem c1 Hcw Hnn1). by eapply list_elem_of_lookup_2.
  - left. subst cw. destruct Hlim as (? & ? & ? & _ & _ & _ & Hnn' & _).
    pose proof (inv_tree _ _ Hinv) as Htree.
    destruct (inv_current _ _ Hinv Hcw) as (c0 & cur0 & Hnn0 & Hc0 & Hlev).
    assert (c0 = c) as -> by congruence. assert (cur0 = cur) as -> by congruence.
    destruct (parent cur) as [p|] eqn:Hp; [|by rewrite go_up_None in Hup].
    destruct (tree_parent _ Htree c cur p Hc Hp) as (pn & Hpn & Hlp).
    rewrite Hst, length_app in Hlev. simpl in Hlev.
    eapply go_up_Ok in Hup as (_ & _ & Hroot); [|done|done|lia].
    destruct (Hroot eq_refl) as [-> _]. done.
Qed.

(** C5, as the code has it. The limit is tested only when a leaf passes
    final validation, before that leaf is emitted. An iteration that
    emits a scene, the last one the limit allows included, does not end
    the search for the limit: it leaves the search on a node above the
    leaves with a child slot left, so that the next iteration descends
    (or it finds the root exhausted). With a limit other than 0
    reached, the iteration that finds the search on a leaf that passes
    final validation ends the loop and does nothing else. A search that
    returns has stopped either with the child slots of the root
    exhausted or, with a limit other than 0 reached, on a leaf that
    passes final validation and that it has not emitted: that last
    iteration changed nothing but [continue_work], and the iteration
    before it emitted nothing. It returns at most [limit - start_index]
    scenes. And the search does return, given fuel, when scenes have at
    least one sound, the catalog has more sounds than a state and its
    siblings can exclude, and every draw returns. *)
Theorem search_halts_at_root_or_limit (fuel : nat) (start : Z) (g : rng) :
  (∀ (fuel' : nat) (m m' : machine),
     reachable (init_machine start g) m → continue_work m = true →
     loop_body fuel' m = Ok m' → generated_scenes m' ≠ generated_scenes m →
     generated_scenes m' = generated_scenes m ++ [state m] ∧
     start_index m' = start_index m + 1 ∧
     limit_reached nb_to_generate (start_index m) = false ∧
     (continue_work m' = true ∧ descends_next m' ∨
      continue_work m' = false ∧ halted_at_root m')) ∧
  (∀ (fuel' : nat) (m : machine) (limit : Z) (leaf : handle) (n : Node),
     nb_to_generate = Some limit → limit ≠ 0 → limit <= start_index m →
     next_node m = Some leaf → nodes m !! leaf = Some n →
     nb_objects_per_scene - 1 <= level n → validate_final (state m) = Ok true →
     loop_body fuel' m = Ok (stop_work m)) ∧
  (∀ m : machine, run_search fuel start g = Ok m →
     continue_work m = false ∧
     (halted_at_root m ∨
      halted_at_limit m ∧ (state m ∉ generated_scenes m) ∧
      ∃ m0 : machine,
        reachable (init_machine start g) m0 ∧ continue_work m0 = true ∧
        m = stop_work m0 ∧
        ∀ (fuel' : nat) (m1 : machine),
          reachable (init_machine start g) m1 → continue_work m1 = true →
          loop_body fuel' m1 = Ok m0 → generated_scenes m0 = generated_scenes m1) ∧
     start_index m = start + Z.of_nat (length (generated_scenes m)) ∧
     (∀ limit : Z, nb_to_generate = Some limit → limit ≠ 0 →
        Z.of_nat (length (generated_scenes m)) <= Z.max 0 (limit - start))) ∧
  (∀ F : nat,
     1 <= nb_objects_per_scene → 0 <= nb_tree_branch →
     nb_objects_per_scene + nb_tree_branch - 2 < nb_sounds →
     draws_return F → (F <= fuel)%nat → nb_objects_per_scene <= Z.of_nat fuel →
     2 * nb_tree_branch * full_tree (Z.to_nat (nb_objects_per_scene - 1))
       < Z.of_nat fuel →
     ∃ m : machine, run_search fuel start g = Ok m).
Proof using set_iter_perm randbelow_range.
  assert (∀ (fuel' : nat) (m m' : machine),
     reachable (init_machine start g) m → continue_work m = true →
     loop_body fuel' m = Ok m' → generated_scenes m' ≠ generated_scenes m →
     generated_scenes m' = generated_scenes m ++ [state m] ∧
     start_index m' = start_index m + 1 ∧
     limit_reached nb_to_generate (start_index m) = false ∧
     (continue_work m' = true ∧ descends_next m' ∨
      continue_work m' = false ∧ halted_at_root m')) as Hemit.
  { intros fuel' m m' Hreach Hcw Hbody Hne.
    pose proof (reachable_inv _ _ _ Hreach) as Hinv.
    eapply step_emit; [done | done | | done]. by eapply loop_body_step. }
  split_and!; [done | | |].
  - intros fuel' m limit leaf n Hlimit Hne Hle Hleaf Hn Hlevel Hvalid.
    unfold loop_body, deref. rewrite Hleaf, Hn. simpl.
    assert ((level n <? nb_objects_per_scene - 1) = false) as -> by lia.
    rewrite Hvalid. simpl. unfold limit_reached. rewrite Hlimit.
    assert (negb (limit =? 0) && (limit <=? start_index m) = true) as ->.
    { apply andb_true_iff. split; [apply negb_true_iff|]; lia. }
    unfold stop_work. by rewrite Hleaf.
  - intros m [Hreach Hcw]%run_search_Ok.
    pose proof (reachable_inv _ _ _ Hreach) as Hinv.
    split_and!; [done | | apply (inv_start_index _ _ Hinv) | apply (inv_limit _ _ Hinv)].
    inversion Hreach as [Heq | fuel' m0 m2 Hreach0 Hcw0 Hbody Heq].
    { by rewrite <- Heq in Hcw. }
    subst m2. pose proof (reachable_inv _ _ _ Hreach0) as Hinv0.
    destruct (reachable_paths _ _ _ Hreach0) as (Hpinv & Hcur & leaves & Hem).
    destruct (step_stop start m0 m leaves) as [Hroot | (Hlim & Hnew & Hstop)];
      [done | done | by eapply loop_body_step | done | done | done | done | by left |].
    right. split_and!; [done | done |]. exists m0. split_and!; [done | done | done |].
    intros fuel1 m1 Hreach1 Hcw1 Hbody1.
    destruct (decide (generated_scenes m0 = generated_scenes m1)) as [?|Hne]; [done|].
    exfalso.
    destruct (Hemit fuel1 m1 m0 Hreach1 Hcw1 Hbody1 Hne)
      as (_ & _ & _ & [[_ (c & n & Hc & Hn & Hlow & _)] | [Hc _]]); [|congruence].
    destruct Hlim as (? & leaf & n' & _ & _ & _ & Hleaf & Hn' & Hlevel & _).
    rewrite Hstop in Hleaf, Hn'. simpl in Hleaf, Hn'.
    assert (leaf = c) as -> by congruence. assert (n' = n) as -> by congruence. lia.
  - intros F HL HW HN Hdraws HF Hfuel Hsize. by apply (run_search_total F).
Qed.



Lemma step_valid (start : Z) (m m' : machine) :
  search_inv start m → step m m' →
  Forall (fun s => Forall in_catalog s ∧ validate_final s = Ok true) (generated_scenes m) →
  Forall (fun s => Forall in_catalog s ∧ validate_final s = Ok true) (generated_scenes m').
Proof.
  intros Hinv Hstep Hall.
  destruct Hstep as
    [ | | | | | c cur valid st x fuel nn st' cw Hnn Hc Hl Hval Hlimit Hst Hup ];
    simpl; try done.
  destruct valid; [|done]. apply Forall_app. split; [done|].
  constructor; [|done]. split; [apply (inv_state_catalog _ _ Hinv) | done].
Qed.

(** Every scene that the search returns is a scene of catalog sounds
    that passes final validation: it has at least [min_nb_families]
    families, and at least
    [min_nb_families_subject_to_min_objects_per_family] families of the
    catalog have [min_objects_per_family] of their sounds in it. *)
Theorem generated_scenes_valid (fuel : nat) (start : Z) (g g' : rng)
    (scenes : list (list Z)) :
  _generate_scenes_idx fuel start g = Ok (scenes, g') →
  Forall (fun s =>
            Forall in_catalog s ∧ validate_final s = Ok true ∧
            min_nb_families <= nb_distinct_families s ∧
            min_nb_families_subject_to_min_objects_per_family
              <= nb_families_meeting_quota s) scenes.
Proof using set_iter_perm randbelow_range.
  unfold _generate_scenes_idx. intros H.
  apply bind_Ok in H as (m & [Hreach _]%run_search_Ok & [= <- _]).
  assert (Forall (fun s => Forall in_catalog s ∧ validate_final s = Ok true)
            (generated_scenes m)) as Hall.
  { induction Hreach as [|fuel' m m' Hreach IH Hcw Hbody]; [constructor|].
    pose proof (reachable_inv _ _ _ Hreach) as Hinv.
    eapply step_valid; [done | | done]. by eapply loop_body_step. }
  eapply Forall_impl; [done|]. simpl. intros s [Hcat Hval].
  split_and!; [done | done | |];
    rewrite validate_final_eq in Hval by done; injection Hval as Hval;
    apply andb_true_iff in Hval as [Ha%bool_decide_eq_true Hb%bool_decide_eq_true]; done.
Qed.

Lemma Forall2_NoDup {A B} (R : A → B → Prop) (xs : list A) (ys : list B) :
  (∀ x y y', R x y → R x y' → y = y') →
  Forall2 R xs ys → NoDup ys → NoDup xs.
Proof.
  intros Hfun. induction 1 as [|x y xs ys Hxy Hall IH]; [constructor|].
  intros [Hy Hys]%NoDup_cons. apply NoDup_cons. split; [|by apply IH].
  intros Hx. apply list_elem_of_lookup in Hx as [i Hi].
  destruct (Forall2_lookup_l _ _ _ _ _ Hall Hi) as (y' & Hi' & Hxy').
  apply Hy. rewrite (Hfun x y y' Hxy Hxy'). by eapply list_elem_of_lookup_2.
Qed.

(** No scene comes twice: the scenes that the search returns are
    pairwise different sequences of sounds. *)
Theorem generated_scenes_distinct (fuel : nat) (start : Z) (g g' : rng)
    (scenes : list (list Z)) :
  _generate_scenes_idx fuel start g = Ok (scenes, g') → NoDup scenes.
Proof using randbelow_range.
  unfold _generate_scenes_idx. intros H.
  apply bind_Ok in H as (m & [Hreach _]%run_search_Ok & [= <- _]).
  destruct (reachable_paths _ _ _ Hreach) as (Hpinv & _ & leaves & Hem).
  apply (Forall2_NoDup (at_path (nodes m)) _ leaves).
  - intros s a b. by apply at_path_inj.
  - apply (emitted_paths _ _ Hem).
  - apply (emitted_NoDup _ _ Hem).
Qed.

Lemma childs_sound_ids_NoDup (hp : heap) (cs : list handle) (ids : list Z) :
  NoDup cs →
  (∀ c1 c2 n1 n2, c1 ∈ cs → c2 ∈ cs → hp !! c1 = Some n1 → hp !! c2 = Some n2 →
     sound_id n1 = sound_id n2 → c1 = c2) →
  childs_sound_ids hp cs = Ok ids → NoDup ids.
Proof.
  revert ids. induction cs as [|c cs IH]; intros ids Hnd Hinj; simpl.
  - intros [= <-]. constructor.
  - intros H. apply bind_Ok in H as (n & Hn%deref_Ok & H).
    apply bind_Ok in H as (ids0 & Hids0 & [= <-]).
    apply NoDup_cons in Hnd as [Hc Hnd]. apply NoDup_cons. split.
    + intros Hin. apply Hc.
      assert (∃ c', c' ∈ cs ∧ ∃ n', hp !! c' = Some n' ∧ sound_id n' = sound_id n)
        as (c' & Hc' & n' & Hn' & Hs).
      { clear -Hids0 Hin. revert ids0 Hids0 Hin.
        induction cs as [|c0 cs IH]; intros ids0; simpl.
        - intros [= <-] Hin. by apply elem_of_nil in Hin.
        - intros H Hin. apply bind_Ok in H as (n0 & Hn0%deref_Ok & H).
          apply bind_Ok in H as (ids1 & Hids1 & [= <-]).
          apply elem_of_cons in Hin as [Hs | Hin].
          + exists c0. split; [by left|]. eauto.
          + destruct (IH _ Hids1 Hin) as (c' & Hc' & Hrest).
            exists c'. split; [by right | done]. }
      rewrite (Hinj c c' n n'); [done | by left | by right | done | done | done].
    + apply IH; [done | | done].
      intros c1 c2 n1 n2 H1 H2. apply Hinj; by right.
Qed.

(** The loop of [get_childs_ids] computes the list comprehension of the
    search. *)
Lemma get_childs_ids_loop_eq (hp : heap) (cs : list handle) (acc : list Z) :
  get_childs_ids_loop hp cs acc = (fun l => acc ++ l) <$> childs_sound_ids hp cs.
Proof.
  revert acc. induction cs as [|c cs IH]; intros acc; simpl.
  - by rewrite app_nil_r.
  - destruct (deref hp c) as [cn| |]; simpl; try done.
    rewrite IH. destruct (childs_sound_ids hp cs); simpl; try done.
    by rewrite <- app_assoc.
Qed.

(** In the tree of a search the children of a node carry pairwise
    different sounds, whether their draw passed intermediate validation
    or not; [get_childs_ids] lists them. *)
Theorem siblings_distinct_sounds (start : Z) (g : rng) (m : machine)
    (h : handle) (n : Node) :
  reachable (init_machine start g) m → nodes m !! h = Some n →
  ∃ ids : list Z,
    get_childs_ids (nodes m) h = Ok ids ∧
    childs_sound_ids (nodes m) (childs n) = Ok ids ∧
    length ids = length (childs n) ∧ NoDup ids.
Proof using randbelow_range.
  intros Hreach Hn.
  destruct (reachable_paths _ _ _ Hreach) as (Hpinv & _ & _).
  destruct (childs_sound_ids_Ok (nodes m) (childs n)) as (ids & Hids & Hlen).
  { apply Forall_forall. intros c Hc.
    destruct (path_childs_parent _ Hpinv h n c Hn Hc) as (cn & Hcn & _).
    by eapply lookup_lt_Some. }
  exists ids. split_and!; [| done | done |].
  - unfold get_childs_ids. rewrite (proj2 (deref_Ok _ _ _) Hn), bind_ret.
    by rewrite get_childs_ids_loop_eq, Hids.
  - eapply childs_sound_ids_NoDup; [by eapply path_childs_NoDup | | done].
    intros c1 c2 n1 n2 H1 H2 Hn1 Hn2 Hs.
    destruct (path_childs_parent _ Hpinv h n c1 Hn H1) as (cn1 & Hcn1 & Hp1).
    destruct (path_childs_parent _ Hpinv h n c2 Hn H2) as (cn2 & Hcn2 & Hp2).
    apply (path_siblings _ Hpinv h c1 c2 n1 n2); congruence.
Qed.


(** ** [add_child] and [get_childs_ids] *)

Lemma childs_sound_ids_app (hp : heap) (cs1 cs2 : list handle) :
  childs_sound_ids hp (cs1 ++ cs2) =
  ids1 ← childs_sound_ids hp cs1; ids2 ← childs_sound_ids hp cs2; Ok (ids1 ++ ids2).
Proof.
  induction cs1 as [|c cs1 IH]; simpl.
  - by destruct (childs_sound_ids hp cs2).
  - destruct (deref hp c) as [n| |]; simpl; try done. rewrite IH.
    destruct (childs_sound_ids hp cs1); simpl; try done.
    by destruct (childs_sound_ids hp cs2).
Qed.

Lemma childs_sound_ids_add_child (hp hp' : heap) (self child : handle) (id : Z)
    (cs : list handle) (ids : list Z) :
  add_child hp self id = Ok (hp', child) →
  childs_sound_ids hp cs = Ok ids → childs_sound_ids hp' cs = Ok ids.
Proof.
  intros Hadd. revert ids. induction cs as [|c cs IH]; intros ids; simpl; [done|].
  intros H. apply bind_Ok in H as (n & Hn%deref_Ok & H).
  apply bind_Ok in H as (ids0 & Hids0 & [= <-]).
  destruct (add_child_old _ _ _ _ _ _ _ Hadd Hn) as (x & Hx & _ & _ & Hs & _).
  rewrite (proj2 (deref_Ok _ _ _) Hx), bind_ret, (IH _ Hids0), bind_ret. by rewrite Hs.
Qed.

(** After [add_child], [get_childs_ids] of the node returns the ids it
    returned before followed by the new one, and the new child has no
    child. *)
Theorem get_childs_ids_add_child (hp hp' : heap) (self child : handle) (id : Z)
    (ids : list Z) :
  get_childs_ids hp self = Ok ids → add_child hp self id = Ok (hp', child) →
  get_childs_ids hp' self = Ok (ids ++ [id]) ∧ get_childs_ids hp' child = Ok [].
Proof.
  unfold get_childs_ids. intros Hids Hadd.
  apply bind_Ok in Hids as (n & Hn%deref_Ok & Hids).
  rewrite get_childs_ids_loop_eq in Hids.
  destruct (childs_sound_ids hp (childs n)) as [ids0| |] eqn:Hids0; try done.
  simpl in Hids. injection Hids as <-.
  destruct (add_child_Ok _ _ _ _ _ Hadd) as (n' & Hn' & _ & Hself & Hchild & _).
  assert (n' = n) as -> by congruence.
  rewrite (proj2 (deref_Ok _ _ _) Hself), (proj2 (deref_Ok _ _ _) Hchild), !bind_ret.
  split; [|done]. simpl childs.
  rewrite get_childs_ids_loop_eq, childs_sound_ids_app.
  rewrite (childs_sound_ids_add_child _ _ _ _ _ _ _ Hadd Hids0), bind_ret. simpl.
  by rewrite (proj2 (deref_Ok _ _ _) Hchild).
Qed.

(** ** How many scenes a search can return *)

Lemma leaf_slot_weight_nonneg (lvl : Z) : 0 <= nb_tree_branch → 0 <= leaf_slot_weight lvl.
Proof.
  intros HW. unfold leaf_slot_weight. destruct (lvl <? _); [|done].
  by apply Z.pow_nonneg.
Qed.

Lemma leaf_capacity_nonneg (hp : heap) :
  0 <= nb_tree_branch → heap_inv hp → 0 <= leaf_capacity hp.
Proof.
  intros HW [_ Hwidth]. unfold leaf_capacity.
  induction Hwidth as [|n hp Hn _ IH]; simpl; [done|].
  apply Z.add_nonneg_nonneg; [|done].
  apply Z.mul_nonneg_nonneg; [lia | by apply leaf_slot_weight_nonneg].
Qed.

Lemma leaf_count_nonneg (n : Node) : 0 <= leaf_count n <= 1.
Proof. unfold leaf_count. destruct (_ <=? _); lia. Qed.

(** A new child is a leaf more, or takes the place of the leaves that
    the slot could grow into. *)
Lemma add_child_leaves (hp hp' : heap) (self child : handle) (id : Z) (n : Node) :
  hp !! self = Some n → level n < nb_objects_per_scene - 1 →
  add_child hp self id = Ok (hp', child) →
  nb_leaves hp' =
    nb_leaves hp + (if nb_objects_per_scene - 1 <=? level n + 1 then 1 else 0) ∧
  nb_leaves hp' + leaf_capacity hp' = nb_leaves hp + leaf_capacity hp.
Proof.
  intros Hn Hl Hadd. apply add_child_eq in Hadd as (n' & Hn' & -> & ->).
  assert (n' = n) as -> by congruence.
  assert (self < length hp)%nat as Hlt by (by eapply lookup_lt_Some).
  unfold nb_leaves, leaf_capacity. rewrite !list_fmap_insert, !fmap_app.
  rewrite (sum_insert _ _ (leaf_count n)),
    (sum_insert _ _ ((nb_tree_branch - Z.of_nat (length (childs n)))
                     * leaf_slot_weight (level n))).
  - rewrite !sum_app. simpl. unfold leaf_count. simpl. rewrite length_app. simpl.
    fold leaf_count.
    generalize (foldr Z.add 0 (leaf_count <$> hp)). intros leaves.
    generalize (foldr Z.add 0
      ((fun n0 => (nb_tree_branch - Z.of_nat (length (childs n0)))
                  * leaf_slot_weight (level n0)) <$> hp)). intros room.
    split; [lia|].
    unfold leaf_slot_weight.
    assert ((level n <? nb_objects_per_scene - 1) = true) as -> by lia.
    replace (Z.of_nat (length (childs n) + 1)) with (Z.of_nat (length (childs n)) + 1)
      by lia.
    set (k := Z.of_nat (length (childs n))).
    destruct (nb_objects_per_scene - 1 <=? level n + 1) eqn:E.
    + assert ((level n + 1 <? nb_objects_per_scene - 1) = false) as -> by lia.
      replace (nb_objects_per_scene - 2 - level n) with 0 by lia.
      rewrite Z.pow_0_r. lia.
    + assert ((level n + 1 <? nb_objects_per_scene - 1) = true) as -> by lia.
      replace (nb_objects_per_scene - 2 - level n)
        with (Z.succ (nb_objects_per_scene - 2 - (level n + 1))) by lia.
      rewrite Z.pow_succ_r by lia.
      set (q := nb_tree_branch ^ (nb_objects_per_scene - 2 - (level n + 1))).
      ring.
  - rewrite lookup_app_l by (by rewrite length_fmap).
    by rewrite list_lookup_fmap, Hn.
  - rewrite lookup_app_l by (by rewrite length_fmap).
    by rewrite list_lookup_fmap, Hn.
Qed.

Lemma step_leaves (start : Z) (m m' : machine) :
  search_inv start m → continue_work m = true → step m m' →
  Z.of_nat (length (generated_scenes m)) + (if on_leaf m then 1 else 0)
    <= nb_leaves (nodes m) →
  Z.of_nat (length (generated_scenes m')) + (if on_leaf m' then 1 else 0)
    <= nb_leaves (nodes m') ∧
  nb_leaves (nodes m') + leaf_capacity (nodes m')
    = nb_leaves (nodes m) + leaf_capacity (nodes m).
Proof.
  intros Hinv Hcw Hstep Hle.
  pose proof (inv_tree _ _ Hinv) as Htree.
  destruct (inv_current _ _ Hinv Hcw) as (c0 & cur0 & Hnn0 & Hc0 & Hlev).
  assert (on_leaf m = (nb_objects_per_scene - 1 <=? level cur0)) as Hon.
  { unfold on_leaf. by rewrite Hcw, Hnn0, Hc0. }
  rewrite Hon in Hle.
  destruct Hstep as
    [ c cur siblings fuel id g' hp' child Hnn Hc Hl Hw Hsib Hid Hadd Hval
    | c cur siblings fuel id g' hp' child Hnn Hc Hl Hw Hsib Hid Hadd Hval
    | c cur Hnn Hc Hl Hw Hp
    | c cur p st x Hnn Hc Hl Hw Hp Hst
    | c cur Hnn Hc Hl Hval Hlimit
    | c cur valid st x fuel nn st' cw Hnn Hc Hl Hval Hlimit Hst Hup ];
    (assert (c0 = c) as -> by congruence); (assert (cur0 = cur) as -> by congruence);
    unfold on_leaf; simpl.
  - destruct (add_child_leaves _ _ _ _ _ _ Hc Hl Hadd) as [Hnb Hsum].
    destruct (add_child_Ok _ _ _ _ _ Hadd) as (n & Hn & _ & _ & Hchild & _).
    assert (n = cur) as -> by congruence.
    rewrite Hchild. simpl. split; [|done].
    destruct (nb_objects_per_scene - 1 <=? level cur) eqn:E; [lia|]. lia.
  - destruct (add_child_leaves _ _ _ _ _ _ Hc Hl Hadd) as [Hnb Hsum].
    destruct (add_child_Ok _ _ _ _ _ Hadd) as (n & Hn & _ & Hself & _ & _).
    assert (n = cur) as -> by congruence.
    rewrite Hself. simpl. split; [|done].
    assert ((nb_objects_per_scene - 1 <=? level cur) = false) as E by lia.
    rewrite E in *. destruct (nb_objects_per_scene - 1 <=? level cur + 1); lia.
  - split; [|done]. destruct (nb_objects_per_scene - 1 <=? level cur); lia.
  - split; [|done].
    destruct (tree_parent _ Htree c cur p Hc Hp) as (pn & Hpn & Hlp).
    rewrite Hpn. assert ((nb_objects_per_scene - 1 <=? level pn) = false) as -> by lia.
    destruct (nb_objects_per_scene - 1 <=? level cur); lia.
  - split; [|done]. destruct (nb_objects_per_scene - 1 <=? level cur); lia.
  - split; [|done].
    assert ((nb_objects_per_scene - 1 <=? level cur) = true) as E by lia.
    rewrite E in Hle.
    assert (Z.of_nat (length (if valid then generated_scenes m ++ [state m]
                              else generated_scenes m))
            <= Z.of_nat (length (generated_scenes m)) + 1) as Hlen.
    { destruct valid; [rewrite length_app; simpl|]; lia. }
    destruct cw; simpl; [|lia].
    destruct (parent cur) as [p|] eqn:Hp; [|by rewrite go_up_None in Hup].
    destruct (tree_parent _ Htree c cur p Hc Hp) as (pn & Hpn & Hlp).
    pose proof (tree_level_hi _ Htree c cur Hc) as Hhi.
    assert (Z.of_nat (length (state m)) = Z.of_nat (length st) + 1) as Hst'.
    { rewrite Hst, length_app. simpl. lia. }
    eapply go_up_Ok in Hup as ([rest Hrest] & Hcw' & _); [|done|done|lia].
    destruct (Hcw' eq_refl) as (c' & n' & -> & Hn' & Hln').
    rewrite Hn'. rewrite Hrest, length_app in Hst'.
    assert ((nb_objects_per_scene - 1 <=? level n') = false) as -> by lia. lia.
Qed.

Lemma reachable_heap_inv (start : Z) (g : rng) (m : machine) :
  0 <= nb_tree_branch → reachable (init_machine start g) m → heap_inv (nodes m).
Proof using randbelow_range.
  intros HW. induction 1 as [|fuel m m' Hreach IH Hcw Hbody].
  - split.
    + intros [|h] n; simpl; [intros [= <-]; constructor | by rewrite lookup_nil].
    + repeat constructor. simpl. lia.
  - eapply step_heap_inv; [done | | done].
    eapply loop_body_step; [by eapply reachable_inv | done | done].
Qed.

(** A search returns at most [nb_tree_branch ^ nb_objects_per_scene]
    scenes, the number of leaves of the full tree. *)
Theorem generated_scenes_at_most (fuel : nat) (start : Z) (g g' : rng)
    (scenes : list (list Z)) :
  1 <= nb_objects_per_scene → 0 <= nb_tree_branch →
  _generate_scenes_idx fuel start g = Ok (scenes, g') →
  Z.of_nat (length scenes) <= nb_tree_branch ^ nb_objects_per_scene.
Proof using randbelow_range.
  intros HL HW. unfold _generate_scenes_idx. intros H.
  apply bind_Ok in H as (m & [Hreach _]%run_search_Ok & [= <- _]).
  pose proof (leaf_capacity_nonneg _ HW (reachable_heap_inv _ _ _ HW Hreach)) as Hroom.
  assert (Z.of_nat (length (generated_scenes m)) + (if on_leaf m then 1 else 0)
            <= nb_leaves (nodes m) ∧
          nb_leaves (nodes m) + leaf_capacity (nodes m)
            = nb_tree_branch ^ nb_objects_per_scene) as [Hle Hsum].
  { clear Hroom. induction Hreach as [|fuel' m m' Hreach [IH1 IH2] Hcw Hbody].
    - unfold on_leaf, nb_leaves, leaf_capacity, leaf_count, leaf_slot_weight. simpl.
      assert ((nb_objects_per_scene - 1 <=? -1) = false) as -> by lia.
      assert ((-1 <? nb_objects_per_scene - 1) = true) as -> by lia.
      split; [lia|].
      replace (nb_tree_branch ^ nb_objects_per_scene)
        with (nb_tree_branch ^ Z.succ (nb_objects_per_scene - 2 - -1)) by (f_equal; lia).
      rewrite Z.pow_succ_r by lia. lia.
    - pose proof (reachable_inv _ _ _ Hreach) as Hinv.
      destruct (step_leaves start m m' Hinv Hcw) as [H1 H2];
        [by eapply loop_body_step | done |].
      split; [done | lia]. }
  destruct (on_leaf m); lia.
Qed.


(** ** Searches that end at the root *)

Lemma validate_final_nil : ∃ b : bool, validate_final [] = Ok b.
Proof.
  unfold validate_final, ids_to_families_count. simpl.
  destruct (_ <? min_nb_families); [eauto|]. destruct (_ <? _); eauto.
Qed.

(** With [nb_objects_per_scene <= 0] the root is a leaf. The search
    stops there when the empty scene passes final validation and the
    limit is reached; else [state.pop()] finds the state empty. *)
Theorem scene_length_zero_IndexError (fuel : nat) (start : Z) (g : rng) :
  nb_objects_per_scene <= 0 →
  ∃ b : bool,
    validate_final [] = Ok b ∧
    _generate_scenes_idx (S fuel) start g =
      if b && limit_reached nb_to_generate start then Ok ([], g) else Raise IndexError.
Proof.
  intros HL. destruct validate_final_nil as [b Hb]. exists b. split; [done|].
  unfold _generate_scenes_idx, run_search.
  rewrite while_continue_work_S by done.
  assert (loop_body (S fuel) (init_machine start g) =
          if b && limit_reached nb_to_generate start
          then Ok {| nodes := [root_node]; next_node := Some 0%nat; state := [];
                     generated_scenes := []; start_index := start; gen := g;
                     continue_work := false |}
          else Raise IndexError) as ->.
  { unfold loop_body. cbn [init_machine next_node nodes state start_index].
    change (deref [root_node] 0) with (Ok root_node). rewrite bind_ret.
    assert ((level root_node <? nb_objects_per_scene - 1) = false) as ->
      by (apply Z.ltb_ge; simpl; lia).
    rewrite Hb, bind_ret. by destruct (b && _). }
  destruct (b && _); [|done]. rewrite bind_ret.
  by rewrite while_continue_work_halted.
Qed.

(** With an empty catalog the first draw has nothing to draw from:
    [random.randint(0, -1)] raises [ValueError]. *)
Theorem empty_catalog_ValueError (fuel : nat) (start : Z) (g : rng) :
  nb_sounds = 0 → 1 <= nb_objects_per_scene → 1 <= nb_tree_branch →
  _generate_scenes_idx (S fuel) start g = Raise ValueError.
Proof.
  intros HN HL HW. unfold _generate_scenes_idx, run_search.
  rewrite while_continue_work_S by done.
  assert (loop_body (S fuel) (init_machine start g) = Raise ValueError) as ->; [|done].
  unfold loop_body. cbn [init_machine next_node nodes state start_index gen].
  change (deref [root_node] 0) with (Ok root_node). rewrite bind_ret.
  assert ((level root_node <? nb_objects_per_scene - 1) = true) as ->
    by (apply Z.ltb_lt; simpl; lia).
  assert ((Z.of_nat (length (childs root_node)) <? nb_tree_branch) = true) as ->
    by (apply Z.ltb_lt; simpl; lia).
  change (childs_sound_ids [root_node] (childs root_node)) with (Ok (@nil Z)).
  rewrite bind_ret. unfold next_id, randint. rewrite HN. done.
Qed.

(** With [nb_tree_branch <= 0] the root has no slot for a child: the
    search returns at once, with no scene and no draw. *)
Theorem no_branch_no_scene (fuel : nat) (start : Z) (g : rng) :
  1 <= nb_objects_per_scene → nb_tree_branch <= 0 →
  _generate_scenes_idx (S fuel) start g = Ok ([], g).
Proof.
  intros HL HW. unfold _generate_scenes_idx, run_search.
  rewrite while_continue_work_S by done.
  assert (loop_body (S fuel) (init_machine start g) =
          Ok {| nodes := [root_node]; next_node := None; state := [];
                generated_scenes := []; start_index := start; gen := g;
                continue_work := false |}) as ->.
  { unfold loop_body. cbn [init_machine next_node nodes state start_index gen].
    change (deref [root_node] 0) with (Ok root_node). rewrite bind_ret.
    assert ((level root_node <? nb_objects_per_scene - 1) = true) as ->
    by (apply Z.ltb_lt; simpl; lia).
    assert ((Z.of_nat (length (childs root_node)) <? nb_tree_branch) = false) as ->
      by (apply Z.ltb_ge; simpl; lia).
    done. }
  rewrite bind_ret. by rewrite while_continue_work_halted.
Qed.


(** ** The two validators together *)

Lemma validate_last_level (st : list Z) :
  Forall in_catalog st →
  (validate_intermediate st (nb_objects_per_scene - 1) = Ok true →
   validate_final st = Ok true) ∧
  (0 <= min_objects_per_family →
   validate_intermediate st (nb_objects_per_scene - 1) = validate_final st).
Proof using set_iter_perm.
  intros Hst. rewrite validate_intermediate_eq, validate_final_eq by done.
  replace (nb_objects_per_scene - (nb_objects_per_scene - 1) - 1) with 0 by lia.
  set (d := nb_distinct_families st). set (q := nb_families_meeting_quota st).
  destruct (decide (min_nb_families <= d)) as [Hd|Hd];
    destruct (decide (min_nb_families_subject_to_min_objects_per_family <= q)) as [Hq|Hq].
  - rewrite !bool_decide_eq_true_2 by done. split; [done|]. intros Hmo. do 2 f_equal.
    assert ((d <? min_nb_families) = false) as -> by lia.
    assert ((0 <? min_nb_families_subject_to_min_objects_per_family - q) = false) as ->
      by lia.
    simpl. apply negb_true_iff, Z.ltb_ge. apply Z.mul_nonpos_nonneg; lia.
  - rewrite (bool_decide_eq_false_2 (_ <= q)) by done. rewrite andb_false_r.
    assert ((0 <? min_nb_families_subject_to_min_objects_per_family - q) = true) as ->
      by lia.
    rewrite orb_true_r. simpl. done.
  - rewrite (bool_decide_eq_false_2 (_ <= d)) by done.
    assert ((d <? min_nb_families) = true) as -> by lia.
    assert ((0 <? min_nb_families - d) = true) as -> by lia. done.
  - rewrite (bool_decide_eq_false_2 (_ <= d)) by done.
    assert ((d <? min_nb_families) = true) as -> by lia.
    assert ((0 <? min_nb_families - d) = true) as -> by lia. done.
Qed.

(** On the level of the leaves no sound is to come: a state that passes
    intermediate validation there passes final validation, and with
    [min_objects_per_family >= 0] the two validators agree. *)
Theorem validate_intermediate_last_level (st : list Z) :
  Forall in_catalog st →
  (validate_intermediate st (nb_objects_per_scene - 1) = Ok true →
   validate_final st = Ok true) ∧
  (0 <= min_objects_per_family →
   validate_intermediate st (nb_objects_per_scene - 1) = validate_final st).
Proof using set_iter_perm. apply validate_last_level. Qed.

(** The search only stands on a leaf whose state passed intermediate
    validation, on the level of the leaves: final validation accepts
    every leaf that the search reaches. *)
Theorem leaf_passes_final_validation (start : Z) (g : rng) (m : machine)
    (c : handle) (cur : Node) :
  1 <= nb_objects_per_scene →
  reachable (init_machine start g) m →
  continue_work m = true → next_node m = Some c → nodes m !! c = Some cur →
  nb_objects_per_scene - 1 <= level cur →
  validate_final (state m) = Ok true.
Proof using set_iter_perm randbelow_range.
  intros HL Hreach Hcw Hnn Hc Hleaf.
  pose proof (reachable_inv _ _ _ Hreach) as Hinv'.
  pose proof (tree_level_hi _ (inv_tree _ _ Hinv') c cur Hc) as Hhi.
  apply validate_last_level; [apply (inv_state_catalog _ _ Hinv')|].
  replace (nb_objects_per_scene - 1) with (level cur) by lia.
  destruct Hreach as [|fuel m m' Hreach Hcw0 Hbody].
  { simpl in *. injection Hnn as <-. injection Hc as <-. simpl in Hleaf. lia. }
  pose proof (reachable_inv _ _ _ Hreach) as Hinv.
  pose proof (inv_tree _ _ Hinv) as Htree.
  destruct (inv_current _ _ Hinv Hcw0) as (c0 & cur0 & Hnn0 & Hc0 & Hlev).
  pose proof (loop_body_step _ _ _ _ Hinv Hcw0 Hbody) as Hstep.
  destruct Hstep as
    [ c1 cur1 siblings fuel1 id g' hp' child Hnn1 Hc1 Hl Hw Hsib Hid Hadd Hval
    | c1 cur1 siblings fuel1 id g' hp' child Hnn1 Hc1 Hl Hw Hsib Hid Hadd Hval
    | c1 cur1 Hnn1 Hc1 Hl Hw Hp
    | c1 cur1 p st x Hnn1 Hc1 Hl Hw Hp Hst
    | c1 cur1 Hnn1 Hc1 Hl Hval Hlimit
    | c1 cur1 valid st x fuel1 nn st' cw Hnn1 Hc1 Hl Hval Hlimit Hst Hup ];
    simpl in *; try done;
    (assert (c0 = c1) as -> by congruence); (assert (cur0 = cur1) as -> by congruence).
  - injection Hnn as <-.
    apply add_child_Ok in Hadd as (n & Hn & _ & _ & Hchild & _).
    assert (n = cur1) as -> by congruence.
    rewrite Hchild in Hc. injection Hc as <-. done.
  - injection Hnn as <-.
    apply add_child_Ok in Hadd as (n & Hn & _ & Hself & _ & _).
    assert (n = cur1) as -> by congruence.
    rewrite Hself in Hc. injection Hc as <-. simpl in Hleaf. lia.
  - injection Hnn as <-.
    destruct (tree_parent _ Htree c1 cur1 p Hc1 Hp) as (pn & Hpn & Hlp).
    assert (pn = cur) as -> by congruence. lia.
  - subst cw.
    destruct (parent cur1) as [p|] eqn:Hp; [|by rewrite go_up_None in Hup].
    destruct (tree_parent _ Htree c1 cur1 p Hc1 Hp) as (pn & Hpn & Hlp).
    pose proof (tree_level_hi _ Htree c1 cur1 Hc1) as Hhi1.
    assert (Z.of_nat (length (state m)) = Z.of_nat (length st) + 1) as Hst'.
    { rewrite Hst, length_app. simpl. lia. }
    eapply go_up_Ok in Hup as ([rest Hrest] & Hcw' & _); [|done|done|lia].
    destruct (Hcw' eq_refl) as (c' & n' & -> & Hn' & Hln').
    injection Hnn as <-. assert (n' = cur) as -> by congruence.
    rewrite Hrest, length_app in Hst'. lia.
Qed.

(** With [min_objects_per_family] 0 or 1 the third test of
    [validate_intermediate] asks no more than the second one: a state
    that intermediate validation rejects has then no completion that
    passes final validation. *)
Theorem validate_intermediate_sound_small_quota (st ext : list Z) (current_level : Z) :
  0 <= min_objects_per_family <= 1 →
  Forall in_catalog (st ++ ext) →
  Z.of_nat (length ext) = nb_objects_per_scene - current_level - 1 →
  validate_intermediate st current_level = Ok false →
  validate_final (st ++ ext) = Ok false.
Proof using set_iter_perm.
  intros Hmo Hcat Hlen Hrej.
  pose proof Hcat as [Hst _]%Forall_app.
  rewrite validate_intermediate_eq in Hrej by done. injection Hrej as Hrej.
  apply negb_false_iff in Hrej.
  apply (family_tests_sound st ext current_level Hcat Hlen).
  apply orb_true_iff in Hrej as [[H1 | H2]%orb_true_iff | H3].
  - left. apply andb_true_iff in H1. lia.
  - right. lia.
  - right. assert (min_objects_per_family = 0 ∨ min_objects_per_family = 1) as [E|E]
      by lia; rewrite E in H3; lia.
Qed.

(** ** The histograms *)

Lemma dict_set_sum (k : string) (v : Z) (d : pydict Z) :
  foldr Z.add 0 (dict_values (dict_set k v d)) =
  foldr Z.add 0 (dict_values d) - default 0 (dict_get k d) + v.
Proof.
  unfold dict_values. induction d as [|[k' v'] d IH]; csimpl; [lia|].
  destruct (String.eqb k' k); csimpl; [lia|]. rewrite IH. lia.
Qed.

Lemma foldl_count_family_sum (fams : list string) (count : pydict Z) :
  foldr Z.add 0 (dict_values (foldl count_family count fams)) =
  foldr Z.add 0 (dict_values count) + Z.of_nat (length fams).
Proof.
  revert count. induction fams as [|f fams IH]; intros count; simpl; [lia|].
  rewrite IH. unfold count_family.
  destruct (dict_get f count) as [c|] eqn:E; rewrite dict_set_sum, E; simpl; lia.
Qed.

(** Every entry of a histogram built by the counting loop is positive. *)
Lemma foldl_count_family_pos (fams : list string) :
  Forall (fun c => 1 <= c) (dict_values (foldl count_family [] fams)).
Proof.
  apply Forall_forall. intros c Hc. unfold dict_values in Hc.
  apply list_elem_of_fmap in Hc as ([k v] & -> & Hkv). simpl.
  apply dict_get_elem_of in Hkv; [|apply foldl_count_family_NoDup; constructor].
  rewrite foldl_count_family_get in Hkv. simpl in Hkv.
  case_bool_decide as Hk; [|done]. injection Hkv as <-.
  apply tally_pos in Hk. lia.
Qed.

(** [Primary_sounds.__init__]: [families_count] has one entry for each
    family of the catalog, holding the number of its sounds; no entry is
    0 and the entries add up to [nb_sounds]. *)
Theorem families_count_total :
  NoDup families ∧
  (∀ f : string,
     dict_get f families_count =
       if bool_decide (f ∈ instrument_family <$> definition)
       then Some (Z.of_nat (length (filter (fun s => f = instrument_family s) definition)))
       else None) ∧
  Forall (fun c => 1 <= c) (dict_values families_count) ∧
  foldr Z.add 0 (dict_values families_count) = nb_sounds ∧
  nb_families <= nb_sounds.
Proof.
  assert (foldr Z.add 0 (dict_values families_count) = nb_sounds) as Hsum.
  { unfold families_count, nb_sounds. rewrite foldl_count_family_sum, length_fmap. done. }
  pose proof (foldl_count_family_pos (instrument_family <$> definition)) as Hpos.
  split_and!; [apply families_NoDup | | done | done |].
  - intros f. unfold families_count. rewrite foldl_count_family_get. simpl.
    unfold tally. by rewrite length_filter_fmap.
  - rewrite <- Hsum. unfold nb_families, families, dict_keys, dict_values.
    fold families_count in Hpos. unfold dict_values in Hpos.
    replace (length families_count.*1) with (length families_count.*2)
      by (by rewrite !length_fmap).
    induction Hpos as [|c l Hc _ IH]; simpl; lia.
Qed.

Lemma count_ids_Ok (id_list : list Z) (count count' : pydict Z) :
  count_ids id_list count = Ok count' →
  ∃ fams : list string,
    length fams = length id_list ∧ count' = foldl count_family count fams.
Proof.
  revert count. induction id_list as [|id rest IH]; intros count; simpl.
  - intros [= <-]. by exists [].
  - intros H. apply bind_Ok in H as (family & _ & H).
    destruct (IH _ H) as (fams & Hlen & ->).
    exists (family :: fams). simpl. by rewrite Hlen.
Qed.

(** [ids_to_families_count] counts every id once: the entries of the
    histogram add up to [len(id_list)], none is negative, and the
    number returned beside it is the number of entries that are not 0. *)
Theorem ids_to_families_count_total (id_list : list Z) (count : pydict Z) (n : Z) :
  ids_to_families_count id_list = Ok (count, n) →
  NoDup (dict_keys count) ∧
  Forall (fun c => 0 <= c) (dict_values count) ∧
  foldr Z.add 0 (dict_values count) = Z.of_nat (length id_list) ∧
  n = Z.of_nat (length (filter (fun c => 0 < c) (dict_values count))) ∧
  n <= Z.of_nat (length id_list).
Proof using set_iter_perm.
  unfold ids_to_families_count. intros H.
  apply bind_Ok in H as (c0 & (fams & Hlen & ->)%count_ids_Ok & [= <- <-]).
  simpl foldl. set (c0 := foldl count_family [] fams).
  set (empty := set_iter _).
  assert (NoDup (dict_keys c0)) as Hnd0 by (apply foldl_count_family_NoDup; constructor).
  pose proof (foldl_count_family_pos fams) as Hpos. fold c0 in Hpos.
  assert (foldr Z.add 0 (dict_values c0) = Z.of_nat (length id_list)) as Hsum.
  { unfold c0. rewrite foldl_count_family_sum, Hlen. done. }
  rewrite foldl_dict_set_fresh.
  - unfold dict_keys, dict_values in *. rewrite !fmap_app, <- !list_fmap_compose.
    assert (Forall (fun c => c = 0) ((snd ∘ (fun f : string => (f, 0))) <$> empty))
      as Hzero.
    { apply Forall_fmap, Forall_forall. by intros f _. }
    assert (length (filter (fun c => 0 < c) (c0.*2)) = length (c0.*2)) as Hfull.
    { clear -Hpos. induction Hpos as [|c l Hc _ IH]; [done|].
      rewrite filter_cons_True by lia. simpl. by rewrite IH. }
    assert (filter (fun c => 0 < c) ((snd ∘ (fun f : string => (f, 0))) <$> empty) = [])
      as Hnone.
    { clear -Hzero. induction Hzero as [|c l Hc _ IH]; [done|].
      rewrite filter_cons_False by lia. done. }
    assert (foldr Z.add 0 ((snd ∘ (fun f : string => (f, 0))) <$> empty) = 0) as Hsum0.
    { clear -Hzero. induction Hzero as [|c l Hc _ IH]; simpl; lia. }
    split_and!.
    + apply NoDup_app. split_and!; [done | |].
      * intros k Hk Hk'. apply list_elem_of_fmap in Hk' as (f & -> & Hf). simpl in Hk.
        unfold empty in Hf. rewrite set_iter_perm in Hf.
        apply list_elem_of_difference in Hf as [_ Hf]. apply Hf.
        by apply elem_of_remove_dups.
      * apply NoDup_fmap_2; [by intros f1 f2|].
        unfold empty. rewrite set_iter_perm.
        apply NoDup_list_difference, NoDup_remove_dups.
    + apply Forall_app. split.
      * eapply Forall_impl; [done|]. simpl. lia.
      * eapply Forall_impl; [done|]. simpl. lia.
    + rewrite sum_app, Hsum0. lia.
    + rewrite filter_app, length_app, Hfull, Hnone, !length_fmap. simpl. lia.
    + rewrite <- Hsum.
      replace (length c0.*1) with (length c0.*2) by (by rewrite !length_fmap).
      clear -Hpos. induction Hpos as [|c l Hc _ IH]; simpl; lia.
  - unfold empty. rewrite set_iter_perm.
    apply NoDup_list_difference, NoDup_remove_dups.
  - intros k. unfold empty. rewrite set_iter_perm.
    intros [_ Hk]%list_elem_of_difference Hin. apply Hk. by apply elem_of_remove_dups.
Qed.


(** ** Ids outside the catalog *)

Lemma py_index_Ok {A} (l : list A) (i : Z) :
  - Z.of_nat (length l) <= i < Z.of_nat (length l) →
  ∃ x : A, py_index l i = Ok x ∧ l !! Z.to_nat (i mod Z.of_nat (length l)) = Some x.
Proof.
  intros Hi. unfold py_index.
  set (j := if i <? 0 then i + Z.of_nat (length l) else i).
  assert (0 <= j < Z.of_nat (length l)) as Hj by (unfold j; destruct (i <? 0) eqn:E; lia).
  assert (i mod Z.of_nat (length l) = j) as ->.
  { unfold j. destruct (i <? 0) eqn:E.
    - rewrite <- (Z.mod_small (i + _) (Z.of_nat (length l))) by lia.
      rewrite <- (Z_mod_plus_full i 1). f_equal. lia.
    - apply Z.mod_small. lia. }
  assert ((0 <=? j) && (j <? Z.of_nat (length l)) = true) as ->
    by (apply andb_true_iff; lia).
  destruct (lookup_lt_is_Some_2 l (Z.to_nat j)) as [x Hx]; [lia|].
  rewrite Hx. eauto.
Qed.

Lemma py_index_IndexError {A} (l : list A) (i : Z) :
  ¬ (- Z.of_nat (length l) <= i < Z.of_nat (length l)) → py_index l i = Raise IndexError.
Proof.
  intros Hi. unfold py_index.
  set (j := if i <? 0 then i + Z.of_nat (length l) else i).
  assert (¬ (0 <= j < Z.of_nat (length l))) as Hj
    by (unfold j; destruct (i <? 0) eqn:E; lia).
  assert ((0 <=? j) && (j <? Z.of_nat (length l)) = false) as ->; [|done].
  apply andb_false_iff. lia.
Qed.

Lemma count_ids_in_range (id_list : list Z) (count : pydict Z) :
  Forall (fun id => - nb_sounds <= id < nb_sounds) id_list →
  ∃ count' : pydict Z,
    count_ids id_list count = Ok count' ∧
    count_ids ((fun id => id mod nb_sounds) <$> id_list) count = Ok count'.
Proof.
  intros Hall. revert count.
  induction Hall as [|id rest Hid _ IH]; intros count; csimpl; [eauto|].
  unfold family_of.
  destruct (py_index_Ok definition id Hid) as (s & -> & Hs).
  destruct (py_index_Ok definition (id mod nb_sounds)) as (s' & -> & Hs').
  { pose proof (Z.mod_pos_bound id nb_sounds). unfold nb_sounds in *. lia. }
  fold nb_sounds in Hs, Hs'. rewrite Z.mod_mod in Hs' by (unfold nb_sounds in *; lia).
  assert (s' = s) as -> by congruence. simpl. apply IH.
Qed.

Lemma count_ids_out_of_range (id_list : list Z) (count : pydict Z) :
  ¬ Forall (fun id => - nb_sounds <= id < nb_sounds) id_list →
  count_ids id_list count = Raise IndexError.
Proof.
  revert count. induction id_list as [|id rest IH]; intros count Hnot; simpl.
  - exfalso. apply Hnot. constructor.
  - unfold family_of.
    destruct (decide (- nb_sounds <= id < nb_sounds)) as [Hid|Hid].
    + destruct (py_index_Ok definition id Hid) as (s & -> & _). simpl.
      apply IH. intros Hrest. apply Hnot. by constructor.
    + by rewrite py_index_IndexError.
Qed.

(** [ids_to_families_count] indexes the catalog as Python indexes a
    list, before anything else is done with the state. With every id in
    [-nb_sounds, nb_sounds) it returns, and so does [validate_final], a
    negative id standing for the sound [nb_sounds + id]; with an id
    outside that range it raises [IndexError], and so do both
    validators, which call it first. *)
Theorem validators_IndexError (state : list Z) (current_level : Z) :
  (Forall (fun id => - nb_sounds <= id < nb_sounds) state →
   (∃ r, ids_to_families_count state = Ok r) ∧
   (∃ b, validate_final state = Ok b) ∧
   ids_to_families_count state =
     ids_to_families_count ((fun id => id mod nb_sounds) <$> state) ∧
   validate_final state = validate_final ((fun id => id mod nb_sounds) <$> state)) ∧
  (¬ Forall (fun id => - nb_sounds <= id < nb_sounds) state →
   ids_to_families_count state = Raise IndexError ∧
   validate_final state = Raise IndexError ∧
   validate_intermediate state current_level = Raise IndexError).
Proof.
  split.
  - intros Hall. unfold validate_final, ids_to_families_count.
    destruct (count_ids_in_range state [] Hall) as (count & -> & ->). simpl.
    split_and!; [eauto | | done | done].
    destruct (_ <? min_nb_families); [eauto|]. destruct (_ <? _); eauto.
  - intros Hnot. unfold validate_final, validate_intermediate, ids_to_families_count.
    by rewrite count_ids_out_of_range.
Qed.


(** ** The relationships of a scene *)

Lemma py_remove_head (x : Z) (l : list Z) : py_remove x (x :: l) = Ok l.
Proof. simpl. by rewrite bool_decide_eq_true_2. Qed.

Lemma seqZ_snoc (m n : Z) : 0 <= n → seqZ m (n + 1) = seqZ m n ++ [m + n].
Proof.
  intros Hn. rewrite seqZ_app by lia. by f_equal.
Qed.

(** The loop from its iteration [k] on, for a scene of [n] positions. *)
Lemma relationships_loop_spec (n : Z) (todo : nat) (k : Z) :
  0 <= k → n = k + Z.of_nat todo →
  relationships_loop (seqZ k (Z.of_nat todo))
    ((fun i => seqZ 0 i) <$> seqZ 0 (Z.max 1 k))
    ((fun i => seqZ (i + 1) (n - 1 - i)) <$> seqZ 0 k)
    (seqZ k (Z.of_nat todo))
  = Ok {| before := (fun i => seqZ 0 i) <$> seqZ 0 (Z.max 1 n);
          after := (fun i => seqZ (i + 1) (n - 1 - i)) <$> seqZ 0 n |}.
Proof.
  revert k. induction todo as [|todo IH]; intros k Hk Hn.
  - simpl. replace n with k by lia. done.
  - rewrite (seqZ_cons k) by lia. simpl relationships_loop.
    rewrite bool_decide_eq_true_2 by done.
    replace (Z.pred (Z.of_nat (S todo))) with (Z.of_nat todo) by lia.
    assert ((if 0 <=? k - 1
             then prev ← py_index ((fun i => seqZ 0 i) <$> seqZ 0 (Z.max 1 k)) (k - 1);
                  Ok (((fun i => seqZ 0 i) <$> seqZ 0 (Z.max 1 k)) ++ [prev ++ [k - 1]])
             else Ok ((fun i => seqZ 0 i) <$> seqZ 0 (Z.max 1 k)))
            = Ok ((fun i => seqZ 0 i) <$> seqZ 0 (Z.max 1 (Z.succ k)))) as ->.
    { destruct (0 <=? k - 1) eqn:E.
      - replace (Z.max 1 k) with k by lia. replace (Z.max 1 (Z.succ k)) with (k + 1) by lia.
        unfold py_index. rewrite length_fmap, length_seqZ, Z2Nat.id by lia.
        assert ((k - 1 <? 0) = false) as -> by lia.
        assert ((0 <=? k - 1) && (k - 1 <? k) = true) as -> by (apply andb_true_iff; lia).
        rewrite list_lookup_fmap, lookup_seqZ_lt by lia. simpl.
        rewrite Z2Nat.id by lia. rewrite (seqZ_snoc 0 k), fmap_app by lia. simpl.
        do 3 f_equal. rewrite !Z.add_0_l.
        replace (seqZ 0 k) with (seqZ 0 ((k - 1) + 1)) by (f_equal; lia).
        rewrite (seqZ_snoc 0 (k - 1)) by lia. by rewrite Z.add_0_l.
      - by replace (Z.max 1 (Z.succ k)) with (Z.max 1 k) by lia. }
    rewrite !bind_ret.
    replace (((fun i => seqZ (i + 1) (n - 1 - i)) <$> seqZ 0 k)
             ++ [seqZ (Z.succ k) (Z.of_nat todo)])
      with ((fun i => seqZ (i + 1) (n - 1 - i)) <$> seqZ 0 (Z.succ k)).
    + apply IH; lia.
    + replace (Z.succ k) with (k + 1) by lia.
      rewrite (seqZ_snoc 0 k), fmap_app by lia. simpl. do 3 f_equal. lia.
Qed.

(** [_generate_relationships] raises no exception. For a scene of
    [nb_objects_per_scene] positions, its [before] table lists for the
    position [i] the positions [0 .. i-1], in order, and its [after]
    table the positions [i+1 .. nb_objects_per_scene-1]: position [j] is
    before [i] exactly when [i] is after [j]. With
    [nb_objects_per_scene <= 0] the [before] table is [[[]]] and the
    [after] table is empty. *)
Theorem _generate_relationships_spec (scene_composition : list sound) :
  ∃ r : relationships,
    _generate_relationships scene_composition = Ok r ∧
    before r = (fun i => seqZ 0 i) <$> seqZ 0 (Z.max 1 nb_objects_per_scene) ∧
    after r = (fun i => seqZ (i + 1) (nb_objects_per_scene - 1 - i))
                <$> seqZ 0 nb_objects_per_scene ∧
    (∀ (i j : nat) (bi aj : list Z),
       before r !! i = Some bi → after r !! j = Some aj →
       (Z.of_nat j ∈ bi ↔ Z.of_nat i ∈ aj)).
Proof.
  unfold _generate_relationships.
  destruct (decide (0 <= nb_objects_per_scene)) as [Hn|Hn].
  - pose proof (relationships_loop_spec nb_objects_per_scene
                  (Z.to_nat nb_objects_per_scene) 0) as Hloop.
    rewrite Z2Nat.id in Hloop by done.
    eexists. split_and!; [apply Hloop; lia | done | done |]. simpl.
    intros i j bi aj Hbi Haj.
    rewrite list_lookup_fmap in Hbi, Haj.
    destruct (seqZ 0 (Z.max 1 nb_objects_per_scene) !! i) as [i'|] eqn:Hi; [|done].
    destruct (seqZ 0 nb_objects_per_scene !! j) as [j'|] eqn:Hj; [|done].
    apply lookup_seqZ in Hi as [-> Hi]. apply lookup_seqZ in Hj as [-> Hj].
    simpl in Hbi, Haj. injection Hbi as <-. injection Haj as <-.
    rewrite !elem_of_seqZ. lia.
  - rewrite !(seqZ_nil 0 nb_objects_per_scene) by lia. simpl.
    eexists. split_and!; [done | | done |]; simpl.
    + by replace (Z.max 1 nb_objects_per_scene) with 1 by lia.
    + intros i j bi aj _ Haj. by rewrite lookup_nil in Haj.
Qed.


(** ** The dataset *)

Lemma swap_Permutation {A} (x : list A) (i j : nat) : swap x i j ≡ₚ x.
Proof.
  unfold swap. destruct (x !! i) as [xi|] eqn:Hi; [|done].
  destruct (x !! j) as [xj|] eqn:Hj; [|done]. by apply Permutation_insert_swap.
Qed.

Lemma shuffle_Permutation {A} (x : list A) (g : rng) : (shuffle x g).1 ≡ₚ x.
Proof.
  unfold shuffle. generalize (length x - 1)%nat. intros i. revert x g.
  induction i as [|i IH]; intros x g; [done|].
  simpl. destruct (randbelow _ g) as [j g']. rewrite IH. apply swap_Permutation.
Qed.

(** What the labelling loop appends to the three lists: the scenes in
    the order they came in, the training scenes first, then the
    validation scenes, then the test scenes, each list numbered from its
    index on. *)
Lemma label_scenes_Ok (l : list (list Z)) (T V k ti vi tei : Z) (out out' : scene_sets) :
  label_scenes l T V k ti vi tei out = Ok out' →
  ∃ tr va te : list scene,
    out' = {| training_scenes := training_scenes out ++ tr;
              valid_scenes := valid_scenes out ++ va;
              test_scenes := test_scenes out ++ te |} ∧
    (T <= k → tr = []) ∧ (T <= k → T + V <= k → va = []) ∧
    Forall2 (fun ids s => scene_composition ids = Ok (objects s)) l (tr ++ va ++ te) ∧
    (∀ i s, tr !! i = Some s → split s = train ∧ image_index s = ti + Z.of_nat i) ∧
    (∀ i s, va !! i = Some s → split s = val ∧ image_index s = vi + Z.of_nat i) ∧
    (∀ i s, te !! i = Some s → split s = test ∧ image_index s = tei + Z.of_nat i).
Proof.
  revert k ti vi tei out.
  induction l as [|ids l IH]; intros k ti vi tei out; simpl.
  - intros [= <-]. exists [], [], []. rewrite !app_nil_r. destruct out.
    split_and!; try done; by constructor.
  - intros H. apply bind_Ok in H as (comp & Hcomp & H).
    destruct (k <? T) eqn:E1; [|destruct (k <? T + V) eqn:E2];
      apply IH in H as (tr & va & te & -> & Htr & Hva & Hall & Hitr & Hiva & Hite);
      simpl; rewrite <- ?app_assoc.
    + eexists (_ :: tr), va, te.
      split_and!; [done | lia | lia | by constructor | | done | done].
      intros [|i] s; simpl.
      * intros [= <-]. simpl. split; [done | lia].
      * intros Hs. destruct (Hitr i s Hs) as [? ->]. split; [done | lia].
    + rewrite Htr in * by lia. eexists [], (_ :: va), te.
      split_and!; [done | done | lia | by constructor | done | | done].
      intros [|i] s; simpl.
      * intros [= <-]. simpl. split; [done | lia].
      * intros Hs. destruct (Hiva i s Hs) as [? ->]. split; [done | lia].
    + rewrite Htr in * by lia. rewrite Hva in * by lia. eexists [], [], (_ :: te).
      split_and!; [done | done | done | by constructor | done | done |].
      intros [|i] s; simpl.
      * intros [= <-]. simpl. split; [done | lia].
      * intros Hs. destruct (Hite i s Hs) as [? ->]. split; [done | lia].
Qed.

Lemma reachable_scenes_catalog (start : Z) (g : rng) (m : machine) :
  reachable (init_machine start g) m → Forall (Forall in_catalog) (generated_scenes m).
Proof using randbelow_range.
  induction 1 as [|fuel m m' Hreach IH Hcw Hbody]; [constructor|].
  pose proof (reachable_inv _ _ _ Hreach) as Hinv.
  pose proof (loop_body_step _ _ _ _ Hinv Hcw Hbody) as Hstep.
  destruct Hstep as
    [ | | | | | c cur valid st x fuel' nn st' cw Hnn Hc Hl Hval Hlimit Hst Hup ];
    simpl; try done.
  destruct valid; [|done]. apply Forall_app. split; [done|].
  constructor; [|done]. apply (inv_state_catalog _ _ Hinv).
Qed.

(** Once the search has returned, [generate] returns, for a training
    ratio between 0 and 1: no id of a scene is out of the catalog.
    Shuffling and splitting neither lose nor repeat a scene: the three
    lists, one after the other, hold the sounds of the scenes of the
    search, in a permutation of their order (in their order when the
    scenes are not shuffled). *)
Theorem generate_keeps_scenes (fuel : nat) (start : Z) (training_set_ratio : Q)
    (shuffle_scenes : bool) (g g1 : rng) (scenes : list (list Z)) :
  (0 <= training_set_ratio <= 1)%Q →
  _generate_scenes_idx fuel start g = Ok (scenes, g1) →
  ∃ (sets : scene_sets) (g2 : rng) (shuffled : list (list Z)),
    generate fuel start training_set_ratio shuffle_scenes g = Ok (sets, g2) ∧
    shuffled ≡ₚ scenes ∧
    (shuffle_scenes = false → shuffled = scenes ∧ g2 = g1) ∧
    Forall2 (fun ids s => scene_composition ids = Ok (objects s)) shuffled
      (training_scenes sets ++ valid_scenes sets ++ test_scenes sets).
Proof using randbelow_range.
  intros _ Hrun. unfold generate. rewrite Hrun, bind_ret.
  assert (Forall (Forall in_catalog) scenes) as Hcat.
  { unfold _generate_scenes_idx in Hrun.
    apply bind_Ok in Hrun as (m & [Hreach _]%run_search_Ok & [= <- _]).
    by eapply reachable_scenes_catalog. }
  set (sg := if shuffle_scenes then shuffle scenes g1 else (scenes, g1)).
  assert (sg.1 ≡ₚ scenes) as Hperm.
  { unfold sg. destruct shuffle_scenes; [apply shuffle_Permutation | done]. }
  destruct sg as [shuffled g2] eqn:Hsg. simpl in Hperm.
  assert (Forall (Forall in_catalog) shuffled) as Hcat' by (by rewrite Hperm).
  unfold split_scenes.
  edestruct (label_scenes_spec shuffled) as
    (tr & va & te & -> & _ & _ & _ & _ & _ & Hall); [done|].
  rewrite bind_ret. eexists _, g2, shuffled. split_and!; [done | done | | done].
  intros ->. unfold sg in Hsg. by injection Hsg as <- <-.
Qed.

(** In each of the three lists that [generate] returns the scenes carry
    the label of the list, and the indices 0, 1, 2, ... in order. *)
Theorem generate_image_index (fuel : nat) (start : Z) (training_set_ratio : Q)
    (shuffle_scenes : bool) (g g' : rng) (sets : scene_sets) :
  generate fuel start training_set_ratio shuffle_scenes g = Ok (sets, g') →
  (∀ (i : nat) (s : scene),
     training_scenes sets !! i = Some s → split s = train ∧ image_index s = Z.of_nat i) ∧
  (∀ (i : nat) (s : scene),
     valid_scenes sets !! i = Some s → split s = val ∧ image_index s = Z.of_nat i) ∧
  (∀ (i : nat) (s : scene),
     test_scenes sets !! i = Some s → split s = test ∧ image_index s = Z.of_nat i).
Proof.
  unfold generate. intros H. apply bind_Ok in H as ([scenes g1] & _ & H).
  destruct (if shuffle_scenes then shuffle scenes g1 else (scenes, g1)) as [shuffled g2].
  apply bind_Ok in H as (sets' & Hsplit & [= <- _]).
  unfold split_scenes in Hsplit.
  apply label_scenes_Ok in Hsplit as (tr & va & te & -> & _ & _ & _ & Htr & Hva & Hte).
  simpl. split_and!; intros i s Hs; [apply Htr in Hs | apply Hva in Hs | apply Hte in Hs];
    by rewrite Z.add_0_l in Hs.
Qed.


(** ** The number of scenes under a limit *)

(** With a limit other than 0, a search that returns has emitted
    exactly the scenes that the limit left room for, [nb_to_generate -
    start_index] of them or none, unless the child slots of the root
    ran out first. *)
Theorem scenes_up_to_limit (fuel : nat) (start limit : Z) (g : rng) (m : machine) :
  nb_to_generate = Some limit → limit ≠ 0 →
  run_search fuel start g = Ok m →
  (halted_at_limit m ∧
   Z.of_nat (length (generated_scenes m)) = Z.max 0 (limit - start)) ∨
  (halted_at_root m ∧
   Z.of_nat (length (generated_scenes m)) <= Z.max 0 (limit - start)).
Proof using randbelow_range.
  intros Hlimit Hne [Hreach Hcw]%run_search_Ok.
  pose proof (reachable_inv _ _ _ Hreach) as Hinv.
  pose proof (inv_limit _ _ Hinv limit Hlimit Hne) as Hle.
  pose proof (inv_start_index _ _ Hinv) as Hidx.
  assert (halted_at_root m ∨ halted_at_limit m) as [Hroot | Hlim].
  { inversion Hreach as [Heq | fuel' m1 m2 Hreach1 Hcw1 Hbody Heq].
    - by rewrite <- Heq in Hcw.
    - subst m2. pose proof (reachable_inv _ _ _ Hreach1) as Hinv1.
      eapply step_halt; [done | done | | done]. by eapply loop_body_step. }
  - by right.
  - left. split; [done|].
    destruct Hlim as (limit' & leaf & n & Hlimit' & _ & Hreached & _).
    assert (limit' = limit) as -> by congruence. lia.
Qed.





(** ** A search that ends at the root has filled its tree *)

Lemma prefix_snoc_inv {A} (p l : list A) (x : A) :
  p `prefix_of` l ++ [x] → p = l ++ [x] ∨ p `prefix_of` l.
Proof.
  intros [k Hk]. destruct k as [|y k _] using rev_ind.
  - left. by rewrite app_nil_r in Hk.
  - right. rewrite app_assoc in Hk. apply app_inj_tail in Hk as [-> _]. by exists k.
Qed.

Lemma at_path_root_nil (hp : heap) (p : list Z) (h : handle) (n : Node) :
  at_path hp p h → hp !! h = Some n → parent n = None → p = [].
Proof.
  intros Hpath Hn Hp. destruct Hpath as [|p a c n' _ Hn' Hp']; [done|]. congruence.
Qed.

(** The climb leaves behind full nodes only. *)
Lemma go_up_full (fuel : nat) (hp : heap) (a : handle) (st st' : list Z)
    (nn : option handle) (cw : bool) :
  path_inv hp → at_path hp st a → go_up fuel hp (Some a) st = Ok (nn, st', cw) →
  ∀ (p0 : list Z) (h : handle) (n : Node),
    p0 `prefix_of` st → at_path hp p0 h → hp !! h = Some n →
    (nn ≠ None ∧ p0 `prefix_of` st') ∨ nb_tree_branch <= Z.of_nat (length (childs n)).
Proof.
  intros Hpinv. revert a st.
  induction fuel as [|fuel IH]; intros a st Hpath;
    destruct (at_path_lookup _ _ _ Hpath) as [na Hna]; simpl;
    rewrite (proj2 (deref_Ok _ _ _) Hna), bind_ret;
    destruct (nb_tree_branch <=? Z.of_nat (length (childs na))) eqn:Ew; try done.
  - intros [= <- <- <-] p0 h n Hp0 Hh Hn. by left.
  - destruct (parent na) as [p|] eqn:Hp.
    + intros H. apply bind_Ok in H as (st1 & [x ->]%py_pop_Ok & H).
      intros p0 h n Hp0 Hh Hn.
      apply prefix_snoc_inv in Hp0 as [-> | Hp0].
      * right. assert (h = a) as -> by (by eapply at_path_inj).
        assert (n = na) as -> by congruence. lia.
      * destruct (at_path_parent _ _ _ _ _ _ Hpath Hna Hp) as [Hpath' _].
        exact (IH p st1 Hpath' H p0 h n Hp0 Hh Hn).
    + intros [= <- <- <-] p0 h n Hp0 Hh Hn. right.
      pose proof (at_path_root_nil _ _ _ _ Hpath Hna Hp) as Hnil. subst st.
      apply prefix_nil_inv in Hp0 as ->.
      assert (h = a) as -> by (by eapply at_path_inj).
      assert (n = na) as -> by congruence. lia.
  - intros [= <- <- <-] p0 h n Hp0 Hh Hn. by left.
Qed.

Lemma init_machine_explored (start : Z) (g : rng) :
  1 <= nb_objects_per_scene → explored_inv (init_machine start g).
Proof.
  intros HL.
  assert (∀ h n, [root_node] !! h = Some n → h = 0%nat ∧ n = root_node) as Hone.
  { intros [|h] n; simpl; [by intros [= <-] | by rewrite lookup_nil]. }
  split; simpl; intros h n [-> ->]%Hone; simpl; [done | lia].
Qed.

Lemma step_explored (start : Z) (m m' : machine) :
  search_inv start m → path_inv (nodes m) → cur_path m → continue_work m = true →
  step m m' → explored_inv m → explored_inv m'.
Proof.
  intros Hinv Hpinv Hcur Hcw Hstep [Hfull Hleaves].
  pose proof (inv_tree _ _ Hinv) as Htree.
  destruct (inv_current _ _ Hinv Hcw) as (c0 & cur0 & Hnn0 & Hc0 & Hlev).
  destruct (Hcur Hcw) as (c1 & Hnn1 & Hpath).
  assert (c1 = c0) as -> by congruence.
  destruct Hstep as
    [ c cur siblings fuel id g' hp' child Hnn Hc Hl Hw Hsib Hid Hadd Hval
    | c cur siblings fuel id g' hp' child Hnn Hc Hl Hw Hsib Hid Hadd Hval
    | c cur Hnn Hc Hl Hw Hp
    | c cur p st x Hnn Hc Hl Hw Hp Hst
    | c cur Hnn Hc Hl Hval Hlimit
    | c cur valid st x fuel nn st' cw Hnn Hc Hl Hval Hlimit Hst Hup ];
    (assert (c0 = c) as -> by congruence); (assert (cur0 = cur) as -> by congruence).
  - split; simpl; intros h n Hn.
    + intros Hch. destruct (decide (h = c)) as [->|Hne].
      { right. split; [done|]. exists (state m). simpl.
        split; [by apply prefix_app_r | by eapply at_path_add_child]. }
      apply (add_child_cases _ _ _ _ _ _ _ Hadd) in Hn
        as [(_ & Hnil & _) | (_ & y & Hy & _ & _ & _ & [Hsame | [-> _]])]; try done.
      rewrite Hsame in *. destruct (Hfull h y Hy Hch) as [? | [_ (p0 & Hp0 & Hh)]]; [by left|].
      right. split; [done|]. exists p0. simpl.
      split; [by apply prefix_app_r | by eapply at_path_add_child].
    + intros Hlv. apply (add_child_cases _ _ _ _ _ _ _ Hadd) in Hn
        as [(_ & Hnil & _) | (_ & y & Hy & Hly & _ & _ & [Hsame | [-> _]])]; [done | |].
      * rewrite Hsame. apply (Hleaves h y Hy). lia.
      * assert (y = cur) as -> by congruence. lia.
  - split; simpl; intros h n Hn.
    + intros Hch. destruct (decide (h = c)) as [->|Hne].
      { right. split; [done|]. exists (state m). simpl.
        split; [done | by eapply at_path_add_child]. }
      apply (add_child_cases _ _ _ _ _ _ _ Hadd) in Hn
        as [(_ & Hnil & _) | (_ & y & Hy & _ & _ & _ & [Hsame | [-> _]])]; try done.
      rewrite Hsame in *. destruct (Hfull h y Hy Hch) as [? | [_ (p0 & Hp0 & Hh)]]; [by left|].
      right. split; [done|]. exists p0. simpl.
      split; [done | by eapply at_path_add_child].
    + intros Hlv. apply (add_child_cases _ _ _ _ _ _ _ Hadd) in Hn
        as [(_ & Hnil & _) | (_ & y & Hy & Hly & _ & _ & [Hsame | [-> _]])]; [done | |].
      * rewrite Hsame. apply (Hleaves h y Hy). lia.
      * assert (y = cur) as -> by congruence. lia.
  - split; simpl; [|done]. intros h n Hn Hch. left.
    destruct (Hfull h n Hn Hch) as [? | [_ (p0 & Hp0 & Hh)]]; [done|].
    pose proof (at_path_root_nil _ _ _ _ Hpath Hc Hp) as Hnil.
    rewrite Hnil in Hp0, Hpath. apply prefix_nil_inv in Hp0 as ->.
    assert (h = c) as -> by (by eapply at_path_inj).
    assert (n = cur) as -> by congruence. done.
  - split; simpl; [|done]. intros h n Hn Hch.
    destruct (Hfull h n Hn Hch) as [? | [_ (p0 & Hp0 & Hh)]]; [by left|].
    rewrite Hst in Hp0, Hpath. apply prefix_snoc_inv in Hp0 as [-> | Hp0].
    + left. assert (h = c) as -> by (by eapply at_path_inj).
      assert (n = cur) as -> by congruence. done.
    + right. split; [done|]. by exists p0.
  - split; simpl; [|done]. intros h n Hn Hch.
    destruct (Hfull h n Hn Hch) as [? | [_ Hon]]; [by left|]. right. split; [|done].
    simpl. by rewrite Hnn.
  - split; simpl; [|done]. intros h n Hn Hch.
    destruct (Hfull h n Hn Hch) as [? | [_ (p0 & Hp0 & Hh)]]; [by left|].
    rewrite Hst in Hp0, Hpath. apply prefix_snoc_inv in Hp0 as [-> | Hp0].
    { exfalso. assert (h = c) as -> by (by eapply at_path_inj).
      assert (n = cur) as -> by congruence. by apply Hch, (Hleaves c cur). }
    destruct (parent cur) as [p|] eqn:Hp; [|by rewrite go_up_None in Hup].
    apply (at_path_parent _ _ _ _ p cur) in Hpath as [Hpath _]; [|done..].
    destruct (go_up_full _ _ _ _ _ _ _ Hpinv Hpath Hup p0 h n Hp0 Hh Hn) as [[Hsome Hpre] | ?];
      [|by left].
    right. split; [done|]. by exists p0.
Qed.

(** When the search has ended at the root, every node that got a child
    got all its [nb_tree_branch] children; the nodes without a child
    are the leaves and the nodes whose draw failed intermediate
    validation. No node on the level of the leaves ever has a child. *)
Theorem exhausted_tree_is_full (start : Z) (g : rng) (m : machine) :
  1 <= nb_objects_per_scene → 0 <= nb_tree_branch →
  reachable (init_machine start g) m →
  (∀ (h : handle) (n : Node),
     nodes m !! h = Some n → nb_objects_per_scene - 1 <= level n → childs n = []) ∧
  (next_node m = None →
   Forall (fun n => childs n = [] ∨ Z.of_nat (length (childs n)) = nb_tree_branch)
     (nodes m)).
Proof using randbelow_range.
  intros HL HW Hreach.
  assert (explored_inv m) as [Hfull Hleaves].
  { induction Hreach as [|fuel m m' Hreach IH Hcw Hbody];
      [by apply init_machine_explored|].
    pose proof (reachable_inv _ _ _ Hreach) as Hinv.
    destruct (reachable_paths _ _ _ Hreach) as (Hpinv & Hcur & _).
    eapply step_explored; [done | done | done | done | | done].
    by eapply loop_body_step. }
  split; [done|]. intros Hnone.
  pose proof (heap_childs_width _ (reachable_heap_inv _ _ _ HW Hreach)) as Hwidth.
  apply Forall_lookup_2. intros h n Hn.
  destruct (decide (childs n = [])) as [?|Hch]; [by left|]. right.
  pose proof (Forall_lookup_1 _ _ _ _ Hwidth Hn) as Hle. simpl in Hle.
  destruct (Hfull h n Hn Hch) as [? | [Hsome _]]; [lia | done].
Qed.


(** ** Loading the catalog *)

Lemma list_ascii_of_string_app (s1 s2 : string) :
  String.list_ascii_of_string (s1 +:+ s2) =
  String.list_ascii_of_string s1 ++ String.list_ascii_of_string s2.
Proof. induction s1 as [|a s1 IH]; simpl; [done | by rewrite IH]. Qed.

Lemma endswith_app (s suffix : string) : endswith (s +:+ suffix) suffix = true.
Proof.
  unfold endswith. apply bool_decide_eq_true. rewrite list_ascii_of_string_app.
  by apply suffix_app_r.
Qed.

Lemma drop_last_app (s suffix : string) :
  drop_last (String.length suffix) (s +:+ suffix) = s.
Proof.
  unfold drop_last. rewrite list_ascii_of_string_app, length_app.
  replace (String.length suffix) with (length (String.list_ascii_of_string suffix)).
  - rewrite Nat.add_sub, take_app_length. apply String.string_of_list_ascii_of_string.
  - clear. induction suffix as [|a s IH]; simpl; [done | by rewrite IH].
Qed.

Lemma endswith_drop_last (s suffix : string) :
  endswith s suffix = true → s = drop_last (String.length suffix) s +:+ suffix.
Proof.
  unfold endswith. intros [k Hk]%bool_decide_eq_true.
  rewrite <- (String.string_of_list_ascii_of_string s), Hk.
  assert (String.string_of_list_ascii (k ++ String.list_ascii_of_string suffix)
          = String.string_of_list_ascii k +:+ suffix) as ->.
  { clear. induction k as [|a k IH]; simpl.
    - apply String.string_of_list_ascii_of_string.
    - by rewrite IH. }
  by rewrite drop_last_app.
Qed.

Lemma drop_last_str (x : string) : drop_last 4 (x +:+ "_str") = x.
Proof. exact (drop_last_app x "_str"). Qed.

Lemma endswith_str_eq (k : string) :
  endswith k "_str" = true → k = drop_last 4 k +:+ "_str".
Proof. exact (endswith_drop_last k "_str"). Qed.

Lemma dict_keys_get {V} (k : string) (d : pydict V) :
  k ∈ dict_keys d ↔ ∃ v, dict_get k d = Some v.
Proof.
  pose proof (dict_get_None k d) as Hn. destruct (dict_get k d) as [v|] eqn:E.
  - split; [eauto | intros _]. apply dec_stable. intros Hc. apply Hn in Hc. done.
  - split; [intros Hin | by intros [v ?]]. exfalso. by apply Hn.
Qed.

Lemma dict_remove_keys {V} (k x : string) (d : pydict V) :
  x ∈ dict_keys (dict_remove k d) → x ∈ dict_keys d.
Proof.
  unfold dict_keys. induction d as [|[k' v'] d IH]; csimpl; [done|].
  destruct (String.eqb k' k); csimpl; [by right|].
  intros [->|Hx]%elem_of_cons; [by left | right; by apply IH].
Qed.

Lemma dict_remove_NoDup {V} (k : string) (d : pydict V) :
  NoDup (dict_keys d) → NoDup (dict_keys (dict_remove k d)).
Proof.
  unfold dict_keys. induction d as [|[k' v'] d IH]; csimpl; [done|].
  intros [Hk Hnd]%NoDup_cons. destruct (String.eqb k' k); csimpl; [done|].
  apply NoDup_cons. split; [|by apply IH]. intros Hin. by apply Hk, (dict_remove_keys k).
Qed.

Lemma dict_get_remove {V} (k x : string) (d : pydict V) :
  NoDup (dict_keys d) →
  dict_get x (dict_remove k d) = if decide (x = k) then None else dict_get x d.
Proof.
  unfold dict_keys. induction d as [|[k' v'] d IH]; csimpl; intros Hnd.
  - by destruct (decide (x = k)).
  - apply NoDup_cons in Hnd as [Hk Hnd]. destruct (String.eqb k' k) eqn:E.
    + apply String.eqb_eq in E. subst k'. destruct (decide (x = k)) as [->|Hx].
      * by apply dict_get_None.
      * destruct (String.eqb k x) eqn:E'; [|done]. by apply String.eqb_eq in E'.
    + simpl. rewrite IH by done. destruct (decide (x = k)) as [->|Hx]; [|done].
      by rewrite E.
Qed.

Lemma bool_decide_elem_of_cons_ne (x k : string) (ks : list string) :
  x ≠ k → bool_decide (x ∈ k :: ks) = bool_decide (x ∈ ks).
Proof.
  intros Hne. apply bool_decide_ext. rewrite elem_of_cons.
  split; [by intros [?|?] | by right].
Qed.

(** The renaming loop raises no [KeyError]. When no key ends with
    [_str_str], it leaves no key of the loop ending with [_str], and the
    value that was under [x_str] under [x]. *)
Lemma rename_str_keys_spec (ks : list string) (d : pydict json) :
  NoDup ks → NoDup (dict_keys d) → (∀ k, k ∈ ks → k ∈ dict_keys d) →
  ∃ d' : pydict json,
    rename_str_keys ks d = Done d' ∧ NoDup (dict_keys d') ∧
    ((∀ k, k ∈ ks → endswith k "_str" = true → endswith (drop_last 4 k) "_str" = false) →
     ∀ x, dict_get x d' =
       if endswith x "_str" && bool_decide (x ∈ ks) then None
       else if bool_decide (x +:+ "_str" ∈ ks) then dict_get (x +:+ "_str") d
       else dict_get x d).
Proof.
  revert d. induction ks as [|k ks IH]; intros d Hnd Hndd Hin.
  { exists d. split_and!; [done | done |]. intros _ x. by rewrite andb_false_r. }
  apply NoDup_cons in Hnd as [Hk Hnd]. simpl.
  destruct (endswith k "_str") eqn:Ek.
  - assert (k ∈ dict_keys d) as [v Hv]%dict_keys_get by (apply Hin; by left).
    unfold dict_item. rewrite Hv. simpl.
    set (d0 := dict_set (drop_last 4 k) v d).
    assert (∃ v0, dict_get k d0 = Some v0) as [v0 Hv0].
    { unfold d0. destruct (decide (drop_last 4 k = k)) as [->|Hne].
      - rewrite dict_get_set_eq. eauto.
      - rewrite dict_get_set_ne by done. eauto. }
    unfold dict_del. rewrite Hv0. simpl.
    assert (NoDup (dict_keys d0)) as Hnd0 by (by apply dict_set_NoDup).
    destruct (IH (dict_remove k d0)) as (d' & -> & Hnd' & Hspec);
      [done | by apply dict_remove_NoDup | |].
    { intros k' Hk'. apply dict_keys_get. rewrite dict_get_remove by done.
      destruct (decide (k' = k)) as [->|Hne]; [done|].
      unfold d0. destruct (decide (drop_last 4 k = k')) as [<-|Hne'].
      - rewrite dict_get_set_eq. eauto.
      - rewrite dict_get_set_ne by done. apply dict_keys_get, Hin. by right. }
    exists d'. split_and!; [done | done |]. intros Hstr x.
    pose proof (endswith_str_eq k Ek) as Hkeq.
    assert (endswith (drop_last 4 k) "_str" = false) as Esk by (apply Hstr; [by left | done]).
    assert (drop_last 4 k ≠ k) as Hsk by (intros Heq; congruence).
    assert (∀ y, dict_get y (dict_remove k d0) =
              if decide (y = k) then None
              else if decide (y = drop_last 4 k) then Some v else dict_get y d) as Hd1.
    { intros y. rewrite dict_get_remove by done. destruct (decide (y = k)); [done|].
      unfold d0. destruct (decide (y = drop_last 4 k)) as [->|Hy].
      - by rewrite dict_get_set_eq.
      - by rewrite dict_get_set_ne. }
    assert (∀ y, y +:+ "_str" ∈ k :: ks → endswith y "_str" = false) as Hsuf.
    { intros y Hy. pose proof (Hstr _ Hy (endswith_app y "_str")) as Hc.
      by rewrite drop_last_str in Hc. }
    rewrite Hspec by (intros k' Hk'; apply Hstr; by right). rewrite !Hd1.
    destruct (decide (x = k)) as [->|Hx].
    + rewrite Ek, (bool_decide_eq_false_2 (k ∈ ks)) by done.
      rewrite (bool_decide_eq_true_2 (k ∈ k :: ks)) by (by left). simpl.
      rewrite bool_decide_eq_false_2; [done|].
      intros Hc. rewrite (Hsuf k) in Ek; [done | by right].
    + rewrite (bool_decide_elem_of_cons_ne x k) by done.
      destruct (endswith x "_str" && bool_decide (x ∈ ks)) eqn:E1; [done|].
      destruct (decide (x +:+ "_str" = k)) as [Hxk|Hxk].
      * assert (x = drop_last 4 k) as Hxs.
        { rewrite <- Hxk. by rewrite drop_last_str. }
        rewrite Hxk, (bool_decide_eq_false_2 (k ∈ ks)) by done.
        rewrite (bool_decide_eq_true_2 (k ∈ k :: ks)) by (by left).
        rewrite (decide_True (P := x = drop_last 4 k)) by done. done.
      * rewrite (bool_decide_elem_of_cons_ne (x +:+ "_str") k) by done.
        destruct (bool_decide (x +:+ "_str" ∈ ks)) eqn:E2.
        -- rewrite decide_False; [done|]. intros Heq.
           pose proof (endswith_app x "_str") as Hc. rewrite Heq in Hc. congruence.
        -- rewrite decide_False; [done|]. intros ->. by rewrite <- Hkeq in Hxk.
  - destruct (IH d) as (d' & -> & Hnd' & Hspec); [done | done | |].
    { intros k' Hk'. apply Hin. by right. }
    exists d'. split_and!; [done | done |]. intros Hstr x.
    rewrite Hspec by (intros k' Hk'; apply Hstr; by right).
    assert (endswith x "_str" && bool_decide (x ∈ k :: ks)
            = endswith x "_str" && bool_decide (x ∈ ks)) as ->.
    { destruct (decide (x = k)) as [->|Hx].
      - by rewrite Ek.
      - by rewrite bool_decide_elem_of_cons_ne. }
    rewrite (bool_decide_elem_of_cons_ne (x +:+ "_str") k); [done|].
    intros Heq. pose proof (endswith_app x "_str") as Hc. rewrite Heq in Hc. congruence.
Qed.

(** The body of the loop of [_preprocess_sounds], for a record with a
    [note_str] that names a wav file. *)
Lemma _preprocess_sound_record (audio : string → option (Z * Z))
    (primary_sound : pydict json) (name : string) (duration_ms rms_value : Z) :
  NoDup (dict_keys primary_sound) →
  dict_get "note_str" primary_sound = Some (JStr name) →
  audio name = Some (duration_ms, rms_value) →
  ∃ d' : pydict json,
    _preprocess_sound audio primary_sound = Done d' ∧
    NoDup (dict_keys d') ∧
    ((∀ k, k ∈ dict_keys primary_sound → endswith k "_str" = true →
        endswith (drop_last 4 k) "_str" = false) →
     dict_get "note" d' = Some (JStr name) ∧
     ∀ x, dict_get x d' =
       if decide (x = "rms") then Some (JInt rms_value)
       else if decide (x = "duration") then Some (JInt duration_ms)
       else if decide (x = "sample_rate") then None
       else if endswith x "_str" then None
       else match dict_get (x +:+ "_str") primary_sound with
            | Some v => Some v
            | None => dict_get x primary_sound
            end).
Proof.
  intros Hnd Hnote Haudio. unfold _preprocess_sound, dict_item.
  rewrite Hnote. simpl. rewrite Haudio.
  destruct (rename_str_keys_spec (dict_keys primary_sound) primary_sound)
    as (d1 & -> & Hnd1 & Hspec); [done | done | done |]. simpl.
  set (d2 := if bool_decide ("sample_rate" ∈ dict_keys d1)
             then dict_del "sample_rate" d1 else Done d1).
  assert (∃ d2', d2 = Done d2' ∧ NoDup (dict_keys d2') ∧
            ∀ x, dict_get x d2' =
              if decide (x = "sample_rate") then None else dict_get x d1)
    as (d2' & -> & Hnd2 & Hd2).
  { unfold d2. case_bool_decide as Hsr.
    - apply dict_keys_get in Hsr as [v Hv]. unfold dict_del. rewrite Hv.
      eexists. split_and!; [done | by apply dict_remove_NoDup |].
      intros x. by apply dict_get_remove.
    - exists d1. split_and!; [done | done |]. intros x.
      destruct (decide (x = "sample_rate")) as [->|]; [by apply dict_get_None | done]. }
  simpl. eexists. split_and!; [done | by do 2 apply dict_set_NoDup |].
  intros Hstr.
  assert (∀ x, dict_get x (dict_set "rms" (JInt rms_value)
                            (dict_set "duration" (JInt duration_ms) d2')) =
            if decide (x = "rms") then Some (JInt rms_value)
            else if decide (x = "duration") then Some (JInt duration_ms)
            else if decide (x = "sample_rate") then None
            else if endswith x "_str" then None
            else match dict_get (x +:+ "_str") primary_sound with
                 | Some v => Some v
                 | None => dict_get x primary_sound
                 end) as Hall.
  { intros x. destruct (decide (x = "rms")) as [->|Hr]; [by rewrite dict_get_set_eq|].
    rewrite dict_get_set_ne by done.
    destruct (decide (x = "duration")) as [->|Hd]; [by rewrite dict_get_set_eq|].
    rewrite dict_get_set_ne by done. rewrite Hd2.
    destruct (decide (x = "sample_rate")) as [->|Hs]; [done|].
    rewrite (Hspec Hstr).
    destruct (endswith x "_str") eqn:Ex; simpl.
    - case_bool_decide as Hx; [done|]. case_bool_decide as Hxs.
      + exfalso. pose proof (Hstr _ Hxs (endswith_app x "_str")) as Hc.
        rewrite drop_last_str in Hc. congruence.
      + by apply dict_get_None.
    - case_bool_decide as Hxs.
      + apply dict_keys_get in Hxs as [v Hv]. by rewrite Hv.
      + apply dict_get_None in Hxs. by rewrite Hxs. }
  split; [|done]. rewrite Hall. simpl. change ("note" +:+ "_str") with "note_str".
  by rewrite Hnote.
Qed.

(** [_preprocess_sounds], for a catalog file in which every record
    has a [note_str] that names a wav file of the folder: it raises no
    exception and keeps the records in their order. A record none of
    whose keys ends with [_str_str] is left with no key ending with
    [_str] and with no [sample_rate]; its [duration] and [rms] are those
    of the wav file; any other attribute [x] has the value that the
    record had under [x_str], or under [x] when it had no [x_str]. So
    [note] is the former [note_str]. *)
Theorem _preprocess_sounds_spec (audio : string → option (Z * Z))
    (raw : list (pydict json)) :
  Forall (λ d, NoDup (dict_keys d) ∧
               ∃ name duration_ms rms_value,
                 dict_get "note_str" d = Some (JStr name) ∧
                 audio name = Some (duration_ms, rms_value)) raw →
  ∃ loaded : list (pydict json),
    _preprocess_sounds audio raw = Done loaded ∧
    Forall2 (λ d d',
      NoDup (dict_keys d') ∧
      ((∀ k, k ∈ dict_keys d → endswith k "_str" = true →
          endswith (drop_last 4 k) "_str" = false) →
       ∃ name duration_ms rms_value,
         dict_get "note_str" d = Some (JStr name) ∧
         audio name = Some (duration_ms, rms_value) ∧
         dict_get "note" d' = Some (JStr name) ∧
         ∀ x, dict_get x d' =
           if decide (x = "rms") then Some (JInt rms_value)
           else if decide (x = "duration") then Some (JInt duration_ms)
           else if decide (x = "sample_rate") then None
           else if endswith x "_str" then None
           else match dict_get (x +:+ "_str") d with
                | Some v => Some v
                | None => dict_get x d
                end))
      raw loaded.
Proof.
  induction 1 as [|d raw (Hnd & name & duration_ms & rms_value & Hnote & Haudio) _ IH].
  { exists []. by split; [|constructor]. }
  destruct IH as (loaded & Hrest & Hall).
  destruct (_preprocess_sound_record audio d name duration_ms rms_value Hnd Hnote Haudio)
    as (d' & Hd' & Hnd' & Hspec).
  exists (d' :: loaded). simpl. rewrite Hd'. simpl. rewrite Hrest. simpl.
  split; [done|]. constructor; [|done]. split; [done|]. intros Hstr.
  destruct (Hspec Hstr) as [Hn Hx]. by exists name, duration_ms, rms_value.
Qed.

End Generator.

Arguments nodes {rng} m.
Arguments next_node {rng} m.
Arguments state {rng} m.
Arguments generated_scenes {rng} m.
Arguments start_index {rng} m.
Arguments gen {rng} m.
Arguments continue_work {rng} m.
Arguments init_machine {rng} start_index g.

(** ** Reproducible runs

    Two runs of the program differ in the hash seed of the interpreter
    (the order in which a set of strings is iterated), in the state the
    generator was left in before [random.seed], and here in the fuel. *)

Section Determinism.

Context (definition : list sound).
Context (set_iter1 set_iter2 : list string → list string).
Context (set_iter1_perm : ∀ l, set_iter1 l ≡ₚ l).
Context (set_iter2_perm : ∀ l, set_iter2 l ≡ₚ l).
Context (nb_objects_per_scene nb_tree_branch : Z).
Context (min_nb_families min_objects_per_family : Z).
Context (min_nb_families_subject_to_min_objects_per_family : Z).
Context (rng : Type) (randbelow : Z → rng → Z * rng).
Context (nb_to_generate : option Z) (fl : Q → Q) (seed_rng : Z → rng).

(** The two runs build histograms with the same entries. *)
Lemma ids_to_families_count_set_iter (st : list Z) :
  match ids_to_families_count definition set_iter1 st,
        ids_to_families_count definition set_iter2 st with
  | Ok (count1, n1), Ok (count2, n2) => count1 ≡ₚ count2 ∧ n1 = n2
  | Raise e1, Raise e2 => e1 = e2
  | Timeout, Timeout => True
  | _, _ => False
  end.
Proof using set_iter1_perm set_iter2_perm.
  unfold ids_to_families_count.
  destruct (count_ids definition st []) as [count| |]; simpl; [|done|done].
  split; [|done].
  set (empty := list_difference _ _).
  assert (NoDup empty ∧ ∀ k, k ∈ empty → k ∉ dict_keys count) as [Hnd Hfresh].
  { split.
    - apply NoDup_list_difference, NoDup_remove_dups.
    - intros k [_ Hk]%list_elem_of_difference. by rewrite elem_of_remove_dups in Hk. }
  rewrite !foldl_dict_set_fresh.
  - by rewrite set_iter1_perm, set_iter2_perm.
  - by rewrite set_iter2_perm.
  - intros k. rewrite set_iter2_perm. apply Hfresh.
  - by rewrite set_iter1_perm.
  - intros k. rewrite set_iter1_perm. apply Hfresh.
Qed.

Lemma validate_final_set_iter (st : list Z) :
  validate_final definition set_iter1 min_nb_families min_objects_per_family
    min_nb_families_subject_to_min_objects_per_family st =
  validate_final definition set_iter2 min_nb_families min_objects_per_family
    min_nb_families_subject_to_min_objects_per_family st.
Proof using set_iter1_perm set_iter2_perm.
  unfold validate_final. pose proof (ids_to_families_count_set_iter st) as H.
  destruct (ids_to_families_count definition set_iter1 st) as [[c1 n1]| |],
    (ids_to_families_count definition set_iter2 st) as [[c2 n2]| |];
    try done; [|by subst]. destruct H as [Hperm ->]. simpl.
  rewrite !meet_requirements_loop_ltb. unfold dict_values. by rewrite Hperm.
Qed.

Lemma validate_intermediate_set_iter (st : list Z) (current_level : Z) :
  validate_intermediate definition set_iter1 nb_objects_per_scene min_nb_families
    min_objects_per_family min_nb_families_subject_to_min_objects_per_family
    st current_level =
  validate_intermediate definition set_iter2 nb_objects_per_scene min_nb_families
    min_objects_per_family min_nb_families_subject_to_min_objects_per_family
    st current_level.
Proof using set_iter1_perm set_iter2_perm.
  unfold validate_intermediate. pose proof (ids_to_families_count_set_iter st) as H.
  destruct (ids_to_families_count definition set_iter1 st) as [[c1 n1]| |],
    (ids_to_families_count definition set_iter2 st) as [[c2 n2]| |];
    try done; [|by subst]. destruct H as [Hperm ->]. simpl.
  assert (length (filter (fun fc : string * Z => min_objects_per_family <= fc.2) c1) =
          length (filter (fun fc : string * Z => min_objects_per_family <= fc.2) c2))
    as -> by (by rewrite Hperm).
  done.
Qed.

Lemma loop_body_set_iter (fuel : nat) (m : machine rng) :
  loop_body definition set_iter1 nb_objects_per_scene nb_tree_branch min_nb_families
    min_objects_per_family min_nb_families_subject_to_min_objects_per_family
    rng randbelow nb_to_generate fuel m =
  loop_body definition set_iter2 nb_objects_per_scene nb_tree_branch min_nb_families
    min_objects_per_family min_nb_families_subject_to_min_objects_per_family
    rng randbelow nb_to_generate fuel m.
Proof using set_iter1_perm set_iter2_perm.
  unfold loop_body.
  destruct (next_node m) as [c|]; [|done].
  destruct (deref (nodes m) c) as [cur| |]; try done. simpl.
  destruct (level cur <? nb_objects_per_scene - 1).
  - destruct (Z.of_nat (length (childs cur)) <? nb_tree_branch); [|done].
    destruct (childs_sound_ids _ _) as [siblings| |]; try done. simpl.
    destruct (next_id _ _ _ _ _ _ _) as [[id g']| |]; try done. simpl.
    destruct (add_child _ _ _) as [[hp child]| |]; try done. simpl.
    destruct (deref hp child) as [cn| |]; try done. simpl.
    by rewrite validate_intermediate_set_iter.
  - by rewrite validate_final_set_iter.
Qed.

Lemma while_continue_work_set_iter (iterations fuel : nat) (m : machine rng) :
  while_continue_work definition set_iter1 nb_objects_per_scene nb_tree_branch
    min_nb_families min_objects_per_family
    min_nb_families_subject_to_min_objects_per_family
    rng randbelow nb_to_generate iterations fuel m =
  while_continue_work definition set_iter2 nb_objects_per_scene nb_tree_branch
    min_nb_families min_objects_per_family
    min_nb_families_subject_to_min_objects_per_family
    rng randbelow nb_to_generate iterations fuel m.
Proof using set_iter1_perm set_iter2_perm.
  revert m. induction iterations as [|iterations IH]; intros m; simpl; [done|].
  destruct (continue_work m); [|done]. rewrite loop_body_set_iter.
  destruct (loop_body _ set_iter2 _ _ _ _ _ _ _ _ _ _) as [m'| |]; try done.
  simpl. apply IH.
Qed.

Lemma _generate_scenes_idx_set_iter (fuel : nat) (start : Z) (g : rng) :
  _generate_scenes_idx definition set_iter1 nb_objects_per_scene nb_tree_branch
    min_nb_families min_objects_per_family
    min_nb_families_subject_to_min_objects_per_family
    rng randbelow nb_to_generate fuel start g =
  _generate_scenes_idx definition set_iter2 nb_objects_per_scene nb_tree_branch
    min_nb_families min_objects_per_family
    min_nb_families_subject_to_min_objects_per_family
    rng randbelow nb_to_generate fuel start g.
Proof using set_iter1_perm set_iter2_perm.
  unfold _generate_scenes_idx, run_search. by rewrite while_continue_work_set_iter.
Qed.

(** C6. Two runs with the same seed, the same catalog and the same
    configuration that both return have generated the same id
    sequences (the same list, hence the same multiset) and return the
    same three sets of scenes, whatever the order in which each of them
    iterates its sets of strings and whatever the generator held before
    it was seeded. *)
Theorem same_seed_same_scenes (fuel1 fuel2 : nat) (seed : Z) (g1 g2 : rng)
    (training_set_ratio : Q) (out1 out2 : scene_sets * rng) :
  main definition set_iter1 nb_objects_per_scene nb_tree_branch min_nb_families
    min_objects_per_family min_nb_families_subject_to_min_objects_per_family
    rng randbelow nb_to_generate fl seed_rng fuel1 (Some seed) g1 training_set_ratio
    = Ok out1 →
  main definition set_iter2 nb_objects_per_scene nb_tree_branch min_nb_families
    min_objects_per_family min_nb_families_subject_to_min_objects_per_family
    rng randbelow nb_to_generate fl seed_rng fuel2 (Some seed) g2 training_set_ratio
    = Ok out2 →
  out1 = out2 ∧
  ∃ (scenes1 scenes2 : list (list Z)) (g1' g2' : rng),
    _generate_scenes_idx definition set_iter1 nb_objects_per_scene nb_tree_branch
      min_nb_families min_objects_per_family
      min_nb_families_subject_to_min_objects_per_family
      rng randbelow nb_to_generate fuel1 0 (seed_rng seed) = Ok (scenes1, g1') ∧
    _generate_scenes_idx definition set_iter2 nb_objects_per_scene nb_tree_branch
      min_nb_families min_objects_per_family
      min_nb_families_subject_to_min_objects_per_family
      rng randbelow nb_to_generate fuel2 0 (seed_rng seed) = Ok (scenes2, g2') ∧
    scenes1 ≡ₚ scenes2 ∧ scenes1 = scenes2.
Proof using set_iter1_perm set_iter2_perm.
  unfold main, generate. intros H1 H2.
  apply bind_Ok in H1 as ([scenes1 g1'] & Hgen1 & H1).
  apply bind_Ok in H2 as ([scenes2 g2'] & Hgen2 & H2).
  pose proof (_generate_scenes_idx_mono _ _ _ _ _ _ _ _ _ _ _ _ _ _ _
                (Nat.le_max_l fuel1 fuel2) Hgen1) as Hmax1.
  pose proof (_generate_scenes_idx_mono _ _ _ _ _ _ _ _ _ _ _ _ _ _ _
                (Nat.le_max_r fuel1 fuel2) Hgen2) as Hmax2.
  rewrite _generate_scenes_idx_set_iter, Hmax2 in Hmax1.
  injection Hmax1 as -> ->.
  split; [congruence|]. exists scenes1, scenes1, g1', g1'. done.
Qed.

End Determinism.

(** ** Examples

    The theorems at work on the data of [Example], and the runs that
    settle what the code does where it departs from the specification. *)

Lemma lcg_range (n g : Z) : 0 < n → 0 <= (Example.lcg n g).1 < n.
Proof. intros Hn. unfold Example.lcg. simpl. by apply Z.mod_pos_bound. Qed.

Lemma in_order_perm (l : list string) : Example.in_order l ≡ₚ l.
Proof. done. Qed.

Lemma backwards_perm (l : list string) : Example.backwards l ≡ₚ l.
Proof. apply reverse_Permutation. Qed.

Lemma exact_mono (x y : Q) : (x <= y)%Q → (Example.exact x <= Example.exact y)%Q.
Proof. done. Qed.

Lemma exact_int (z : Z) :
  Z.abs z <= 2 ^ 53 → (Example.exact (inject_Z z) == inject_Z z)%Q.
Proof. done. Qed.

Lemma exact_err_lo (x : Q) :
  (0 <= x)%Q → (x <= inject_Z (2 ^ 60))%Q →
  (x * (1 - float_eps) - float_eta <= Example.exact x)%Q.
Proof.
  intros Hx _. unfold Example.exact.
  assert (0 <= float_eps)%Q as He by (by vm_compute).
  assert (0 <= float_eta)%Q as Ht by (by vm_compute).
  pose proof (Qmult_le_0_compat _ _ Hx He) as Hxe.
  assert (x * (1 - float_eps) == x - x * float_eps)%Q as -> by ring.
  lra.
Qed.

Lemma exact_err (x : Q) :
  (0 <= x)%Q → (x <= inject_Z (2 ^ 60))%Q →
  (Example.exact x <= x * (1 + float_eps) + float_eta)%Q.
Proof.
  intros Hx _. unfold Example.exact.
  assert (0 <= float_eps)%Q as He by (by vm_compute).
  assert (0 <= float_eta)%Q as Ht by (by vm_compute).
  pose proof (Qmult_le_0_compat _ _ Hx He) as Hxe.
  assert (x * (1 + float_eps) == x + x * float_eps)%Q as -> by ring.
  lra.
Qed.

Lemma example_in_catalog (st : list Z) :
  forallb (fun id => (0 <=? id) && (id <? 6)) st = true →
  Forall (in_catalog Example.catalog) st.
Proof.
  intros H. apply Forall_forall. intros id Hid.
  rewrite forallb_forall in H. specialize (H id).
  unfold in_catalog, nb_sounds. simpl.
  apply list_elem_of_In in Hid. apply H in Hid. lia.
Qed.

(** A run with scenes of 3 sounds, 2 branches, and every constraint on. *)
Lemma generated_scenes_length_NoDup_witness :
  _generate_scenes_idx Example.catalog Example.in_order 3 2 2 1 1 Z Example.lcg None
    200 0 42
  = Ok ([[1; 5; 3]; [1; 5; 2]; [1; 3; 4]; [1; 3; 2]; [0; 1; 2]; [0; 1; 3]; [0; 5; 3]],
        881784893) ∧
  Forall (fun s => Z.of_nat (length s) = 3 ∧ NoDup s)
    [[1; 5; 3]; [1; 5; 2]; [1; 3; 4]; [1; 3; 2]; [0; 1; 2]; [0; 1; 3]; [0; 5; 3]].
Proof.
  assert (_generate_scenes_idx Example.catalog Example.in_order 3 2 2 1 1 Z Example.lcg
            None 200 0 42
          = Ok ([[1; 5; 3]; [1; 5; 2]; [1; 3; 4]; [1; 3; 2]; [0; 1; 2]; [0; 1; 3];
                 [0; 5; 3]], 881784893)) as Hrun by (vm_compute; reflexivity).
  split; [exact Hrun|].
  exact (proj2 (generated_scenes_length_NoDup Example.catalog Example.in_order
                  3 2 2 1 1 Z Example.lcg lcg_range None 0 42) 200%nat _ 881784893 Hrun).
Defined.

Lemma validate_final_iff_witness :
  ∃ b : bool,
    validate_final Example.catalog Example.in_order 3 1 2 [0; 1; 3] = Ok b ∧
    (b = true ↔
       3 <= nb_distinct_families Example.catalog [0; 1; 3] ∧
       2 <= nb_families_meeting_quota Example.catalog 1 [0; 1; 3]).
Proof.
  apply (validate_final_iff Example.catalog Example.in_order in_order_perm 3 1 2
           [0; 1; 3]).
  by apply example_in_catalog.
Defined.

Lemma histogram_covers_catalog_witness :
  ∃ (count : pydict Z) (n : Z),
    ids_to_families_count Example.catalog Example.backwards [0; 2] = Ok (count, n) ∧
    n = nb_distinct_families Example.catalog [0; 2] ∧
    NoDup (dict_keys count) ∧
    (∀ f, f ∈ dict_keys count ↔
          ∃ s : sound, s ∈ Example.catalog ∧ instrument_family s = f) ∧
    (∀ (s : sound), s ∈ Example.catalog →
       dict_get (instrument_family s) count
       = Some (occurrences Example.catalog (instrument_family s) [0; 2])) ∧
    (∀ (s : sound), s ∈ Example.catalog →
       instrument_family s ∉ state_families Example.catalog [0; 2] →
       dict_get (instrument_family s) count = Some 0) ∧
    (0 = 0 → 3 <= Z.of_nat (length (catalog_families Example.catalog)) →
       3 <= meet_requirements_loop 0 3 (dict_values count) 0 ∧
       validate_final Example.catalog Example.backwards 1 0 3 [0; 2]
       = Ok (bool_decide (1 <= nb_distinct_families Example.catalog [0; 2]))).
Proof.
  apply (histogram_covers_catalog Example.catalog Example.backwards backwards_perm
           1 0 3 [0; 2]).
  by apply example_in_catalog.
Defined.

(** A sound in the state, another among the siblings: three draws are
    refused, the fourth one is returned. *)
Lemma next_id_retries_until_eligible_witness :
  (nth_draw Example.catalog Z Example.lcg 0 42).1 = 1 ∧
  (nth_draw Example.catalog Z Example.lcg 1 42).1 = 5 ∧
  (nth_draw Example.catalog Z Example.lcg 2 42).1 = 5 ∧
  (nth_draw Example.catalog Z Example.lcg 3 42).1 = 3 ∧
  next_id Example.catalog Z Example.lcg 10 [1] [5] 42
  = Ok (nth_draw Example.catalog Z Example.lcg 3 42).
Proof.
  split_and!; [by vm_compute | by vm_compute | by vm_compute | by vm_compute |].
  refine (proj2 (proj2 (proj2 (next_id_retries_until_eligible Example.catalog Z
            Example.lcg lcg_range [1] [5] 42))) _ 3%nat _ _ 10%nat _).
  - unfold nb_sounds. simpl. lia.
  - intros [|[|[|j]]] Hj;
      [vm_compute; by left | vm_compute; right; by left | vm_compute; right; by left | lia].
  - vm_compute. intros [H|[H|H]%elem_of_cons]%elem_of_cons; [done | done |].
    by apply elem_of_nil in H.
  - lia.
Defined.

(** C4, the claim refuted. One sound, already in the state: the state
    covers the catalog, and [next_id] neither returns nor raises,
    whatever the number of draws it is allowed. *)
Lemma next_id_exhausted_loops :
  ¬ ∃ fuel : nat,
      next_id Example.single_catalog Z Example.lcg fuel [0] [] 42 ≠ Timeout.
Proof.
  intros [fuel H]. apply H. apply next_id_covered; [apply lcg_range | done |].
  intros i Hi. unfold in_catalog, nb_sounds in Hi. simpl in Hi.
  assert (i = 0) as -> by lia. by left.
Qed.

Lemma counter_range (n g : Z) : 0 < n → 0 <= (Example.counter n g).1 < n.
Proof. intros Hn. unfold Example.counter. simpl. by apply Z.mod_pos_bound. Qed.

Lemma counter_nth_draw (definition : list sound) (k : nat) (g : Z) :
  nth_draw definition Z Example.counter k g =
  ((g + Z.of_nat k) mod nb_sounds definition, g + Z.of_nat k + 1).
Proof.
  revert g. induction k as [|k IH]; intros g; simpl.
  - unfold Example.counter. by rewrite Z.add_0_r.
  - rewrite IH. f_equal; [f_equal|]; lia.
Qed.

(** The generator that goes round the ids reaches any of them within
    [nb_sounds] draws. *)
Lemma counter_draws_return (definition : list sound) :
  draws_return definition Z Example.counter (Z.to_nat (nb_sounds definition)).
Proof.
  intros st siblings g Hlen.
  assert (0 < nb_sounds definition) as HN by lia.
  destruct (free_sound definition (st ++ siblings)) as (i & Hi & Hout).
  { rewrite length_app. lia. }
  apply (next_id_returns definition Z Example.counter st siblings
           (Z.to_nat ((i - g) mod nb_sounds definition))); [done | |].
  - rewrite counter_nth_draw. simpl. rewrite Z2Nat.id by (by apply Z.mod_pos_bound).
    rewrite Zplus_mod_idemp_r. replace (g + (i - g)) with i by lia.
    rewrite Z.mod_small; [done|]. apply Hi.
  - pose proof (Z.mod_pos_bound (i - g) (nb_sounds definition) HN). lia.
Qed.

(** A search with a limit of one scene: it emits [[0; 1]] and stops on
    the leaf [[0; 2]], which it does not emit. *)
Lemma search_halts_at_root_or_limit_witness :
  ∃ m : machine Z,
    run_search Example.catalog Example.in_order 2 2 1 0 0 Z Example.counter (Some 1)
      50 0 42 = Ok m ∧
    generated_scenes m = [[0; 1]] ∧ state m = [0; 2] ∧
    continue_work m = false ∧
    halted_at_limit Example.catalog Example.in_order 2 1 0 0 Z (Some 1) m ∧
    (state m ∉ generated_scenes m) ∧
    (∃ m0 : machine Z,
       reachable Example.catalog Example.in_order 2 2 1 0 0 Z Example.counter (Some 1)
         (init_machine 0 42) m0 ∧
       continue_work m0 = true ∧ m = stop_work Z m0 ∧
       ∀ (fuel' : nat) (m1 : machine Z),
         reachable Example.catalog Example.in_order 2 2 1 0 0 Z Example.counter (Some 1)
           (init_machine 0 42) m1 →
         continue_work m1 = true →
         loop_body Example.catalog Example.in_order 2 2 1 0 0 Z Example.counter (Some 1)
           fuel' m1 = Ok m0 →
         generated_scenes m0 = generated_scenes m1) ∧
    start_index m = 0 + Z.of_nat (length (generated_scenes m)) ∧
    (∀ limit : Z, Some 1 = Some limit → limit ≠ 0 →
       Z.of_nat (length (generated_scenes m)) <= Z.max 0 (limit - 0)).
Proof.
  destruct (search_halts_at_root_or_limit Example.catalog Example.in_order in_order_perm
              2 2 1 0 0 Z Example.counter counter_range (Some 1) 50 0 42)
    as (_ & _ & Hhalt & Hreturns).
  destruct (Hreturns 6%nat) as [m Hm].
  - lia.
  - lia.
  - unfold nb_sounds. simpl. lia.
  - apply (counter_draws_return Example.catalog).
  - lia.
  - lia.
  - simpl. lia.
  - destruct (Hhalt m Hm) as (Hcw & Hstop & Hidx & Hbound).
    pose proof Hm as Hrun. vm_compute in Hrun. injection Hrun as Hrun.
    exists m. split; [exact Hm|].
    split; [by rewrite <- Hrun|]. split; [by rewrite <- Hrun|]. split; [exact Hcw|].
    destruct Hstop as [[Hnone _] | (Hlim & Hnew & Hlast)].
    + rewrite <- Hrun in Hnone. discriminate Hnone.
    + split; [exact Hlim|]. split; [exact Hnew|]. split; [exact Hlast|].
      split; [exact Hidx | exact Hbound].
Defined.

(** C5, the claim refuted. With a limit of one scene, the third
    iteration emits the first scene; the loop goes on, the fourth
    iteration draws a sound and allocates a node, and only the fifth
    iteration, on a leaf that passes final validation, ends the search. *)
Lemma limit_not_checked_on_emission :
  (fun m => (length (generated_scenes m), continue_work m, length (nodes m))) <$>
    loop_iterations Example.catalog Example.in_order 2 2 1 0 0 Z Example.lcg (Some 1)
      3 50 (init_machine 0 42)
  = Ok (1%nat, true, 3%nat) ∧
  (fun m => (length (generated_scenes m), continue_work m, length (nodes m))) <$>
    loop_iterations Example.catalog Example.in_order 2 2 1 0 0 Z Example.lcg (Some 1)
      4 50 (init_machine 0 42)
  = Ok (1%nat, true, 4%nat) ∧
  (fun m => (length (generated_scenes m), continue_work m, length (nodes m))) <$>
    loop_iterations Example.catalog Example.in_order 2 2 1 0 0 Z Example.lcg (Some 1)
      5 50 (init_machine 0 42)
  = Ok (1%nat, false, 4%nat).
Proof. by vm_compute. Qed.

Lemma same_seed_same_scenes_witness :
  ∃ out1 out2 : scene_sets * Z,
    main Example.catalog Example.in_order 3 2 2 1 1 Z Example.lcg None Example.exact
      Example.seed_lcg 200 (Some 42) 1 (7 # 10) = Ok out1 ∧
    main Example.catalog Example.backwards 3 2 2 1 1 Z Example.lcg None Example.exact
      Example.seed_lcg 300 (Some 42) 7 (7 # 10) = Ok out2 ∧
    out1 = out2.
Proof.
  eexists _, _. split; [vm_compute; reflexivity|]. split; [vm_compute; reflexivity|].
  eapply proj1.
  apply (same_seed_same_scenes Example.catalog Example.in_order Example.backwards
           in_order_perm backwards_perm 3 2 2 1 1 Z Example.lcg None Example.exact
           Example.seed_lcg 200 300 42 1 7 (7 # 10));
    vm_compute; reflexivity.
Defined.

Lemma childs_at_most_nb_tree_branch_witness :
  ∃ m : machine Z,
    run_search Example.catalog Example.in_order 3 2 2 1 1 Z Example.lcg None 200 0 42
    = Ok m ∧
    Forall (fun n => Z.of_nat (length (childs n)) <= 2) (nodes m).
Proof.
  eexists. split; [vm_compute; reflexivity|].
  refine (proj1 (childs_at_most_nb_tree_branch Example.catalog Example.in_order
                   3 2 2 1 1 Z Example.lcg lcg_range None 0 42 _ _ _)); [lia|].
  refine (proj1 (run_search_Ok Example.catalog Example.in_order 3 2 2 1 1 Z
                   Example.lcg None 200 0 42 _ _)).
  vm_compute. reflexivity.
Defined.

Lemma split_scenes_sizes_witness :
  ∃ sets : scene_sets,
    split_scenes Example.catalog Example.exact
      [[1; 5; 3]; [1; 5; 2]; [1; 3; 4]; [1; 3; 2]; [0; 1; 2]; [0; 1; 3]; [0; 5; 3]]
      (7 # 10) = Ok sets ∧
    Z.of_nat (length (training_scenes sets)) = 5 ∧
    Z.of_nat (length (valid_scenes sets)) = 1 ∧
    Z.of_nat (length (test_scenes sets)) = 1.
Proof.
  destruct (split_scenes_sizes Example.catalog Example.exact exact_mono exact_int
              exact_err exact_err_lo
              [[1; 5; 3]; [1; 5; 2]; [1; 3; 4]; [1; 3; 2]; [0; 1; 2]; [0; 1; 3]; [0; 5; 3]]
              (7 # 10)) as
    (sets & n_train & n_val & Hsets & Hrt & Hrv & _ & _ & Htr & Hva & Hte & _).
  - split; by vm_compute.
  - repeat (apply Forall_cons; split; [by apply example_in_catalog|]). constructor.
  - simpl. lia.
  - assert (n_train = 5) as ->.
    { apply (round_half_even_unique _ _ _ Hrt).
      split; [split; by vm_compute|]. intros [H|H]; by vm_compute in H. }
    assert (n_val = 1) as ->.
    { apply (round_half_even_unique _ _ _ Hrv).
      split; [split; by vm_compute|]. intros [H|H]; by vm_compute in H. }
    exists sets. split; [done|]. split; [exact Htr|]. split; [exact Hva | exact Hte].
Defined.



(** C3, the code against the claim. Two flutes, two violins; scenes of
    4 sounds with 2 families of at least 2 sounds each. After the first
    flute, 3 sounds are to come; no family has its 2 sounds yet, and the
    third test counts 2 sounds for each of the 2 families, 4 in all,
    which is more than 3: the state is rejected. Yet the other flute
    and the two violins complete it into a scene that passes final
    validation. The search rejects every first sound in this way and
    returns no scene. *)
Theorem validate_intermediate_rejects_feasible :
  validate_intermediate Example.small_catalog Example.in_order 4 2 2 2 [0] 0 = Ok false ∧
  Z.of_nat (length [1; 2; 3]) = 4 - 0 - 1 ∧
  validate_final Example.small_catalog Example.in_order 2 2 2 ([0] ++ [1; 2; 3])
    = Ok true ∧
  generated_scenes <$>
    run_search Example.small_catalog Example.in_order 4 2 2 2 2 Z Example.lcg None
      100 0 42
  = Ok [].
Proof. by vm_compute. Qed.

(** A search need not return. One sound, scenes of one sound, two
    branches: once the only sound is a child of the root, the draw for
    the second child never ends. *)
Lemma search_may_not_return (fuel : nat) :
  run_search Example.single_catalog Example.in_order 1 2 0 0 0 Z Example.lcg None
    fuel 0 42 = Timeout.
Proof.
  unfold run_search.
  destruct fuel as [|[|[|fuel]]]; [by vm_compute | by vm_compute | by vm_compute |].
  set (f := S (S (S fuel))).
  set (m1 := {| nodes := [ {| childs := [1%nat]; level := -1; sound_id := -1;
                              overlapping_last := false; parent := None |};
                           {| childs := []; level := 0; sound_id := 0;
                              overlapping_last := false; parent := Some 0%nat |} ];
                next_node := Some 1%nat; state := [0]; generated_scenes := [];
                start_index := 0; gen := 1250496027; continue_work := true |}).
  set (m2 := {| nodes := nodes m1; next_node := Some 0%nat; state := [];
                generated_scenes := [[0]]; start_index := 1; gen := 1250496027;
                continue_work := true |}).
  assert (loop_body Example.single_catalog Example.in_order 1 2 0 0 0 Z Example.lcg None
            f (init_machine 0 42) = Ok m1) as H1 by (by vm_compute).
  assert (loop_body Example.single_catalog Example.in_order 1 2 0 0 0 Z Example.lcg None
            f m1 = Ok m2) as H2 by (by vm_compute).
  assert (loop_body Example.single_catalog Example.in_order 1 2 0 0 0 Z Example.lcg None
            f m2 = Timeout) as H3.
  { unfold loop_body. simpl.
    rewrite (next_id_covered Example.single_catalog Z Example.lcg lcg_range f [] [0] _);
      [done | done |].
    intros i Hi. unfold in_catalog, nb_sounds in Hi. simpl in Hi.
    assert (i = 0) as -> by lia. by left. }
  unfold f at 1.
  rewrite while_continue_work_S, H1, bind_ret by done.
  rewrite while_continue_work_S, H2, bind_ret by done.
  by rewrite while_continue_work_S, H3.
Qed.

(** ** The further properties at work *)

Lemma generated_scenes_valid_witness :
  Forall (fun s =>
            Forall (in_catalog Example.catalog) s ∧
            validate_final Example.catalog Example.in_order 2 1 1 s = Ok true ∧
            2 <= nb_distinct_families Example.catalog s ∧
            1 <= nb_families_meeting_quota Example.catalog 1 s)
    [[1; 5; 3]; [1; 5; 2]; [1; 3; 4]; [1; 3; 2]; [0; 1; 2]; [0; 1; 3]; [0; 5; 3]].
Proof.
  apply (generated_scenes_valid Example.catalog Example.in_order in_order_perm
           3 2 2 1 1 Z Example.lcg lcg_range None 200 0 42 881784893).
  vm_compute. reflexivity.
Defined.

Lemma generated_scenes_distinct_witness :
  NoDup [[1; 5; 3]; [1; 5; 2]; [1; 3; 4]; [1; 3; 2]; [0; 1; 2]; [0; 1; 3]; [0; 5; 3]].
Proof.
  apply (generated_scenes_distinct Example.catalog Example.in_order
           3 2 2 1 1 Z Example.lcg lcg_range None 200 0 42 881784893).
  vm_compute. reflexivity.
Defined.

(** The children of the root after a whole search. *)
Lemma siblings_distinct_sounds_witness :
  ∃ (m : machine Z) (n : Node),
    run_search Example.catalog Example.in_order 3 2 2 1 1 Z Example.lcg None 200 0 42
    = Ok m ∧
    nodes m !! 0%nat = Some n ∧
    ∃ ids : list Z,
      get_childs_ids (nodes m) 0 = Ok ids ∧
      childs_sound_ids (nodes m) (childs n) = Ok ids ∧
      length ids = length (childs n) ∧ NoDup ids.
Proof.
  eexists _, _. split; [vm_compute; reflexivity|]. split; [vm_compute; reflexivity|].
  refine (siblings_distinct_sounds Example.catalog Example.in_order
            3 2 2 1 1 Z Example.lcg lcg_range None 0 42 _ 0%nat _ _ _).
  - refine (proj1 (run_search_Ok Example.catalog Example.in_order 3 2 2 1 1 Z
                     Example.lcg None 200 0 42 _ _)).
    vm_compute. reflexivity.
  - vm_compute. reflexivity.
Defined.

Lemma generated_scenes_at_most_witness :
  Z.of_nat
    (length [[1; 5; 3]; [1; 5; 2]; [1; 3; 4]; [1; 3; 2]; [0; 1; 2]; [0; 1; 3]; [0; 5; 3]])
  <= 2 ^ 3.
Proof.
  apply (generated_scenes_at_most Example.catalog Example.in_order
           3 2 2 1 1 Z Example.lcg lcg_range None 200 0 42 881784893);
    [lia | lia | vm_compute; reflexivity].
Defined.

Lemma get_childs_ids_add_child_witness :
  ∃ hp' : list Node,
    add_child [root_node] 0 7 = Ok (hp', 1%nat) ∧
    get_childs_ids hp' 0 = Ok ([] ++ [7]) ∧ get_childs_ids hp' 1 = Ok [].
Proof.
  eexists. split; [vm_compute; reflexivity|].
  apply (get_childs_ids_add_child [root_node] _ 0 1 7 []); vm_compute; reflexivity.
Defined.

Lemma scene_length_zero_IndexError_witness :
  ∃ b : bool,
    validate_final Example.catalog Example.in_order 0 0 0 [] = Ok b ∧
    _generate_scenes_idx Example.catalog Example.in_order 0 2 0 0 0 Z Example.lcg None
      10 0 42
    = if b && limit_reached None 0 then Ok ([], 42) else Raise IndexError.
Proof.
  apply (scene_length_zero_IndexError Example.catalog Example.in_order 0 2 0 0 0 Z
           Example.lcg None 9 0 42). lia.
Defined.

Lemma empty_catalog_ValueError_witness :
  _generate_scenes_idx [] Example.in_order 3 2 2 1 1 Z Example.lcg None 10 0 42
  = Raise ValueError.
Proof.
  apply (empty_catalog_ValueError [] Example.in_order 3 2 2 1 1 Z Example.lcg None 9 0 42);
    [reflexivity | lia | lia].
Defined.

Lemma no_branch_no_scene_witness :
  _generate_scenes_idx Example.catalog Example.in_order 3 0 2 1 1 Z Example.lcg None
    10 0 42
  = Ok ([], 42).
Proof.
  apply (no_branch_no_scene Example.catalog Example.in_order 3 0 2 1 1 Z Example.lcg
           None 9 0 42); lia.
Defined.

Lemma validate_intermediate_last_level_witness :
  (validate_intermediate Example.catalog Example.in_order 3 3 1 2 [0; 1; 3] (3 - 1)
   = Ok true →
   validate_final Example.catalog Example.in_order 3 1 2 [0; 1; 3] = Ok true) ∧
  (0 <= 1 →
   validate_intermediate Example.catalog Example.in_order 3 3 1 2 [0; 1; 3] (3 - 1)
   = validate_final Example.catalog Example.in_order 3 1 2 [0; 1; 3]).
Proof.
  apply (validate_intermediate_last_level Example.catalog Example.in_order in_order_perm
           3 3 1 2 [0; 1; 3]).
  by apply example_in_catalog.
Defined.

(** Scenes of one sound: the first iteration leaves the search on a
    leaf. *)
Lemma leaf_passes_final_validation_witness :
  ∃ m : machine Z,
    loop_body Example.catalog Example.in_order 1 2 1 1 1 Z Example.lcg None 50
      (init_machine 0 42) = Ok m ∧
    next_node m = Some 1%nat ∧
    validate_final Example.catalog Example.in_order 1 1 1 (state m) = Ok true.
Proof.
  eexists. split; [vm_compute; reflexivity|]. split; [reflexivity|].
  refine (leaf_passes_final_validation Example.catalog Example.in_order in_order_perm
            1 2 1 1 1 Z Example.lcg lcg_range None 0 42 _ 1%nat _ _ _ _ _ _ _).
  - lia.
  - eapply reachable_step with (fuel := 50%nat);
      [apply reachable_init | reflexivity | vm_compute; reflexivity].
  - reflexivity.
  - reflexivity.
  - vm_compute. reflexivity.
  - simpl. lia.
Defined.

(** Three families asked for, two flutes in the state and one sound to
    come. *)
Lemma validate_intermediate_sound_small_quota_witness :
  validate_intermediate Example.catalog Example.in_order 3 3 1 1 [0; 2] 1 = Ok false ∧
  validate_final Example.catalog Example.in_order 3 1 1 ([0; 2] ++ [1]) = Ok false.
Proof.
  split; [vm_compute; reflexivity|].
  apply (validate_intermediate_sound_small_quota Example.catalog Example.in_order
           in_order_perm 3 3 1 1 [0; 2] [1] 1).
  - lia.
  - by apply example_in_catalog.
  - simpl. lia.
  - vm_compute. reflexivity.
Defined.

Lemma ids_to_families_count_total_witness :
  ∃ (count : list (string * Z)) (n : Z),
    ids_to_families_count Example.catalog Example.backwards [0; 2; 1] = Ok (count, n) ∧
    NoDup (dict_keys count) ∧
    Forall (fun c => 0 <= c) (dict_values count) ∧
    foldr Z.add 0 (dict_values count) = Z.of_nat (length [0; 2; 1]) ∧
    n = Z.of_nat (length (filter (fun c => 0 < c) (dict_values count))) ∧
    n <= Z.of_nat (length [0; 2; 1]).
Proof.
  eexists _, _. split; [vm_compute; reflexivity|].
  apply (ids_to_families_count_total Example.catalog Example.backwards backwards_perm
           [0; 2; 1]).
  vm_compute. reflexivity.
Defined.

Lemma generate_keeps_scenes_witness :
  ∃ (sets : scene_sets) (g2 : Z) (shuffled : list (list Z)),
    generate Example.catalog Example.in_order 3 2 2 1 1 Z Example.lcg None Example.exact
      200 0 (7 # 10) true 42 = Ok (sets, g2) ∧
    shuffled ≡ₚ
      [[1; 5; 3]; [1; 5; 2]; [1; 3; 4]; [1; 3; 2]; [0; 1; 2]; [0; 1; 3]; [0; 5; 3]] ∧
    (true = false →
     shuffled =
       [[1; 5; 3]; [1; 5; 2]; [1; 3; 4]; [1; 3; 2]; [0; 1; 2]; [0; 1; 3]; [0; 5; 3]] ∧
     g2 = 881784893) ∧
    Forall2 (fun ids s => scene_composition Example.catalog ids = Ok (objects s)) shuffled
      (training_scenes sets ++ valid_scenes sets ++ test_scenes sets).
Proof.
  apply (generate_keeps_scenes Example.catalog Example.in_order 3 2 2 1 1 Z Example.lcg
           lcg_range None Example.exact 200 0 (7 # 10) true 42 881784893).
  - split; by vm_compute.
  - vm_compute. reflexivity.
Defined.

Lemma generate_image_index_witness :
  ∃ (sets : scene_sets) (g' : Z),
    generate Example.catalog Example.in_order 3 2 2 1 1 Z Example.lcg None Example.exact
      200 0 (7 # 10) true 42 = Ok (sets, g') ∧
    (∀ (i : nat) (s : scene),
       training_scenes sets !! i = Some s → split s = train ∧ image_index s = Z.of_nat i) ∧
    (∀ (i : nat) (s : scene),
       valid_scenes sets !! i = Some s → split s = val ∧ image_index s = Z.of_nat i) ∧
    (∀ (i : nat) (s : scene),
       test_scenes sets !! i = Some s → split s = test ∧ image_index s = Z.of_nat i).
Proof.
  eexists _, _. split; [vm_compute; reflexivity|].
  eapply (generate_image_index Example.catalog Example.in_order 3 2 2 1 1 Z Example.lcg
            None Example.exact 200 0 (7 # 10) true 42).
  vm_compute. reflexivity.
Defined.

(** A limit of one scene, reached. *)
Lemma scenes_up_to_limit_witness :
  ∃ m : machine Z,
    run_search Example.catalog Example.in_order 2 2 1 0 0 Z Example.lcg (Some 1)
      50 0 42 = Ok m ∧
    ((halted_at_limit Example.catalog Example.in_order 2 1 0 0 Z (Some 1) m ∧
      Z.of_nat (length (generated_scenes m)) = Z.max 0 (1 - 0)) ∨
     (halted_at_root 2 Z m ∧
      Z.of_nat (length (generated_scenes m)) <= Z.max 0 (1 - 0))).
Proof.
  eexists. split; [vm_compute; reflexivity|].
  apply (scenes_up_to_limit Example.catalog Example.in_order 2 2 1 0 0 Z Example.lcg
           lcg_range (Some 1) 50 0 1 42); [reflexivity | lia | vm_compute; reflexivity].
Defined.


(** The tree of a whole search: the root and the nodes under it that
    were gone through have 2 children, the others none. *)
Lemma exhausted_tree_is_full_witness :
  ∃ m : machine Z,
    run_search Example.catalog Example.in_order 3 2 2 1 1 Z Example.lcg None 200 0 42
    = Ok m ∧
    next_node m = None ∧
    Forall (fun n => childs n = [] ∨ Z.of_nat (length (childs n)) = 2) (nodes m).
Proof.
  eexists. split; [vm_compute; reflexivity|]. split; [reflexivity|].
  refine (proj2 (exhausted_tree_is_full Example.catalog Example.in_order
                   3 2 2 1 1 Z Example.lcg lcg_range None 0 42 _ _ _ _) _);
    [lia | lia | | reflexivity].
  refine (proj1 (run_search_Ok Example.catalog Example.in_order 3 2 2 1 1 Z
                   Example.lcg None 200 0 42 _ _)).
  vm_compute. reflexivity.
Defined.

Lemma _preprocess_sounds_spec_witness :
  ∃ loaded : list (pydict json),
    _preprocess_sounds Example.wav_files Example.raw_definition = Done loaded ∧
    Forall2 (λ d d',
      NoDup (dict_keys d') ∧
      ((∀ k, k ∈ dict_keys d → endswith k "_str" = true →
          endswith (drop_last 4 k) "_str" = false) →
       ∃ name duration_ms rms_value,
         dict_get "note_str" d = Some (JStr name) ∧
         Example.wav_files name = Some (duration_ms, rms_value) ∧
         dict_get "note" d' = Some (JStr name) ∧
         ∀ x, dict_get x d' =
           if decide (x = "rms") then Some (JInt rms_value)
           else if decide (x = "duration") then Some (JInt duration_ms)
           else if decide (x = "sample_rate") then None
           else if endswith x "_str" then None
           else match dict_get (x +:+ "_str") d with
                | Some v => Some v
                | None => dict_get x d
                end)) Example.raw_definition loaded.
Proof.
  apply (_preprocess_sounds_spec Example.wav_files Example.raw_definition).
  apply Forall_cons. split; [split|].
  - apply (bool_decide_unpack _). vm_compute. reflexivity.
  - eexists _, _, _. split; reflexivity.
  - apply Forall_cons. split; [split|constructor].
    + apply (bool_decide_unpack _). vm_compute. reflexivity.
    + eexists _, _, _. split; reflexivity.
Defined.
